(** * Ponto OS: local media persistence and thumbnail derivation

    A shallow embedding of the storage and thumbnail code of the Ponto OS
    client:

    - the IndexedDB blob store [mediaStore] and the media reference resolver
      hook [useResolvedMediaUrl] (both in src/app/lib/useResolvedMediaUrl.ts),
    - the capture page: capture-save, overflow migration, the capture-time
      video thumbnail, the recorder's handlers and the preview URL of the
      recorded clip (the second module of src/app/page.tsx),
    - opening an entry and editing its notes
      (src/app/entry/[id]/EntryClient.tsx),
    - video thumbnails and their write-back
      (src/app/components/VideoThumb.tsx).

    JavaScript values are modelled at their TypeScript types.  Code that can
    throw lives in a state-and-exception monad over a [World] (the browser
    state the code touches); unlike a state transformer stacked on an error
    monad, a throw keeps the side effects made before it, as in JavaScript.
    Browser built-ins whose behaviour the repository does not define
    (JSON, storage quota, IndexedDB failures, fetch, image decoding) are the
    fields of the [Platform] class, and every theorem holds for every
    platform.  Asynchronous code is cut at its [await]s: the pieces are
    functions, and a schedule says in which order they run. *)

From Stdlib Require Import String Ascii List ZArith QArith Lia Bool.
From stdpp Require Import base gmap strings list pretty.
Import ListNotations.
Local Close Scope Q_scope.
Local Open Scope string_scope.
Local Open Scope list_scope.

Set Default Proof Using "Type".

(** ** JavaScript strings

    Strings are sequences of code units; Rocq's [string] covers the code
    units below 256. *)

(** [s.startsWith(p)] *)
Definition startsWith (p s : string) : bool := String.prefix p s.

(** [s.slice(n)] for [0 <= n]: drop the first [n] code units. *)
Fixpoint slice (n : nat) (s : string) : string :=
  match n, s with
  | O, _ => s
  | S _, EmptyString => EmptyString
  | S n', String _ rest => slice n' rest
  end.

(** The WhiteSpace and LineTerminator code units of ECMAScript below 256:
    TAB, LF, VT, FF, CR, SP and NBSP. *)
Definition isWhiteSpace (c : ascii) : bool :=
  let n := nat_of_ascii c in
  (n =? 9)%nat || (n =? 10)%nat || (n =? 11)%nat || (n =? 12)%nat
  || (n =? 13)%nat || (n =? 32)%nat || (n =? 160)%nat.

Fixpoint trimStart (s : string) : string :=
  match s with
  | EmptyString => EmptyString
  | String c rest => if isWhiteSpace c then trimStart rest else s
  end.

Definition reverse (s : string) : string :=
  string_of_list_ascii (rev (list_ascii_of_string s)).

Definition trimEnd (s : string) : string := reverse (trimStart (reverse s)).

(** [s.trim()] *)
Definition trim (s : string) : string := trimEnd (trimStart s).

(** Truthiness of a string: only the empty string is falsy. *)
Definition truthy (s : string) : bool :=
  match s with EmptyString => false | String _ _ => true end.

(** Truthiness of [string | undefined] and [string | null]. *)
Definition truthy_opt (o : option string) : bool :=
  match o with Some s => truthy s | None => false end.

(** ** The data model (the [Entry] and [TextBlock] types of every page) *)

Module TextBlock.
Record t := mk { id : string; createdAt : string; content : string }.
End TextBlock.

Inductive MediaType := photo | video.

Module Entry.
Record t := mk {
  id : string;
  createdAt : string;
  mediaType : MediaType;
  mediaUri : string;            (* data URL or idb:<id> *)
  thumbUri : option string;     (* thumbUri?: string *)
  textBlocks : list TextBlock.t }.
End Entry.

#[global] Instance MediaType_eq_dec : EqDecision MediaType.
Proof. solve_decision. Defined.

Definition KEY : string := "ponto.timeline.v1".
Definition EVT : string := "ponto-timeline-updated".

(** ** Browser values *)

Record Blob := mkBlob { blob_type : string; blob_data : string }.

#[global] Instance Blob_eq_dec : EqDecision Blob.
Proof. solve_decision. Defined.

(** What a [catch] clause can see of a thrown value: a [DOMException] with
    its [name], or any other error. *)
Inductive Exn :=
| DOMException (name : string)
| OtherError (message : string).

(** What [JSON.parse] yields, seen at the type [Entry[]] the code casts it
    to: an array of entries, or a JSON value that is not an array. *)
Inductive JsValue :=
| JsNull
| JsBool (b : bool)
| JsNumber (n : Z)
| JsString (s : string)
| JsObject
| JsArray (items : list Entry.t).

(** [Array.isArray] *)
Definition isArray (v : JsValue) : bool :=
  match v with JsArray _ => true | _ => false end.

(** The elements of a parsed value used as an [Entry[]]. *)
Definition asEntries (v : JsValue) : list Entry.t :=
  match v with JsArray items => items | _ => [] end.

Inductive Result (A : Type) :=
| Ok (a : A)
| Throw (e : Exn).
Arguments Ok {A} a.
Arguments Throw {A} e.

(** The platform calls with an observable side effect, in call order. *)
Inductive Effect :=
| SetItem (key value : string)       (* localStorage.setItem(key, value), failed or not *)
| DispatchEvent (type : string)      (* window.dispatchEvent(new Event(type)) *)
| ConsoleWarn (source : string)      (* console.warn("[source] ...") *)
| IdbPut (key : string) (b : Blob)   (* objectStore.put(b, key) *)
| CreateObjectURL (url : string)     (* URL.createObjectURL returned url *)
| RevokeObjectURL (url : string).    (* URL.revokeObjectURL(url) *)

#[global] Instance Effect_eq_dec : EqDecision Effect.
Proof. solve_decision. Defined.

Record World := mkWorld {
  localStorage : gmap string string;
  mediaDb : gmap string Blob;        (* object store "media" of "ponto.media.v1" *)
  minted : nat;                      (* object URLs minted so far *)
  trace : list Effect }.

Definition emit (e : Effect) (w : World) : World :=
  mkWorld (localStorage w) (mediaDb w) (minted w) (trace w ++ [e]).

Definition store (k v : string) (w : World) : World :=
  mkWorld (<[k:=v]> (localStorage w)) (mediaDb w) (minted w) (trace w).

Definition storeBlob (k : string) (b : Blob) (w : World) : World :=
  mkWorld (localStorage w) (<[k:=b]> (mediaDb w)) (minted w) (trace w).

Inductive IdbOp := IdbOpen | IdbWrite (key : string) | IdbRead (key : string).

(** The browser built-ins the code calls and the repository does not define. *)
Class Platform := {
  (** [JSON.stringify] on a timeline *)
  JSON_stringify : list Entry.t -> string;
  (** [JSON.parse]; [Throw] is its SyntaxError *)
  JSON_parse : string -> Result JsValue;
  (** when [localStorage.setItem(key, value)] throws on the given store
      (quota, disabled storage), and what *)
  storageFault : gmap string string -> string -> string -> option Exn;
  (** when an IndexedDB request fails on the given store, and with what *)
  idbFault : gmap string Blob -> IdbOp -> option Exn;
  (** [fetch(dataUrl)] followed by [res.blob()] *)
  fetchBlob : string -> Result Blob;
  (** decoding a data URL as an image and re-encoding it on a canvas of at
      most 720 px: the outcome of [makePhotoThumbFromDataUrl] *)
  photoThumb : string -> option string }.

(** ** The monad of effectful code *)

Definition M (A : Type) : Type := World -> Result A * World.

Definition ret {A} (a : A) : M A := fun w => (Ok a, w).

Definition bind {A B} (m : M A) (k : A -> M B) : M B :=
  fun w => match m w with
           | (Ok a, w') => k a w'
           | (Throw e, w') => (Throw e, w')
           end.

Definition throw {A} (e : Exn) : M A := fun w => (Throw e, w).

(** [try { body } catch (e) { handler(e) }] *)
Definition try_catch {A} (body : M A) (handler : Exn -> M A) : M A :=
  fun w => match body w with
           | (Ok a, w') => (Ok a, w')
           | (Throw e, w') => handler e w'
           end.

Definition effect (e : Effect) : M unit := fun w => (Ok tt, emit e w).

Declare Scope js_scope.
Delimit Scope js_scope with js.
Notation "'do' x <- c1 ;; c2" := (bind c1 (fun x => c2))
  (at level 100, x name, c1 at next level, right associativity) : js_scope.
Notation "'run' c1 ;; c2" := (bind c1 (fun _ => c2))
  (at level 100, c1 at next level, right associativity) : js_scope.
Local Open Scope js_scope.

(** The effects a computation appended to the trace. *)
Definition added (before after : World) : list Effect :=
  drop (length (trace before)) (trace after).

Definition isSetItem (e : Effect) : bool :=
  match e with SetItem _ _ => true | _ => false end.

Definition isDispatch (e : Effect) : bool :=
  match e with DispatchEvent _ => true | _ => false end.

Section Storage.
Context `{Platform}.

(** [localStorage.getItem(k)] *)
Definition getItem (k : string) : M (option string) :=
  fun w => (Ok (localStorage w !! k), w).

(** [localStorage.setItem(k, v)]: throws what the platform says, and stores
    the value otherwise. *)
Definition setItem (k v : string) : M unit :=
  fun w =>
    let w' := emit (SetItem k v) w in
    match storageFault (localStorage w) k v with
    | Some e => (Throw e, w')
    | None => (Ok tt, store k v w')
    end.

(** [window.dispatchEvent(new Event(type))] *)
Definition dispatchEvent (type : string) : M unit := effect (DispatchEvent type).

(** [readTimeline], defined alike by the timeline page, the capture page,
    EntryClient.tsx and VideoThumb.tsx. *)
Definition readTimeline : M (list Entry.t) :=
  try_catch
    (do raw <- getItem KEY;;
     do list <- (if truthy_opt raw
                 then (fun w => (JSON_parse (default "" raw), w))
                 else ret (JsArray []));;
     ret (if isArray list then asEntries list else []))
    (fun _ => ret []).

End Storage.

(** ** The blob store ([mediaStore], imported by the hook and the pages) *)

Module MediaStore.
Section WithPlatform.
Context `{Platform}.

Definition IDB_PREFIX : string := "idb:".

Definition isIdbUri (uri : string) : bool := startsWith IDB_PREFIX uri.

Definition toIdbUri (key : string) : string := IDB_PREFIX +:+ key.

(** [openDb]: resolves with the database, or rejects with [request.error].
    The upgrade step creates the object store when it is missing and never
    touches stored payloads. *)
Definition openDb : M unit :=
  fun w => match idbFault (mediaDb w) IdbOpen with
           | Some e => (Throw e, w)
           | None => (Ok tt, w)
           end.

Definition putMedia (key : string) (blob : Blob) : M unit :=
  run openDb;;
  fun w =>
    let w' := emit (IdbPut key blob) w in
    match idbFault (mediaDb w) (IdbWrite key) with
    | Some e => (Throw e, w')               (* tx.onerror: reject(tx.error) *)
    | None => (Ok tt, storeBlob key blob w') (* tx.oncomplete *)
    end.

(** [getMedia]: [request.result ?? null] on success. *)
Definition getMedia (key : string) : M (option Blob) :=
  run openDb;;
  fun w =>
    match idbFault (mediaDb w) (IdbRead key) with
    | Some e => (Throw e, w)                (* request.onerror *)
    | None => (Ok (mediaDb w !! key), w)    (* request.onsuccess *)
    end.

Definition dataUrlToBlob (dataUrl : string) : M Blob :=
  fun w => (fetchBlob dataUrl, w).

(** [deleteMedia]: a readwrite transaction on the key, like [putMedia]. No
    page calls it, and the trace has no effect for it. *)
Definition deleteMedia (key : string) : M unit :=
  run openDb;;
  fun w =>
    match idbFault (mediaDb w) (IdbWrite key) with
    | Some e => (Throw e, w)                (* tx.onerror *)
    | None =>                               (* tx.oncomplete *)
        (Ok tt, mkWorld (localStorage w) (delete key (mediaDb w)) (minted w) (trace w))
    end.

End WithPlatform.
End MediaStore.

(** ** The capture page ([CapturePage], second module of src/app/page.tsx) *)

Module Capture.
Section WithPlatform.
Context `{Platform}.

(** [makePhotoThumbFromDataUrl]: the promise always resolves, with the
    re-encoded image or with null; loading the image and drawing it on the
    canvas are the platform's [photoThumb]. *)
Definition makePhotoThumbFromDataUrl (dataUrl : string) : M (option string) :=
  fun w => (Ok (photoThumb dataUrl), w).

Definition isQuotaExceeded (err : Exn) : bool :=
  match err with
  | DOMException name =>
      (name =? "QuotaExceededError")%string
      || (name =? "NS_ERROR_DOM_QUOTA_REACHED")%string
  | OtherError _ => false
  end.

(** The body of the [try] block of [migrateTimelineMedia], up to the entry
    it pushes. *)
Definition migrateEntry (entry : Entry.t) : M Entry.t :=
  do blob <- MediaStore.dataUrlToBlob (Entry.mediaUri entry);;
  do thumbUri <-
    (if negb (truthy_opt (Entry.thumbUri entry))
        && bool_decide (Entry.mediaType entry = photo)
     then makePhotoThumbFromDataUrl (Entry.mediaUri entry)   (* ... ?? undefined *)
     else ret (Entry.thumbUri entry));;
  run MediaStore.putMedia (Entry.id entry) blob;;
  ret (Entry.mk (Entry.id entry) (Entry.createdAt entry) (Entry.mediaType entry)
         (MediaStore.toIdbUri (Entry.id entry)) thumbUri (Entry.textBlocks entry)).

(** The [for] loop of [migrateTimelineMedia] over the entries still to
    visit, [updated] being the array built so far. *)
Fixpoint migrateLoop (entries updated : list Entry.t) : M (list Entry.t) :=
  match entries with
  | [] => ret updated
  | entry :: rest =>
      if startsWith "data:" (Entry.mediaUri entry) then
        do pushed <- try_catch
                       (do migrated <- migrateEntry entry;; ret (Some migrated))
                       (fun _ => ret None);;   (* keep original if migration fails *)
        match pushed with
        | Some migrated => migrateLoop rest (updated ++ [migrated])   (* continue *)
        | None => migrateLoop rest (updated ++ [entry])
        end
      else migrateLoop rest (updated ++ [entry])
  end.

Definition migrateTimelineMedia (entries : list Entry.t) : M (list Entry.t) :=
  migrateLoop entries [].

(** [writeTimeline] of the capture page. The [try] block yields [true] when
    it returned, [false] when a quota error was swallowed. *)
Definition writeTimeline (entries : list Entry.t) : M unit :=
  do written <- try_catch
                  (run setItem KEY (JSON_stringify entries);; ret true)
                  (fun err => if negb (isQuotaExceeded err) then throw err
                              else ret false);;
  if written : bool then ret tt
  else
    do migrated <- migrateTimelineMedia entries;;
    setItem KEY (JSON_stringify migrated).

(** The [captured] state of the page. *)
Record Captured := mkCaptured {
  cap_mediaType : MediaType;
  cap_mediaUri : string;
  cap_thumbUri : option string;
  cap_blob : option Blob }.

Definition blob_size (b : Blob) : nat := String.length (blob_data b).

(** What [onSave] did: set an error message and stop, or save and navigate
    to the timeline ([router.push("/")]). *)
Inductive SaveOutcome :=
| CaptureError (message : string)
| RouterPush (href : string).

(** [onSave]; [now], [entryId] and [noteId] are what [new Date().toISOString()]
    and the two calls of [crypto.randomUUID()] return. The em dash of the
    second message is written as a hyphen. *)
Definition onSave (captured : option Captured) (note : string)
    (now entryId noteId : string) : M SaveOutcome :=
  match captured with
  | Some c =>
      match cap_blob c with
      | Some blob =>
          if (blob_size blob =? 0)%nat
          then ret (CaptureError "Nothing to save. Retake and try again.")
          else if bool_decide (cap_mediaType c = video) && negb (truthy_opt (cap_thumbUri c))
          then ret (CaptureError "Thumbnail still generating - give it a second.")
          else
            run MediaStore.putMedia entryId blob;;
            let entry :=
              Entry.mk entryId now (cap_mediaType c) (MediaStore.toIdbUri entryId)
                (cap_thumbUri c)
                (if truthy (trim note)
                 then [TextBlock.mk noteId now (trim note)]
                 else []) in
            do list <- readTimeline;;
            run writeTimeline (entry :: list);;
            ret (RouterPush "/")
      | None => ret (CaptureError "Nothing to save. Retake and try again.")
      end
  | None => ret (CaptureError "Nothing to save. Retake and try again.")
  end.

(** [saveDisabled], the condition that disables the Save button. *)
Definition saveDisabled (captured : option Captured) : bool :=
  match captured with
  | Some c =>
      match cap_blob c with
      | Some blob =>
          (blob_size blob =? 0)%nat
          || (bool_decide (cap_mediaType c = video) && negb (truthy_opt (cap_thumbUri c)))
      | None => true
      end
  | None => true
  end.

(** The candidates of [pickBestMimeType], most specific first. *)
Definition mimeCandidates : list string :=
  ["video/webm;codecs=vp9,opus"; "video/webm;codecs=vp8,opus"; "video/webm;codecs=vp9";
   "video/webm;codecs=vp8"; "video/webm"].

(** [typeof MediaRecorder !== "undefined" && MediaRecorder.isTypeSupported(c)];
    the argument is [None] when [MediaRecorder] is undefined. *)
Definition typeSupported (isTypeSupported : option (string -> bool)) (c : string) : bool :=
  match isTypeSupported with
  | Some supported => supported c
  | None => false
  end.

(** The [for] loop of [pickBestMimeType] over the candidates still to try. *)
Fixpoint pickFrom (isTypeSupported : option (string -> bool)) (candidates : list string)
    : string :=
  match candidates with
  | [] => ""
  | c :: rest =>
      if typeSupported isTypeSupported c then c else pickFrom isTypeSupported rest
  end.

Definition pickBestMimeType (isTypeSupported : option (string -> bool)) : string :=
  pickFrom isTypeSupported mimeCandidates.

End WithPlatform.
End Capture.

(** ** src/app/entry/[id]/EntryClient.tsx *)

Module EntryClient.
Section WithPlatform.
Context `{Platform}.

Definition writeTimeline (list : list Entry.t) : M unit :=
  run setItem KEY (JSON_stringify list);;
  dispatchEvent EVT.

(** [list.findIndex((e) => e.id === id)]; [None] stands for -1. *)
Definition findIndex (id : string) (list : list Entry.t) : option nat :=
  fst <$> list_find (fun e => Entry.id e = id) list.

(** The [textBlocks] of [nextEntry] in [onSaveNotes]. *)
Definition nextTextBlocks (current : list TextBlock.t) (content now uuid : string)
    : list TextBlock.t :=
  if truthy content then
    match current with
    | first :: _ =>       (* list[idx].textBlocks?.length is truthy *)
        [TextBlock.mk (TextBlock.id first) (TextBlock.createdAt first) content]
    | [] => [TextBlock.mk uuid now content]
    end
  else [].

(** [onSaveNotes] on the component state ([entry], [draft]); it returns the
    [entry] state afterwards. [now] and [uuid] are what
    [new Date().toISOString()] and [crypto.randomUUID()] return. *)
Definition onSaveNotes (entry : option Entry.t) (draft now uuid : string)
    : M (option Entry.t) :=
  match entry with
  | None => ret None
  | Some entry =>
      do list <- readTimeline;;
      match findIndex (Entry.id entry) list with
      | None => ret (Some entry)
      | Some idx =>
          match list !! idx with
          | None => ret (Some entry)
          | Some cur =>
              let content := trim draft in
              let nextEntry :=
                Entry.mk (Entry.id cur) (Entry.createdAt cur) (Entry.mediaType cur)
                  (Entry.mediaUri cur) (Entry.thumbUri cur)
                  (nextTextBlocks (Entry.textBlocks cur) content now uuid) in
              let next := <[idx := nextEntry]> list in
              run writeTimeline next;;
              ret (Some nextEntry)
          end
      end
  end.

(** [tryDecode]; [decodeURIComponent] throws a URIError on a malformed
    escape sequence. *)
Definition tryDecode (decodeURIComponent : string -> Result string) (s : string)
    : string :=
  match decodeURIComponent s with
  | Ok decoded => decoded
  | Throw _ => s
  end.

(** [list.find((e) => e.id === id)] *)
Definition find (id : string) (list : list Entry.t) : option Entry.t :=
  snd <$> list_find (fun e => Entry.id e = id) list.

Record Debug := mkDebug {
  requestedId : string;
  decodedId : string;
  count : nat;
  sampleIds : list string }.

(** The state the load effect sets. *)
Record State := mkState {
  entry : option Entry.t;
  draft : string;
  debug : option Debug }.

(** The effect on [id], run on the state [s]. *)
Definition load (decodeURIComponent : string -> Result string) (id : string)
    (s : State) : M State :=
  do list <- readTimeline;;
  let decoded := tryDecode decodeURIComponent id in
  let found :=
    match find id list with
    | Some e => Some e
    | None => find decoded list        (* ... || list.find(..) || null *)
    end in
  match found with
  | None =>
      ret (mkState None (draft s)
             (Some (mkDebug id decoded (length list) (Entry.id <$> take 8 list))))
  | Some e =>
      let first :=
        match Entry.textBlocks e with
        | block :: _ => TextBlock.content block
        | [] => ""
        end in
      ret (mkState (Some e) first None)
  end.

End WithPlatform.
End EntryClient.

(** ** The video thumbnail pipeline

    [makeVideoThumbFromUrl] (VideoThumb.tsx) and [makeVideoThumbnailFromUrl]
    (capture page) are one program up to two constants: the timeout of
    [waitFor] (1500 ms and 500 ms) and the 50 ms paint delay that only the
    first has.  The program is a set of callbacks on a video element, so it
    is modelled as a machine driven by the element: time is counted in
    milliseconds from [video.load()], and a [VideoElement] says which events
    the element dispatches in each millisecond and what its properties read
    at that time.  Quantifying over every [VideoElement] covers every
    behaviour of a real element. *)

Inductive VideoEvent := error | loadedmetadata | seeked | loadeddata.

#[global] Instance VideoEvent_eq_dec : EqDecision VideoEvent.
Proof. solve_decision. Defined.

(** [video.duration]: NaN, Infinity, or a number of seconds (a rational, so
    that [duration / 10] is exact). *)
Inductive Duration := NaN | Infinity | Seconds (q : Q).

Record VideoElement := mkVideo {
  fires : nat -> list VideoEvent;
  duration : nat -> Duration;
  videoWidth : nat -> nat;
  videoHeight : nat -> nat;
  (** whether [canvas.getContext("2d")] is non-null *)
  getContext : nat -> bool;
  (** [ctx.drawImage(video, 0, 0, w, h)] then
      [canvas.toDataURL("image/jpeg", 0.85)] on a [w] x [h] canvas *)
  toDataURL : nat -> nat -> nat -> Result string }.

Record Timeouts := mkTimeouts {
  waitMs : nat;                (* waitFor(event, waitMs) *)
  paintMs : option nat }.      (* setTimeout(r, paintMs), when present *)

(** Where the [loadedmetadata] listener is. *)
Inductive Handler :=
| Armed                                        (* registered, not yet called *)
| Waiting (event : VideoEvent) (deadline : nat) (* at await waitFor(event, ..) *)
| Painting (deadline : nat)                    (* at await new Promise(setTimeout) *)
| Returned.

Record Pipeline := mkPipeline {
  settled : option (option string);   (* [None]: pending; [Some thumb]: resolve(thumb) ran *)
  errorArmed : bool;                  (* the once-listener for "error" *)
  handler : Handler;
  canvas : option (nat * nat);        (* width and height of the canvas created *)
  currentTime : option Q }.           (* the seek requested *)

Definition initial : Pipeline := mkPipeline None true Armed None None.

(** [finish(thumb)]: the [done]/[finished] flag is set exactly when the
    promise is settled. *)
Definition finish (thumb : option string) (p : Pipeline) : Pipeline :=
  match settled p with
  | Some _ => p
  | None => mkPipeline (Some thumb) (errorArmed p) (handler p) (canvas p) (currentTime p)
  end.

Definition withHandler (h : Handler) (p : Pipeline) : Pipeline :=
  mkPipeline (settled p) (errorArmed p) h (canvas p) (currentTime p).

Definition withCanvas (w h : nat) (p : Pipeline) : Pipeline :=
  mkPipeline (settled p) (errorArmed p) (handler p) (Some (w, h)) (currentTime p).

(** [a || b] on numbers. *)
Definition orElse (a b : nat) : nat := if (a =? 0)%nat then b else a.

Definition Qpositive (q : Q) : bool := (0 <? Qnum q)%Z.

(** [isFinite(duration) && duration > 0 ? Math.min(0.2, duration / 10) : 0] *)
Definition seekTarget (d : Duration) : Q :=
  match d with
  | Seconds q =>
      if Qpositive q
      then (if Qle_bool (2 # 10) (q / 10) then 2 # 10 else q / 10)%Q
      else 0%Q
  | NaN | Infinity => 0%Q
  end.

(** The handler from reading the dimensions to its end, at time [t]. *)
Definition capture (v : VideoElement) (t : nat) (p : Pipeline) : Pipeline :=
  let w := orElse (videoWidth v t) 1280 in
  let h := orElse (videoHeight v t) 720 in
  if (w =? 0)%nat || (h =? 0)%nat then withHandler Returned (finish None p)
  else
    let p := withCanvas w h p in
    if negb (getContext v t) then withHandler Returned (finish None p)
    else
      match toDataURL v w h t with
      | Ok thumb => withHandler Returned (finish (Some thumb) p)
      | Throw _ => withHandler Returned (finish None p)     (* catch *)
      end.

(** The handler resumes after [await waitFor(..)]. *)
Definition afterWait (c : Timeouts) (v : VideoElement) (t : nat) (p : Pipeline)
    : Pipeline :=
  match paintMs c with
  | Some d => withHandler (Painting (t + d)) p
  | None => capture v t p
  end.

(** The element dispatches [ev] at time [t]. *)
Definition onEvent (c : Timeouts) (v : VideoElement) (t : nat) (p : Pipeline)
    (ev : VideoEvent) : Pipeline :=
  match ev with
  | error =>
      if errorArmed p
      then finish None (mkPipeline (settled p) false (handler p) (canvas p) (currentTime p))
      else p
  | loadedmetadata =>
      match handler p with
      | Armed =>
          let target := seekTarget (duration v t) in
          if Qpositive target
          then mkPipeline (settled p) (errorArmed p) (Waiting seeked (t + waitMs c))
                 (canvas p) (Some target)
          else withHandler (Waiting loadeddata (t + waitMs c)) p
      | _ => p
      end
  | seeked | loadeddata =>
      match handler p with
      | Waiting awaited _ =>
          if bool_decide (awaited = ev) then afterWait c v t p else p
      | _ => p
      end
  end.

(** The timers due at time [t]. *)
Definition onTimers (c : Timeouts) (v : VideoElement) (t : nat) (p : Pipeline)
    : Pipeline :=
  match handler p with
  | Waiting _ deadline => if (deadline <=? t)%nat then afterWait c v t p else p
  | Painting deadline => if (deadline <=? t)%nat then capture v t p else p
  | Armed | Returned => p
  end.

(** One millisecond: the events of the element in order, then the timers
    (twice, for a timer set by a timer and due at once). *)
Definition tick (c : Timeouts) (v : VideoElement) (t : nat) (p : Pipeline) : Pipeline :=
  onTimers c v t (onTimers c v t (fold_left (onEvent c v t) (fires v t) p)).

(** The pipeline after the milliseconds [0 .. n]. *)
Fixpoint runUntil (c : Timeouts) (v : VideoElement) (n : nat) : Pipeline :=
  match n with
  | O => tick c v 0 initial
  | S n' => tick c v n (runUntil c v n')
  end.

(** The promise of VideoThumb.tsx's [makeVideoThumbFromUrl], [n] ms after the
    call, on a URL whose element behaves as [v]. *)
Definition makeVideoThumbFromUrl (v : VideoElement) (n : nat) : option (option string) :=
  settled (runUntil (mkTimeouts 1500 (Some 50)) v n).

(** The same for the capture page's [makeVideoThumbnailFromUrl]. *)
Definition makeVideoThumbnailFromUrl (v : VideoElement) (n : nat) : option (option string) :=
  settled (runUntil (mkTimeouts 500 None) v n).

(** ** Object URLs and the console *)

(** [URL.createObjectURL(blob)]: a fresh, non-empty URL each time. *)
Definition createObjectURL (b : Blob) : M string :=
  fun w =>
    let u := "blob:" +:+ pretty (minted w) in
    (Ok u, mkWorld (localStorage w) (mediaDb w) (S (minted w))
             (trace w ++ [CreateObjectURL u])).

Definition revokeObjectURL (u : string) : M unit := effect (RevokeObjectURL u).

Definition consoleWarn (source : string) : M unit := effect (ConsoleWarn source).

(** ** src/app/lib/useResolvedMediaUrl.ts

    An effect of the hook runs in two pieces: the part of [run()] before
    [await getMedia(key)], and the part after it, whenever the request
    settles.  React calls the cleanup of an effect once, before the next
    effect and at unmount.  A [Run] is the closure of one effect. *)

Module Resolver.
Section WithPlatform.
Context `{Platform}.

Record Run := mkRun {
  mediaUri : option string;
  active : bool;
  objectUrl : option string;
  awaiting : option string }.     (* the key of the getMedia call in flight *)

Record Hook := mkHook {
  url : option string;            (* the state the hook returns *)
  runs : list Run;                (* the effects started, oldest first *)
  mounted : bool;
  unhandled : list Exn }.         (* rejections of run() nobody handles *)

Definition setUrl (u : option string) (h : Hook) : Hook :=
  mkHook u (runs h) (mounted h) (unhandled h).

Definition setRun (i : nat) (r : Run) (h : Hook) : Hook :=
  mkHook (url h) (<[i := r]> (runs h)) (mounted h) (unhandled h).

(** The effect body up to the first [await]. *)
Definition startEffect (uri : option string) (h : Hook) : Hook :=
  let started awaiting :=
    mkHook (url h) (runs h ++ [mkRun uri true None awaiting]) (mounted h) (unhandled h) in
  if negb (truthy_opt uri) then setUrl None (started None)
  else
    let mediaUri := default "" uri in
    if negb (MediaStore.isIdbUri mediaUri) then setUrl (Some mediaUri) (started None)
    else started (Some (slice 4 mediaUri)).

(** [run()] of effect [i] from the point where [getMedia(key)] settles. *)
Definition settle (i : nat) (h : Hook) (w : World) : Hook * World :=
  match runs h !! i with
  | Some r =>
      match awaiting r with
      | Some key =>
          let r' := mkRun (mediaUri r) (active r) (objectUrl r) None in
          match MediaStore.getMedia key w with
          | (Throw e, w') =>
              (mkHook (url h) (<[i := r']> (runs h)) (mounted h) (unhandled h ++ [e]), w')
          | (Ok blob, w') =>
              if negb (active r) then (setRun i r' h, w')
              else
                match blob with
                | None =>
                    (setUrl None (setRun i r' h), emit (ConsoleWarn "useResolvedMediaUrl") w')
                | Some b =>
                    match createObjectURL b w' with
                    | (Ok u, w'') =>
                        (setUrl (Some u)
                           (setRun i (mkRun (mediaUri r) (active r) (Some u) None) h), w'')
                    | (Throw e, w'') => (setRun i r' h, w'')
                    end
                end
          end
      | None => (h, w)
      end
  | None => (h, w)
  end.

(** The cleanup of effect [i]. *)
Definition cleanup (i : nat) (h : Hook) (w : World) : Hook * World :=
  match runs h !! i with
  | Some r =>
      let h' := setRun i (mkRun (mediaUri r) false (objectUrl r) (awaiting r)) h in
      match objectUrl r with
      | Some u => if truthy u then (h', emit (RevokeObjectURL u) w) else (h', w)
      | None => (h', w)
      end
  | None => (h, w)
  end.

(** What can happen to a mounted hook. *)
Inductive Action :=
| Render (mediaUri : option string)   (* a render commits with this argument *)
| Unmount
| Settle (i : nat).                   (* the getMedia call of effect i settles *)

(** The first render: [useState(mediaUri ?? null)], then the effect. *)
Definition mount (uri : option string) : Hook :=
  startEffect uri (mkHook uri [] true []).

Definition step (a : Action) (hw : Hook * World) : Hook * World :=
  let (h, w) := hw in
  match a with
  | Render uri =>
      if negb (mounted h) then (h, w)
      else if bool_decide (mediaUri <$> last (runs h) = Some uri) then (h, w)  (* same deps *)
      else
        let (h', w') := cleanup (length (runs h) - 1) h w in
        (startEffect uri h', w')
  | Unmount =>
      if negb (mounted h) then (h, w)
      else
        let (h', w') := cleanup (length (runs h) - 1) h w in
        (mkHook (url h') (runs h') false (unhandled h'), w')
  | Settle i => settle i h w
  end.

Definition steps (acts : list Action) (hw : Hook * World) : Hook * World :=
  fold_left (fun s a => step a s) acts hw.

End WithPlatform.
End Resolver.

(** ** src/app/components/VideoThumb.tsx *)

Module VideoThumb.
Section WithPlatform.
Context `{Platform}.

(** [{ ...e, thumbUri }] *)
Definition withThumb (thumbUri : string) (e : Entry.t) : Entry.t :=
  Entry.mk (Entry.id e) (Entry.createdAt e) (Entry.mediaType e) (Entry.mediaUri e)
    (Some thumbUri) (Entry.textBlocks e).

Definition writeBackThumb (entryId thumbUri : string) : M unit :=
  do list <- readTimeline;;
  let next :=
    map (fun e => if bool_decide (Entry.id e = entryId) then withThumb thumbUri e else e)
      list in
  run setItem KEY (JSON_stringify next);;
  dispatchEvent EVT.

Definition FALLBACK_MIME_TYPES : list string :=
  ["video/webm;codecs=vp9"; "video/webm;codecs=vp8"; "video/webm"; "video/mp4"].

(** [resolveVideoUrl]: the URL to load and whether the caller owns it. *)
Definition resolveVideoUrl (mediaUri : string) : M (option (string * bool)) :=
  if MediaStore.isIdbUri mediaUri then
    let key := slice 4 mediaUri in
    do blob <- MediaStore.getMedia key;;
    match blob with
    | None => run consoleWarn "VideoThumb";; ret None
    | Some blob =>
        do finalBlob <-
          (if negb (truthy (blob_type blob))
           then run consoleWarn "VideoThumb";;
                ret (mkBlob (default "" (head FALLBACK_MIME_TYPES)) (blob_data blob))
           else ret blob);;
        do url <- createObjectURL finalBlob;;
        ret (Some (url, true))
    end
  else if startsWith "data:" mediaUri then ret (Some (mediaUri, false))
  else if startsWith "blob:" mediaUri then run consoleWarn "VideoThumb";; ret None
  else run consoleWarn "VideoThumb";; ret None.

(** Where [run()] of one effect is. *)
Inductive Stage :=
| Resolving                 (* at await resolveVideoUrl(entry.mediaUri) *)
| Thumbing (url : string)   (* at await makeVideoThumbFromUrl(resolved.url) *)
| Finished.

(** The closure of one run of the second effect. *)
Record Run := mkRun {
  entry : Entry.t;
  cancelled : bool;
  stage : Stage }.

Record Component := mkComponent {
  props : Entry.t;                (* the entry of the last render *)
  thumb : option string;          (* useState *)
  busy : bool;                    (* useState *)
  objectUrlRef : option string;   (* useRef, shared by all effects *)
  runs : list Run;                (* the effects started, oldest first *)
  mounted : bool;
  unhandled : list Exn }.         (* rejections of run() nobody handles *)

Definition setThumb (t : option string) (c : Component) : Component :=
  mkComponent (props c) t (busy c) (objectUrlRef c) (runs c) (mounted c) (unhandled c).

Definition setBusy (b : bool) (c : Component) : Component :=
  mkComponent (props c) (thumb c) b (objectUrlRef c) (runs c) (mounted c) (unhandled c).

Definition setRef (u : option string) (c : Component) : Component :=
  mkComponent (props c) (thumb c) (busy c) u (runs c) (mounted c) (unhandled c).

Definition setRun (i : nat) (r : Run) (c : Component) : Component :=
  mkComponent (props c) (thumb c) (busy c) (objectUrlRef c) (<[i := r]> (runs c)) (mounted c)
    (unhandled c).

Definition reject (e : Exn) (c : Component) : Component :=
  mkComponent (props c) (thumb c) (busy c) (objectUrlRef c) (runs c) (mounted c) (unhandled c ++ [e]).

(** [finally { if (!cancelled) setBusy(false) }] and the end of [run()]. *)
Definition finally (i : nat) (r : Run) (c : Component) : Component :=
  let c := setRun i (mkRun (entry r) (cancelled r) Finished) c in
  if negb (cancelled r) then setBusy false c else c.

(** The second effect up to its first [await]; [seen] is the [thumb] state
    of the render the effect belongs to. *)
Definition startEffect (e : Entry.t) (seen : option string) (c : Component) : Component :=
  let started stage :=
    mkComponent (props c) (thumb c) (busy c) (objectUrlRef c) (runs c ++ [mkRun e false stage])
      (mounted c) (unhandled c) in
  if truthy_opt seen then started Finished
  else if negb (bool_decide (Entry.mediaType e = video)) then started Finished
  else setBusy true (started Resolving).

(** The cleanup of effect [i]. *)
Definition cleanup (i : nat) (c : Component) (w : World) : Component * World :=
  match runs c !! i with
  | Some r =>
      let c' := setRun i (mkRun (entry r) true (stage r)) c in
      match objectUrlRef c with
      | Some u =>
          if truthy u then (setRef None c', emit (RevokeObjectURL u) w) else (c', w)
      | None => (c', w)
      end
  | None => (c, w)
  end.

(** [run()] of effect [i] from the point where [resolveVideoUrl] settles to
    the call of [makeVideoThumbFromUrl]. *)
Definition resolved (i : nat) (c : Component) (w : World) : Component * World :=
  match runs c !! i with
  | Some r =>
      match stage r with
      | Resolving =>
          match resolveVideoUrl (Entry.mediaUri (entry r)) w with
          | (Throw e, w') => (reject e (finally i r c), w')
          | (Ok None, w') => (finally i r c, w')
          | (Ok (Some (url, owned)), w') =>
              let c := if owned : bool then setRef (Some url) c else c in
              (setRun i (mkRun (entry r) (cancelled r) (Thumbing url)) c, w')
          end
      | _ => (c, w)
      end
  | None => (c, w)
  end.

(** [run()] of effect [i] from the point where [makeVideoThumbFromUrl]
    resolves with [t]. *)
Definition thumbed (i : nat) (t : option string) (c : Component) (w : World)
    : Component * World :=
  match runs c !! i with
  | Some r =>
      match stage r with
      | Thumbing _ =>
          if cancelled r then (finally i r c, w)
          else if truthy_opt t then
            let c := setThumb t c in
            match writeBackThumb (Entry.id (entry r)) (default "" t) w with
            | (Ok _, w') => (finally i r c, w')
            | (Throw e, w') => (reject e (finally i r c), w')
            end
          else (finally i r c, emit (ConsoleWarn "VideoThumb") w)
      | _ => (c, w)
      end
  | None => (c, w)
  end.

(** What can happen to a mounted component. *)
Inductive Action :=
| Render (entry : Entry.t)             (* a render commits with this prop *)
| Unmount
| Resolved (i : nat)                   (* resolveVideoUrl of effect i settles *)
| Thumbed (i : nat) (t : option string). (* makeVideoThumbFromUrl of effect i resolves *)

(** The first render: [useState(entry.thumbUri ?? null)], then both effects. *)
Definition mount (e : Entry.t) : Component :=
  let c := mkComponent e (Entry.thumbUri e) false None [] true [] in
  startEffect e (Entry.thumbUri e) (setThumb (Entry.thumbUri e) c).

Definition step (a : Action) (cw : Component * World) : Component * World :=
  let (c, w) := cw in
  match a with
  | Render e =>
      if negb (mounted c) then (c, w)
      else
        let old := props c in
        let seen := thumb c in
        let rerun :=
          negb (bool_decide (Entry.id old = Entry.id e
                             /\ Entry.mediaUri old = Entry.mediaUri e)) in
        let rethumb :=
          negb (bool_decide (Entry.id old = Entry.id e
                             /\ Entry.thumbUri old = Entry.thumbUri e)) in
        let (c1, w1) :=
          if rerun then cleanup (length (runs c) - 1) c w else (c, w) in
        let c2 := if rethumb then setThumb (Entry.thumbUri e) c1 else c1 in
        let c3 := if rerun then startEffect e seen c2 else c2 in
        (mkComponent e (thumb c3) (busy c3) (objectUrlRef c3) (runs c3) (mounted c3)
           (unhandled c3), w1)
  | Unmount =>
      if negb (mounted c) then (c, w)
      else
        let (c', w') := cleanup (length (runs c) - 1) c w in
        (mkComponent (props c') (thumb c') (busy c') (objectUrlRef c') (runs c') false
           (unhandled c'), w')
  | Resolved i => resolved i c w
  | Thumbed i t => thumbed i t c w
  end.

Definition steps (acts : list Action) (cw : Component * World) : Component * World :=
  fold_left (fun s a => step a s) acts cw.

End WithPlatform.
End VideoThumb.

(** ** The recorded clip and its preview URL

    [startRecording] with its [ondataavailable] and [onstop] handlers,
    [onRetake] and the unmount cleanup of [CapturePage] (src/app/page.tsx).
    [onstop] is cut at [await makeVideoThumbnailFromUrl(playbackUrl)]. *)

Module Recording.

Record Page := mkPage {
  previewUrlRef : option string;              (* useRef *)
  chunksRef : list Blob;                      (* useRef *)
  captured : option Capture.Captured;         (* useState *)
  note : string;                              (* useState *)
  captureError : option string;               (* useState *)
  isRecording : bool;                         (* useState *)
  (** the [onstop] handlers at their [await], oldest first, each with the
      [playbackUrl] and [blob] it closes over; [None] once it has resumed *)
  thumbing : list (option (string * Blob)) }.

Definition initial : Page := mkPage None [] None "" None false [].

Definition setRef (u : option string) (p : Page) : Page :=
  mkPage u (chunksRef p) (captured p) (note p) (captureError p) (isRecording p) (thumbing p).

Definition setChunks (chunks : list Blob) (p : Page) : Page :=
  mkPage (previewUrlRef p) chunks (captured p) (note p) (captureError p) (isRecording p)
    (thumbing p).

Definition setCaptured (c : option Capture.Captured) (p : Page) : Page :=
  mkPage (previewUrlRef p) (chunksRef p) c (note p) (captureError p) (isRecording p)
    (thumbing p).

Definition setNote (n : string) (p : Page) : Page :=
  mkPage (previewUrlRef p) (chunksRef p) (captured p) n (captureError p) (isRecording p)
    (thumbing p).

Definition setCaptureError (e : option string) (p : Page) : Page :=
  mkPage (previewUrlRef p) (chunksRef p) (captured p) (note p) e (isRecording p) (thumbing p).

Definition setIsRecording (b : bool) (p : Page) : Page :=
  mkPage (previewUrlRef p) (chunksRef p) (captured p) (note p) (captureError p) b (thumbing p).

Definition setThumbing (l : list (option (string * Blob))) (p : Page) : Page :=
  mkPage (previewUrlRef p) (chunksRef p) (captured p) (note p) (captureError p)
    (isRecording p) l.

(** [startRecording]; [stream] says whether [streamRef.current] is set,
    [constructed] whether [new MediaRecorder(..)] returns instead of
    throwing. *)
Definition startRecording (stream constructed : bool) (p : Page) : Page :=
  if negb stream then p
  else
    let p := setChunks [] (setCaptureError None p) in
    if negb constructed then p else setIsRecording true p.

(** [recorder.ondataavailable]: [e.data && e.data.size > 0] *)
Definition ondataavailable (data : option Blob) (p : Page) : Page :=
  match data with
  | Some chunk =>
      if (0 <? Capture.blob_size chunk)%nat then setChunks (chunksRef p ++ [chunk]) p else p
  | None => p
  end.

(** [new Blob(chunks, { type })] *)
Definition newBlob (chunks : list Blob) (type : string) : Blob :=
  mkBlob type (String.concat "" (blob_data <$> chunks)).

(** [recorder.onstop] up to its [await]; [mimeType] is [recorder.mimeType]. *)
Definition onstop (mimeType : string) (p : Page) : M Page :=
  let type := if truthy mimeType then mimeType else "video/webm" in
  let blob := newBlob (chunksRef p) type in
  let p := setChunks [] p in
  if (Capture.blob_size blob =? 0)%nat then
    ret (setIsRecording false      (* finally *)
           (setCaptureError
              (Some "Recording was empty (0 bytes). Try holding a bit longer.") p))
  else
    do playbackUrl <- createObjectURL blob;;
    run (match previewUrlRef p with
         | Some old => if truthy old then revokeObjectURL old else ret tt
         | None => ret tt
         end);;
    let p := setRef (Some playbackUrl) p in
    let p := setCaptured (Some (Capture.mkCaptured video playbackUrl None (Some blob))) p in
    ret (setThumbing (thumbing p ++ [Some (playbackUrl, blob)]) p).

(** The rest of the [onstop] handler [i], once its thumbnail promise has
    resolved with [thumb]. *)
Definition thumbnailed (i : nat) (thumb : option string) (p : Page) : Page :=
  match thumbing p !! i with
  | Some (Some (playbackUrl, blob)) =>
      setIsRecording false         (* finally *)
        (setCaptured (Some (Capture.mkCaptured video playbackUrl thumb (Some blob)))
           (setThumbing (<[i := None]> (thumbing p)) p))
  | _ => p
  end.

(** [if (previewUrlRef.current) { URL.revokeObjectURL(..); .. = null }], in
    [onRetake] and in the unmount cleanup. *)
Definition release (p : Page) : M Page :=
  match previewUrlRef p with
  | Some u => if truthy u then run revokeObjectURL u;; ret (setRef None p) else ret p
  | None => ret p
  end.

Definition onRetake (p : Page) : M Page :=
  do p <- release p;;
  ret (setCaptureError None (setNote "" (setCaptured None p))).

(** What can happen to the page. *)
Inductive Action :=
| StartRecording (stream constructed : bool)
| DataAvailable (data : option Blob)
| Stop (mimeType : string)                     (* the recorder's stop event *)
| Thumbnailed (i : nat) (thumb : option string)
| Retake
| Unmount.

(** A handler never throws in this model: a [Throw] leaves the page as it
    was. *)
Definition settle (p : Page) (out : Result Page * World) : Page * World :=
  match out with
  | (Ok p', w') => (p', w')
  | (Throw _, w') => (p, w')
  end.

Definition step (a : Action) (pw : Page * World) : Page * World :=
  let (p, w) := pw in
  match a with
  | StartRecording stream constructed => (startRecording stream constructed p, w)
  | DataAvailable data => (ondataavailable data p, w)
  | Stop mimeType => settle p (onstop mimeType p w)
  | Thumbnailed i thumb => (thumbnailed i thumb p, w)
  | Retake => settle p (onRetake p w)
  | Unmount => settle p (release p w)
  end.

Definition steps (acts : list Action) (pw : Page * World) : Page * World :=
  fold_left (fun s a => step a s) acts pw.

End Recording.

(** ** Vocabulary of the statements *)

Definition isIdbPut (e : Effect) : bool :=
  match e with IdbPut _ _ => true | _ => false end.

(** [quiet w w']: from [w] to [w'] the timeline slot was not touched and the
    only effects were blob-store puts. *)
Definition quiet (w w' : World) : Prop :=
  localStorage w' = localStorage w
  /\ exists puts, trace w' = trace w ++ puts /\ Forall (fun e => isIdbPut e = true) puts.

(** An entry whose media is still inline in the index. *)
Definition inline (e : Entry.t) : bool := startsWith "data:" (Entry.mediaUri e).

(** The list [writeBackThumb] builds from the one it read. *)
Definition withThumbAt (entryId thumbUri : string) (timeline : list Entry.t)
    : list Entry.t :=
  map (fun e => if bool_decide (Entry.id e = entryId)
                then VideoThumb.withThumb thumbUri e else e) timeline.

Definition isRevoke (e : Effect) : bool :=
  match e with RevokeObjectURL _ => true | _ => false end.

(** How often the URL [u] was minted, and revoked, in a list of effects. *)
Definition created (u : string) (l : list Effect) : nat :=
  count_occ Effect_eq_dec l (CreateObjectURL u).

Definition revoked (u : string) (l : list Effect) : nat :=
  count_occ Effect_eq_dec l (RevokeObjectURL u).

(** The handle discipline of the resolver hook [h], for the effects [l] made
    since it was mounted and [m] object URLs minted so far: only the last
    effect of a mounted hook is active; a URL held by an effect was minted
    once, by that effect alone, and revoked exactly when the effect was
    cleaned up; every URL minted or revoked is held by some effect. *)
Record disciplined (h : Resolver.Hook) (m : nat) (l : list Effect) : Prop := {
  d_active : forall i r, Resolver.runs h !! i = Some r -> Resolver.active r = true ->
    Resolver.mounted h = true /\ S i = length (Resolver.runs h);
  d_last : Resolver.mounted h = true ->
    exists r, Resolver.runs h !! (length (Resolver.runs h) - 1) = Some r
              /\ Resolver.active r = true;
  d_owned : forall i r u, Resolver.runs h !! i = Some r -> Resolver.objectUrl r = Some u ->
    Resolver.awaiting r = None /\ truthy u = true /\ created u l = 1
    /\ revoked u l = (if Resolver.active r then 0 else 1);
  d_owner : forall u, 0 < created u l + revoked u l ->
    exists i r, Resolver.runs h !! i = Some r /\ Resolver.objectUrl r = Some u;
  d_unique : forall i j r r' u,
    Resolver.runs h !! i = Some r -> Resolver.runs h !! j = Some r' ->
    Resolver.objectUrl r = Some u -> Resolver.objectUrl r' = Some u -> i = j;
  d_fresh : forall u, 0 < created u l -> exists k, u = "blob:" +:+ pretty k /\ k < m }.

(** A [VideoThumb] that is unmounted with every effect cancelled. *)
Definition parked (c : VideoThumb.Component) : Prop :=
  VideoThumb.mounted c = false
  /\ Forall (fun r => VideoThumb.cancelled r = true) (VideoThumb.runs c).

(** The promise [promise] of a thumbnail, run on the element [v], stays
    pending for ever. *)
Definition hangs (promise : VideoElement -> nat -> option (option string))
    (v : VideoElement) : Prop :=
  forall n, promise v n = None.

(** The paint delay of a pipeline, 0 when it has none. *)
Definition paintDelay (c : Timeouts) : nat := default 0 (paintMs c).

(** [alive c lo cap armedOk p]: the promise of [p] is settled, or the error
    listener is still armed and the handler is before its end with a
    deadline between [lo] and [cap] (plus the paint delay once it is
    painting); a handler not yet called is allowed when [armedOk]. *)
Definition alive (c : Timeouts) (lo cap : nat) (armedOk : bool) (p : Pipeline) : Prop :=
  settled p <> None
  \/ (errorArmed p = true
      /\ match handler p with
         | Armed => armedOk = true
         | Waiting _ d => lo <= d /\ d <= cap
         | Painting d => lo <= d /\ d <= cap + paintDelay c
         | Returned => False
         end).

(** [migratedFrom e e']: [e'] is [e], or [e] was inline and [e'] is [e]
    with its media replaced by the reference to its own id; the thumbnail
    is the old one unless [e] is a photo without a thumbnail. *)
Definition migratedFrom (e e' : Entry.t) : Prop :=
  e' = e
  \/ (inline e = true
      /\ Entry.id e' = Entry.id e
      /\ Entry.createdAt e' = Entry.createdAt e
      /\ Entry.mediaType e' = Entry.mediaType e
      /\ Entry.textBlocks e' = Entry.textBlocks e
      /\ Entry.mediaUri e' = MediaStore.toIdbUri (Entry.id e)
      /\ (truthy_opt (Entry.thumbUri e) = true \/ Entry.mediaType e = video ->
          Entry.thumbUri e' = Entry.thumbUri e)).

(** Every key of the blob store of [w] is still a key in [w']. *)
Definition keepsBlobs (w w' : World) : Prop :=
  forall k, is_Some (mediaDb w !! k) -> is_Some (mediaDb w' !! k).

(** The entry [onSave] builds for the capture [c]. *)
Definition capturedEntry (c : Capture.Captured) (note now entryId noteId : string)
    : Entry.t :=
  Entry.mk entryId now (Capture.cap_mediaType c) (MediaStore.toIdbUri entryId)
    (Capture.cap_thumbUri c)
    (if truthy (trim note) then [TextBlock.mk noteId now (trim note)] else []).

(** A computation that never changes [localStorage], and one that leaves
    it as it was whenever it throws. *)
Definition keepsSlot {A} (m : M A) : Prop :=
  forall w, localStorage (snd (m w)) = localStorage w.

Definition failsClean {A} (m : M A) : Prop :=
  forall w e, fst (m w) = Throw e -> localStorage (snd (m w)) = localStorage w.

(** [s] is what the canvas of [v] encodes at time [t]: the 2d context is
    there, and drawing the video on a canvas of the size [capture] uses and
    calling [toDataURL] gives [s]. *)
Definition encodedFrame (v : VideoElement) (t : nat) (s : string) : Prop :=
  getContext v t = true
  /\ toDataURL v (orElse (videoWidth v t) 1280) (orElse (videoHeight v t) 720) t = Ok s.

(** [traced v n p]: every thumbnail the promise of [p] holds was encoded at
    some time up to [n], after a [loadedmetadata] event; and the handler of
    [p] has only been called on such an event. *)
Definition traced (v : VideoElement) (n : nat) (p : Pipeline) : Prop :=
  (forall s, settled p = Some (Some s) ->
     exists t t0, t0 <= t /\ t <= n /\ In loadedmetadata (fires v t0) /\ encodedFrame v t s)
  /\ (handler p <> Armed -> exists t0, t0 <= n /\ In loadedmetadata (fires v t0)).

(** Effects that touch no store and release nothing: console warnings and
    freshly minted object URLs. *)
Definition isWarnOrMint (e : Effect) : bool :=
  match e with ConsoleWarn _ | CreateObjectURL _ => true | _ => false end.

(** [calm w w']: from [w] to [w'] neither store changed, and the only
    effects were warnings and minted URLs. *)
Definition calm (w w' : World) : Prop :=
  localStorage w' = localStorage w
  /\ mediaDb w' = mediaDb w
  /\ exists effects,
       trace w' = trace w ++ effects /\ Forall (fun e => isWarnOrMint e = true) effects.

(** [orderly c]: only the last effect of a mounted [VideoThumb] can be
    uncancelled. *)
Definition orderly (c : VideoThumb.Component) : Prop :=
  forall i r, VideoThumb.runs c !! i = Some r -> VideoThumb.cancelled r = false ->
    VideoThumb.mounted c = true /\ S i = length (VideoThumb.runs c).

(** [idle e c]: the component shows the thumbnail of [e] and has nothing in
    flight: every effect is at its end, no URL is held, [busy] is off. *)
Definition idle (e : Entry.t) (c : VideoThumb.Component) : Prop :=
  VideoThumb.props c = e
  /\ VideoThumb.thumb c = Entry.thumbUri e
  /\ VideoThumb.busy c = false
  /\ VideoThumb.objectUrlRef c = None
  /\ Forall (fun r => VideoThumb.stage r = VideoThumb.Finished) (VideoThumb.runs c).

(** A render that commits with the entry [e] again. *)
Definition rerenders (e : Entry.t) (a : VideoThumb.Action) : Prop :=
  match a with VideoThumb.Render e' => e' = e | _ => True end.

(** The platform reads [timeline] back from its JSON text, which is not
    the empty string. *)
Definition readsBack `{Platform} (timeline : list Entry.t) : Prop :=
  truthy (JSON_stringify timeline) = true
  /\ JSON_parse (JSON_stringify timeline) = Ok (JsArray timeline).

(** The handle discipline of the capture page [p], for the effects [l] made
    since it was mounted and [m] object URLs minted so far: the URL in
    [previewUrlRef] was minted once and never revoked; every other URL was
    revoked as often as it was minted, at most once. *)
Record tidy (p : Recording.Page) (m : nat) (l : list Effect) : Prop := {
  t_held : forall u, Recording.previewUrlRef p = Some u ->
    truthy u = true /\ created u l = 1 /\ revoked u l = 0;
  t_released : forall u, Recording.previewUrlRef p <> Some u -> revoked u l = created u l;
  t_once : forall u, created u l <= 1;
  t_fresh : forall u, 0 < created u l -> exists k, u = "blob:" +:+ pretty k /\ k < m }.

(** ** A concrete platform, to run the code on examples *)

Module Demo.

Definition dq : string := String (ascii_of_nat 34) EmptyString.

Definition quoted (s : string) : string := dq +:+ s +:+ dq.

Definition field (name value : string) : string := quoted name +:+ ":" +:+ value.

Fixpoint commas (items : list string) : string :=
  match items with
  | [] => ""
  | [x] => x
  | x :: rest => x +:+ "," +:+ commas rest
  end.

Definition blockJson (b : TextBlock.t) : string :=
  "{" +:+ commas [field "id" (quoted (TextBlock.id b));
                  field "createdAt" (quoted (TextBlock.createdAt b));
                  field "content" (quoted (TextBlock.content b))] +:+ "}".

Definition entryJson (e : Entry.t) : string :=
  "{" +:+ commas
    ([field "id" (quoted (Entry.id e));
      field "createdAt" (quoted (Entry.createdAt e));
      field "mediaType" (quoted (match Entry.mediaType e with
                                 | photo => "photo" | video => "video" end));
      field "mediaUri" (quoted (Entry.mediaUri e))]
     ++ match Entry.thumbUri e with
        | Some t => [field "thumbUri" (quoted t)]
        | None => []
        end
     ++ [field "textBlocks" ("[" +:+ commas (map blockJson (Entry.textBlocks e)) +:+ "]")])
  +:+ "}".

(** JSON text of a timeline whose strings need no escaping. *)
Definition stringify (entries : list Entry.t) : string :=
  "[" +:+ commas (map entryJson entries) +:+ "]".

(** A parser that knows the documents [docs] and a few scalars, and throws on
    everything else. *)
Definition parse (docs : list (list Entry.t)) (text : string) : Result JsValue :=
  match List.find (fun d => (stringify d =? text)%string) docs with
  | Some d => Ok (JsArray d)
  | None =>
      if (text =? "null")%string then Ok JsNull
      else if (text =? "{}")%string then Ok JsObject
      else if (text =? "42")%string then Ok (JsNumber 42)
      else Throw (OtherError "SyntaxError")
  end.

(** A platform whose storage slot holds at most [quota] code units, whose
    IndexedDB never fails, and whose media decoding always succeeds. *)
Definition platform (quota : nat) (docs : list (list Entry.t)) : Platform := {|
  JSON_stringify := stringify;
  JSON_parse := parse docs;
  storageFault := fun _ _ value =>
    if (quota <? String.length value)%nat
    then Some (DOMException "QuotaExceededError") else None;
  idbFault := fun _ _ => None;
  fetchBlob := fun dataUrl => Ok (mkBlob "image/jpeg" dataUrl);
  photoThumb := fun _ => Some "data:image/jpeg;base64,t" |}.

Definition photo1 : Entry.t :=
  Entry.mk "e1" "2024-01-01T10:00:00.000Z" photo
    "data:image/jpeg;base64,AAAAAAAAAAAAAAAAAAAAAAAAAAAAAAAAAAAAAAAAAAAAAAAAAAAAAAAA" None [].

Definition photo2 : Entry.t :=
  Entry.mk "e2" "2024-01-02T10:00:00.000Z" photo
    "data:image/jpeg;base64,BBBBBBBBBBBBBBBBBBBBBBBBBBBBBBBBBBBBBBBBBBBBBBBBBBBBBBBB" None [].

Definition note1 : TextBlock.t := TextBlock.mk "n1" "2024-01-03T10:00:00.000Z" "first".

Definition note2 : TextBlock.t := TextBlock.mk "n2" "2024-01-03T11:00:00.000Z" "second".

Definition video3 : Entry.t :=
  Entry.mk "e3" "2024-01-03T10:00:00.000Z" video "idb:e3" None [note1; note2].

Definition photo4 : Entry.t :=
  Entry.mk "e4" "2024-01-04T10:00:00.000Z" photo "idb:e4"
    (Some "data:image/jpeg;base64,t4") [].

Definition emptyWorld : World := mkWorld ∅ ∅ 0 [].

(** A world whose timeline slot holds [text]. *)
Definition worldWith (text : string) : World :=
  mkWorld {[ KEY := text ]} ∅ 0 [].

Definition clip : Blob := mkBlob "video/webm" "BYTES".

Definition video5 : Entry.t :=
  Entry.mk "e5" "2024-01-05T10:00:00.000Z" video "idb:e5" None [].

(** A world whose blob store holds the two demo videos. *)
Definition worldWithClips : World :=
  mkWorld ∅ (<["e3" := clip]> (<["e5" := clip]> ∅)) 0 [].

(** A video element that never dispatches any event. *)
Definition silentVideo : VideoElement :=
  mkVideo (fun _ => []) (fun _ => NaN) (fun _ => 0) (fun _ => 0) (fun _ => true)
    (fun _ _ _ => Ok "data:image/jpeg;base64,frame").

(** A video element with metadata at once, duration 0 and dimensions 0,
    whose canvas works. *)
Definition zeroVideo : VideoElement :=
  mkVideo (fun t => if (t =? 0)%nat then [loadedmetadata] else [])
    (fun _ => Seconds 0) (fun _ => 0) (fun _ => 0) (fun _ => true)
    (fun _ _ _ => Ok "data:image/jpeg;base64,frame").

(** A 640 x 360 video of 3 s with metadata after 20 ms and no event after
    that. *)
Definition stalledVideo : VideoElement :=
  mkVideo (fun t => if (t =? 20)%nat then [loadedmetadata] else [])
    (fun _ => Seconds 3) (fun _ => 640) (fun _ => 360) (fun _ => true)
    (fun _ _ _ => Ok "data:image/jpeg;base64,frame").

(** A 640 x 360 video of 3 s: metadata after 20 ms, the seek done 30 ms
    later. *)
Definition shortVideo : VideoElement :=
  mkVideo (fun t => if (t =? 20)%nat then [loadedmetadata]
                    else if (t =? 50)%nat then [seeked] else [])
    (fun _ => Seconds 3) (fun _ => 640) (fun _ => 360) (fun _ => true)
    (fun _ _ _ => Ok "data:image/jpeg;base64,frame").

(** The same video, but decoding fails 10 ms after the metadata. *)
Definition brokenVideo : VideoElement :=
  mkVideo (fun t => if (t =? 20)%nat then [loadedmetadata]
                    else if (t =? 30)%nat then [error] else [])
    (fun _ => Seconds 3) (fun _ => 640) (fun _ => 360) (fun _ => true)
    (fun _ _ _ => Ok "data:image/jpeg;base64,frame").

End Demo.

(** * Theorems *)

(** ** The timeline index store *)

Section TimelineIndex.
Context `{Platform}.

Lemma readTimeline_unfold (w : World) :
  readTimeline w =
    (Ok (match localStorage w !! KEY with
         | Some raw =>
             if truthy raw
             then match JSON_parse raw with
                  | Ok v => if isArray v then asEntries v else []
                  | Throw _ => []
                  end
             else []
         | None => []
         end), w).
Proof.
  unfold readTimeline, try_catch, bind, getItem, ret.
  destruct (localStorage w !! KEY) as [raw|]; simpl; [|reflexivity].
  destruct (truthy raw); simpl; [|reflexivity].
  destruct (JSON_parse raw) as [v|e]; reflexivity.
Qed.

Lemma readTimeline_never_fails_aux (w : World) :
  exists entries, readTimeline w = (Ok entries, w).
Proof. eexists. apply readTimeline_unfold. Qed.

(** C7. [readTimeline] never fails and has no effect. It returns the empty
    list when the slot is absent, when its text does not parse, and when it
    parses to a value that is not an array; it returns the parsed array when
    the slot holds the text of an array. *)
Theorem readTimeline_never_fails (w : World) :
  exists entries, readTimeline w = (Ok entries, w) /\
    (localStorage w !! KEY = None -> entries = []) /\
    (forall raw e, localStorage w !! KEY = Some raw ->
       JSON_parse raw = Throw e -> entries = []) /\
    (forall raw v, localStorage w !! KEY = Some raw ->
       JSON_parse raw = Ok v -> isArray v = false -> entries = []) /\
    (forall raw items, localStorage w !! KEY = Some raw -> raw <> "" ->
       JSON_parse raw = Ok (JsArray items) -> entries = items).
Proof.
  eexists. split; [apply readTimeline_unfold|].
  split; [|split; [|split]].
  - intros ->. reflexivity.
  - intros raw e -> Hp. rewrite Hp. destruct (truthy raw); reflexivity.
  - intros raw v -> Hp Hv. rewrite Hp, Hv. destruct (truthy raw); reflexivity.
  - intros raw items -> Hne Hp. rewrite Hp. destruct raw; [congruence|reflexivity].
Qed.

End TimelineIndex.

(** The four slot states on the demo platform: absent, not JSON, JSON that
    is not an array, and an array. *)
Lemma readTimeline_never_fails_witness :
  let P := Demo.platform 1000 [[Demo.video3; Demo.photo4]] in
  let doc := Demo.stringify [Demo.video3; Demo.photo4] in
  readTimeline Demo.emptyWorld = (Ok [], Demo.emptyWorld)
  /\ readTimeline (Demo.worldWith "<html>") = (Ok [], Demo.worldWith "<html>")
  /\ readTimeline (Demo.worldWith "{}") = (Ok [], Demo.worldWith "{}")
  /\ readTimeline (Demo.worldWith doc) = (Ok [Demo.video3; Demo.photo4], Demo.worldWith doc).
Proof.
  intros P doc. split; [|split; [|split]].
  - destruct (readTimeline_never_fails (H := P) Demo.emptyWorld)
      as (entries & Hrun & Habsent & _).
    rewrite Hrun, (Habsent eq_refl). reflexivity.
  - destruct (readTimeline_never_fails (H := P) (Demo.worldWith "<html>"))
      as (entries & Hrun & _ & Hbad & _).
    rewrite Hrun, (Hbad "<html>" (OtherError "SyntaxError") eq_refl eq_refl). reflexivity.
  - destruct (readTimeline_never_fails (H := P) (Demo.worldWith "{}"))
      as (entries & Hrun & _ & _ & Hother & _).
    rewrite Hrun, (Hother "{}" JsObject eq_refl eq_refl eq_refl). reflexivity.
  - destruct (readTimeline_never_fails (H := P) (Demo.worldWith doc))
      as (entries & Hrun & _ & _ & _ & Harray).
    rewrite Hrun.
    rewrite (Harray doc [Demo.video3; Demo.photo4] eq_refl ltac:(discriminate) eq_refl).
    reflexivity.
Defined.

(** ** Overflow migration and the capture page's write *)



Lemma quiet_refl w : quiet w w.
Proof. split; [reflexivity|]. exists []. rewrite app_nil_r. auto. Qed.

Lemma quiet_trans w1 w2 w3 : quiet w1 w2 -> quiet w2 w3 -> quiet w1 w3.
Proof.
  intros [Hs1 (l1 & Ht1 & Hf1)] [Hs2 (l2 & Ht2 & Hf2)]. split; [congruence|].
  exists (l1 ++ l2). split.
  - rewrite Ht2, Ht1, app_assoc. reflexivity.
  - apply Forall_app; auto.
Qed.

Lemma added_app (w w' : World) (l : list Effect) :
  trace w' = trace w ++ l -> added w w' = l.
Proof. intros Ht. unfold added. rewrite Ht. apply drop_app_length. Qed.

Lemma puts_no_setItem (l : list Effect) :
  Forall (fun e => isIdbPut e = true) l -> List.filter isSetItem l = [].
Proof.
  induction 1 as [|e l He _ IH]; [reflexivity|].
  simpl. destruct e; simpl in *; try discriminate. exact IH.
Qed.

Lemma puts_no_dispatch (l : list Effect) :
  Forall (fun e => isIdbPut e = true) l -> List.filter isDispatch l = [].
Proof.
  induction 1 as [|e l He _ IH]; [reflexivity|].
  simpl. destruct e; simpl in *; try discriminate. exact IH.
Qed.

Section Migration.
Context `{Platform}.


Lemma putMedia_quiet key blob w :
  quiet w (snd (MediaStore.putMedia key blob w)).
Proof.
  unfold MediaStore.putMedia, MediaStore.openDb, bind.
  destruct (idbFault (mediaDb w) IdbOpen); simpl; [apply quiet_refl|].
  destruct (idbFault (mediaDb w) (IdbWrite key)); simpl;
    (split; [reflexivity|]; exists [IdbPut key blob]; split; [reflexivity|];
     repeat constructor).
Qed.

Lemma migrateEntry_quiet entry w :
  quiet w (snd (Capture.migrateEntry entry w)).
Proof.
  unfold Capture.migrateEntry, bind, MediaStore.dataUrlToBlob.
  destruct (fetchBlob (Entry.mediaUri entry)) as [blob|e]; simpl; [|apply quiet_refl].
  pose proof (putMedia_quiet (Entry.id entry) blob w) as Hq.
  destruct (negb (truthy_opt (Entry.thumbUri entry))
            && bool_decide (Entry.mediaType entry = photo));
    unfold Capture.makePhotoThumbFromDataUrl, ret; simpl;
    destruct (MediaStore.putMedia (Entry.id entry) blob w) as [[[]|e] w']; exact Hq.
Qed.

(** The loop never throws, keeps one entry per entry, and is quiet. *)
Lemma migrateLoop_total entries : forall updated w,
  exists migrated w',
    Capture.migrateLoop entries updated w = (Ok migrated, w')
    /\ length migrated = length updated + length entries
    /\ quiet w w'.
Proof.
  induction entries as [|entry rest IH]; intros updated w; simpl.
  - exists updated, w. split; [reflexivity|]. split; [lia|apply quiet_refl].
  - destruct (startsWith "data:" (Entry.mediaUri entry)).
    + unfold bind at 1. unfold try_catch, bind at 1.
      pose proof (migrateEntry_quiet entry w) as Hq.
      destruct (Capture.migrateEntry entry w) as [[migrated|e] w1]; simpl in *.
      * destruct (IH (updated ++ [migrated]) w1) as (m & w' & Hrun & Hlen & Hq').
        exists m, w'. split; [exact Hrun|]. rewrite length_app in Hlen. simpl in Hlen.
        split; [lia|]. eapply quiet_trans; eassumption.
      * destruct (IH (updated ++ [entry]) w1) as (m & w' & Hrun & Hlen & Hq').
        exists m, w'. split; [exact Hrun|]. rewrite length_app in Hlen. simpl in Hlen.
        split; [lia|]. eapply quiet_trans; eassumption.
    + destruct (IH (updated ++ [entry]) w) as (m & w' & Hrun & Hlen & Hq').
      exists m, w'. split; [exact Hrun|]. rewrite length_app in Hlen. simpl in Hlen.
      split; [lia|exact Hq'].
Qed.

(** Entries that are not inline are pushed as they are, with no effect. *)
Lemma migrateLoop_skip entries : forall updated w,
  Forall (fun e => inline e = false) entries ->
  Capture.migrateLoop entries updated w = (Ok (updated ++ entries), w).
Proof.
  induction entries as [|entry rest IH]; intros updated w Hall; simpl.
  - rewrite app_nil_r. reflexivity.
  - inversion Hall as [|? ? Hentry Hrest]; subst. unfold inline in Hentry.
    rewrite Hentry, (IH _ _ Hrest), <- app_assoc. reflexivity.
Qed.

(** A blob-store reference is not inline. *)
Lemma isIdbUri_not_inline (uri : string) :
  MediaStore.isIdbUri uri = true -> startsWith "data:" uri = false.
Proof.
  unfold MediaStore.isIdbUri, MediaStore.IDB_PREFIX, startsWith.
  destruct uri as [|[[] [] [] [] [] [] [] []] uri]; cbn; intros Hidb;
    solve [discriminate Hidb | reflexivity].
Qed.

Lemma isIdbUri_toIdbUri (key : string) :
  MediaStore.isIdbUri (MediaStore.toIdbUri key) = true.
Proof.
  unfold MediaStore.isIdbUri, MediaStore.toIdbUri, MediaStore.IDB_PREFIX, startsWith.
  simpl. destruct key; reflexivity.
Qed.

(** What a successful [migrateEntry] returns is a blob-store reference. *)
Lemma migrateEntry_reference entry w migrated w' :
  Capture.migrateEntry entry w = (Ok migrated, w') ->
  Entry.mediaUri migrated = MediaStore.toIdbUri (Entry.id entry)
  /\ inline migrated = false.
Proof.
  unfold Capture.migrateEntry, bind, MediaStore.dataUrlToBlob.
  destruct (fetchBlob (Entry.mediaUri entry)) as [blob|e]; simpl; [|discriminate].
  destruct (negb (truthy_opt (Entry.thumbUri entry))
            && bool_decide (Entry.mediaType entry = photo));
    unfold Capture.makePhotoThumbFromDataUrl, ret; simpl;
    (destruct (MediaStore.putMedia (Entry.id entry) blob w) as [[[]|e] w2]; simpl;
     [|discriminate]);
    intros [= <- <-]; simpl; (split; [reflexivity|]);
    apply isIdbUri_not_inline, isIdbUri_toIdbUri.
Qed.

(** C6. On a timeline with no inline entry the overflow migration returns
    the list it was given and has no effect at all. *)
Theorem migrateTimelineMedia_noop (entries : list Entry.t) (w : World) :
  Forall (fun e => startsWith "data:" (Entry.mediaUri e) = false) entries ->
  Capture.migrateTimelineMedia entries w = (Ok entries, w).
Proof.
  intros Hall. unfold Capture.migrateTimelineMedia.
  rewrite (migrateLoop_skip entries [] w); [reflexivity|].
  exact Hall.
Qed.

(** Every timeline made of blob-store references is such a timeline. *)
Lemma migrateTimelineMedia_references (entries : list Entry.t) (w : World) :
  Forall (fun e => MediaStore.isIdbUri (Entry.mediaUri e) = true) entries ->
  Capture.migrateTimelineMedia entries w = (Ok entries, w).
Proof.
  intros Hall. unfold Capture.migrateTimelineMedia.
  rewrite (migrateLoop_skip entries [] w); [reflexivity|].
  eapply Forall_impl; [exact Hall|]. intros e He. apply isIdbUri_not_inline, He.
Qed.

End Migration.

(** The migration on a timeline of two blob-store references. *)
Lemma migrateTimelineMedia_noop_witness :
  Capture.migrateTimelineMedia (H := Demo.platform 1000 [])
    [Demo.video3; Demo.photo4] Demo.emptyWorld
  = (Ok [Demo.video3; Demo.photo4], Demo.emptyWorld).
Proof.
  apply (migrateTimelineMedia_noop (H := Demo.platform 1000 [])).
  repeat constructor.
Defined.

Section CaptureWrite.
Context `{Platform}.

(** The first write of [writeTimeline] went through: nothing else happens. *)
Lemma writeTimeline_first_write_ok (entries : list Entry.t) (w : World) :
  storageFault (localStorage w) KEY (JSON_stringify entries) = None ->
  Capture.writeTimeline entries w
  = (Ok tt, store KEY (JSON_stringify entries)
              (emit (SetItem KEY (JSON_stringify entries)) w)).
Proof.
  intros Hfault. unfold Capture.writeTimeline, bind, try_catch, setItem.
  rewrite Hfault. reflexivity.
Qed.

(** After a swallowed quota error, [writeTimeline] is the migration followed
    by one [setItem]. *)
Lemma writeTimeline_after_quota (entries : list Entry.t) (w : World) (err : Exn) :
  storageFault (localStorage w) KEY (JSON_stringify entries) = Some err ->
  Capture.isQuotaExceeded err = true ->
  Capture.writeTimeline entries w
  = bind (Capture.migrateTimelineMedia entries)
      (fun migrated => setItem KEY (JSON_stringify migrated))
      (emit (SetItem KEY (JSON_stringify entries)) w).
Proof.
  intros Hfault Hquota. unfold Capture.writeTimeline, try_catch, setItem.
  unfold bind at 1 2. rewrite Hfault. simpl. rewrite Hquota. reflexivity.
Qed.

(** C1. When the first write of the capture page's [writeTimeline] throws:
    an error that is not a quota error is rethrown at once, with nothing done
    after the failed write; on a quota error the migration runs over all the
    entries, the migrated timeline is written once, and the outcome of that
    second write, an overflow included, is the outcome of [writeTimeline].
    In all, [setItem] is called twice. *)
Theorem writeTimeline_overflow_policy (entries : list Entry.t) (w : World) (err : Exn) :
  storageFault (localStorage w) KEY (JSON_stringify entries) = Some err ->
  let w0 := emit (SetItem KEY (JSON_stringify entries)) w in
  (Capture.isQuotaExceeded err = false ->
     Capture.writeTimeline entries w = (Throw err, w0))
  /\ (Capture.isQuotaExceeded err = true ->
      exists migrated w1,
        Capture.migrateTimelineMedia entries w0 = (Ok migrated, w1)
        /\ length migrated = length entries
        /\ (forall err2,
              storageFault (localStorage w1) KEY (JSON_stringify migrated) = Some err2 ->
              Capture.writeTimeline entries w
              = (Throw err2, emit (SetItem KEY (JSON_stringify migrated)) w1))
        /\ (storageFault (localStorage w1) KEY (JSON_stringify migrated) = None ->
              Capture.writeTimeline entries w
              = (Ok tt, store KEY (JSON_stringify migrated)
                          (emit (SetItem KEY (JSON_stringify migrated)) w1)))
        /\ List.filter isSetItem (added w (snd (Capture.writeTimeline entries w)))
           = [SetItem KEY (JSON_stringify entries);
              SetItem KEY (JSON_stringify migrated)]).
Proof.
  intros Hfault w0. split.
  - intros Hquota. unfold Capture.writeTimeline, try_catch, setItem.
    unfold bind at 1 2. rewrite Hfault. simpl. rewrite Hquota. reflexivity.
  - intros Hquota.
    destruct (migrateLoop_total entries [] w0) as (migrated & w1 & Hrun & Hlen & Hq).
    exists migrated, w1. fold (Capture.migrateTimelineMedia entries) in Hrun.
    pose proof (writeTimeline_after_quota entries w err Hfault Hquota) as Hwrite.
    fold w0 in Hwrite. unfold bind in Hwrite. rewrite Hrun in Hwrite.
    split; [exact Hrun|]. split; [exact Hlen|].
    split; [|split].
    + intros err2 Hfault2. rewrite Hwrite. unfold setItem. rewrite Hfault2. reflexivity.
    + intros Hfault2. rewrite Hwrite. unfold setItem. rewrite Hfault2. reflexivity.
    + destruct Hq as [_ (puts & Htrace & Hputs)].
      rewrite Hwrite.
      rewrite (added_app w _
                 ([SetItem KEY (JSON_stringify entries)] ++ puts
                  ++ [SetItem KEY (JSON_stringify migrated)])).
      * rewrite !List.filter_app, (puts_no_setItem puts Hputs). reflexivity.
      * unfold setItem.
        destruct (storageFault (localStorage w1) KEY (JSON_stringify migrated));
          simpl; rewrite Htrace; unfold w0; simpl; rewrite <- !app_assoc; reflexivity.
Qed.

End CaptureWrite.

(** Two inline photos and a video on a platform whose slot is too small even
    for the migrated timeline: both writes overflow, the second is fatal. *)
Lemma writeTimeline_overflow_policy_witness :
  let P := Demo.platform 500 [] in
  let entries := [Demo.photo1; Demo.photo2; Demo.video3] in
  let out := Capture.writeTimeline entries Demo.emptyWorld in
  fst out = Throw (DOMException "QuotaExceededError")
  /\ length (List.filter isSetItem (trace (snd out))) = 2
  /\ localStorage (snd out) !! KEY = None.
Proof.
  intros P entries out.
  destruct (writeTimeline_overflow_policy (H := P) entries Demo.emptyWorld
              (DOMException "QuotaExceededError") eq_refl) as [_ Hquota].
  destruct (Hquota eq_refl) as (migrated & w1 & Hrun & _ & Hfatal & _ & Hcalls).
  vm_compute in Hrun. injection Hrun as <- <-.
  subst out. rewrite (Hfatal (DOMException "QuotaExceededError") eq_refl).
  split; [reflexivity|]. split; reflexivity.
Defined.

(** Scenario B of the specification: the same timeline when the migrated
    document fits. The photos end as blob-store references with a thumbnail,
    the video entry is unchanged and the retried write succeeds. *)
Example writeTimeline_scenario_B :
  let P := Demo.platform 600 [] in
  let entries := [Demo.photo1; Demo.photo2; Demo.video3] in
  let out := Capture.writeTimeline entries Demo.emptyWorld in
  fst out = Ok tt
  /\ localStorage (snd out) !! KEY
     = Some (Demo.stringify
               [Entry.mk "e1" "2024-01-01T10:00:00.000Z" photo "idb:e1"
                  (Some "data:image/jpeg;base64,t") [];
                Entry.mk "e2" "2024-01-02T10:00:00.000Z" photo "idb:e2"
                  (Some "data:image/jpeg;base64,t") [];
                Demo.video3])
  /\ is_Some (mediaDb (snd out) !! "e1") /\ is_Some (mediaDb (snd out) !! "e2").
Proof.
  vm_compute. repeat split; eauto.
Qed.

(** ** Change notification *)

Section ChangeNotification.
Context `{Platform}.

(** [setItem] then [dispatchEvent]: the event follows a write that went
    through, and is not dispatched when the write throws. *)
Lemma write_then_dispatch (doc : string) (w : World) :
  bind (setItem KEY doc) (fun _ => dispatchEvent EVT) w
  = match storageFault (localStorage w) KEY doc with
    | None => (Ok tt, emit (DispatchEvent EVT) (store KEY doc (emit (SetItem KEY doc) w)))
    | Some e => (Throw e, emit (SetItem KEY doc) w)
    end.
Proof.
  unfold bind, setItem, dispatchEvent, effect.
  destruct (storageFault (localStorage w) KEY doc); reflexivity.
Qed.

Lemma write_then_dispatch_added (doc : string) (w : World) :
  added w (snd (bind (setItem KEY doc) (fun _ => dispatchEvent EVT) w))
  = match storageFault (localStorage w) KEY doc with
    | None => [SetItem KEY doc; DispatchEvent EVT]
    | Some _ => [SetItem KEY doc]
    end.
Proof.
  rewrite write_then_dispatch.
  destruct (storageFault (localStorage w) KEY doc); apply added_app; simpl;
    rewrite <- ?app_assoc; reflexivity.
Qed.

(** The capture page's [writeTimeline] only calls [setItem] and the blob
    store. *)
Lemma capture_writeTimeline_trace (entries : list Entry.t) (w : World) :
  exists effects,
    trace (snd (Capture.writeTimeline entries w)) = trace w ++ effects
    /\ List.filter isDispatch effects = [].
Proof.
  destruct (storageFault (localStorage w) KEY (JSON_stringify entries)) as [err|] eqn:Hfault.
  - destruct (Capture.isQuotaExceeded err) eqn:Hquota.
    + rewrite (writeTimeline_after_quota entries w err Hfault Hquota). unfold bind.
      destruct (migrateLoop_total entries [] (emit (SetItem KEY (JSON_stringify entries)) w))
        as (migrated & w1 & Hrun & _ & _ & (puts & Htrace & Hputs)).
      fold (Capture.migrateTimelineMedia entries) in Hrun. rewrite Hrun.
      exists ([SetItem KEY (JSON_stringify entries)] ++ puts
              ++ [SetItem KEY (JSON_stringify migrated)]).
      split.
      * unfold setItem.
        destruct (storageFault (localStorage w1) KEY (JSON_stringify migrated));
          simpl; rewrite Htrace; simpl; rewrite <- !app_assoc; reflexivity.
      * rewrite !List.filter_app, (puts_no_dispatch puts Hputs). reflexivity.
    + exists [SetItem KEY (JSON_stringify entries)]. split; [|reflexivity].
      unfold Capture.writeTimeline, try_catch, setItem. unfold bind at 1 2.
      rewrite Hfault. simpl. rewrite Hquota. reflexivity.
  - rewrite (writeTimeline_first_write_ok entries w Hfault).
    exists [SetItem KEY (JSON_stringify entries)]. split; reflexivity.
Qed.

(** Nor does [onSave] dispatch anything. *)
Lemma capture_onSave_trace captured note now entryId noteId (w : World) :
  exists effects,
    trace (snd (Capture.onSave captured note now entryId noteId w)) = trace w ++ effects
    /\ List.filter isDispatch effects = [].
Proof.
  assert (Hnone : forall (o : Capture.SaveOutcome),
            exists effects, trace (snd (ret o w)) = trace w ++ effects
                            /\ List.filter isDispatch effects = []).
  { intros o. exists []. rewrite app_nil_r. split; reflexivity. }
  unfold Capture.onSave.
  destruct captured as [c|]; [|apply Hnone].
  destruct (Capture.cap_blob c) as [blob|]; [|apply Hnone].
  destruct (Capture.blob_size blob =? 0)%nat; [apply Hnone|].
  destruct (_ && _); [apply Hnone|].
  unfold bind at 1.
  pose proof (putMedia_quiet entryId blob w) as [_ (puts & Hput & Hputs)].
  destruct (MediaStore.putMedia entryId blob w) as [[[]|e] w1]; simpl in Hput.
  - unfold bind at 1. rewrite readTimeline_unfold.
    set (entries := _ :: _).
    unfold bind at 1.
    destruct (capture_writeTimeline_trace entries w1) as (effects & Htrace & Hquiet).
    exists (puts ++ effects). split.
    + destruct (Capture.writeTimeline entries w1) as [[[]|e] w2]; simpl in *;
        rewrite Htrace, Hput, app_assoc; reflexivity.
    + rewrite List.filter_app, (puts_no_dispatch puts Hputs), Hquiet. reflexivity.
  - exists puts. split; [exact Hput|apply puts_no_dispatch, Hputs].
Qed.

(** C4, as the code has it. The notes write ([EntryClient.writeTimeline]) and
    the thumbnail write-back ([writeBackThumb]) call [setItem] and then
    dispatch the change event, and dispatch nothing when [setItem] throws.
    The capture page's [writeTimeline] and [onSave] dispatch no event. *)
Theorem change_notification_by_operation :
  (forall (list : list Entry.t) (w : World),
     added w (snd (EntryClient.writeTimeline list w))
     = match storageFault (localStorage w) KEY (JSON_stringify list) with
       | None => [SetItem KEY (JSON_stringify list); DispatchEvent EVT]
       | Some _ => [SetItem KEY (JSON_stringify list)]
       end)
  /\ (forall (entryId thumbUri : string) (w : World),
        exists doc,
          added w (snd (VideoThumb.writeBackThumb entryId thumbUri w))
          = match storageFault (localStorage w) KEY doc with
            | None => [SetItem KEY doc; DispatchEvent EVT]
            | Some _ => [SetItem KEY doc]
            end)
  /\ (forall (entries : list Entry.t) (w : World),
        List.filter isDispatch (added w (snd (Capture.writeTimeline entries w))) = [])
  /\ (forall captured note now entryId noteId (w : World),
        List.filter isDispatch
          (added w (snd (Capture.onSave captured note now entryId noteId w))) = []).
Proof.
  split; [|split; [|split]].
  - intros list w. apply write_then_dispatch_added.
  - intros entryId thumbUri w. unfold VideoThumb.writeBackThumb.
    unfold bind at 1. rewrite readTimeline_unfold.
    eexists. apply write_then_dispatch_added.
  - intros entries w.
    destruct (capture_writeTimeline_trace entries w) as (effects & Htrace & Hquiet).
    rewrite (added_app _ _ _ Htrace). exact Hquiet.
  - intros captured note now entryId noteId w.
    destruct (capture_onSave_trace captured note now entryId noteId w)
      as (effects & Htrace & Hquiet).
    rewrite (added_app _ _ _ Htrace). exact Hquiet.
Qed.

End ChangeNotification.

(** The notes write on the demo platform: one write, then the event. *)
Lemma change_notification_by_operation_witness :
  let P := Demo.platform 1000 [] in
  trace (snd (EntryClient.writeTimeline [Demo.photo4] Demo.emptyWorld))
  = [SetItem KEY (Demo.stringify [Demo.photo4]); DispatchEvent EVT].
Proof.
  intros P.
  destruct (change_notification_by_operation (H := P)) as [Hnotes _].
  exact (Hnotes [Demo.photo4] Demo.emptyWorld).
Defined.

(** C4 as stated fails: saving a captured video appends an entry to the
    persisted timeline, the write succeeds, and no change event is
    dispatched. *)
Lemma capture_save_dispatches_nothing :
  let P := Demo.platform 1000 [] in
  let captured :=
    Capture.mkCaptured video "blob:preview" (Some "data:image/jpeg;base64,t")
      (Some Demo.clip) in
  let out :=
    Capture.onSave (Some captured) " hello " "2024-02-01T09:00:00.000Z" "e9" "n9"
      Demo.emptyWorld in
  fst out = Ok (Capture.RouterPush "/")
  /\ localStorage (snd out) !! KEY
     = Some (Demo.stringify
               [Entry.mk "e9" "2024-02-01T09:00:00.000Z" video "idb:e9"
                  (Some "data:image/jpeg;base64,t")
                  [TextBlock.mk "n9" "2024-02-01T09:00:00.000Z" "hello"]])
  /\ In (SetItem KEY
           (Demo.stringify
              [Entry.mk "e9" "2024-02-01T09:00:00.000Z" video "idb:e9"
                 (Some "data:image/jpeg;base64,t")
                 [TextBlock.mk "n9" "2024-02-01T09:00:00.000Z" "hello"]]))
        (trace (snd out))
  /\ ~ In (DispatchEvent EVT) (trace (snd out)).
Proof.
  vm_compute. split; [reflexivity|]. split; [reflexivity|]. split; [tauto|].
  intros [Hput|[Hset|[]]]; discriminate.
Qed.

(** ** Thumbnail write-back *)

Section WriteBack.
Context `{Platform}.


Lemma writeBackThumb_unfold (entryId thumbUri : string) (w : World) (list : list Entry.t) :
  readTimeline w = (Ok list, w) ->
  VideoThumb.writeBackThumb entryId thumbUri w
  = bind (setItem KEY (JSON_stringify (withThumbAt entryId thumbUri list)))
      (fun _ => dispatchEvent EVT) w.
Proof.
  intros Hread. unfold VideoThumb.writeBackThumb. unfold bind at 1.
  rewrite Hread. reflexivity.
Qed.

(** C9. [writeBackThumb] writes one document: the timeline it read, entry
    by entry, where an entry with another id is the same entry, and an entry
    with the given id has the new [thumbUri] and all its other fields. When
    the write goes through, the slot holds that document. *)
Theorem writeBackThumb_frame (entryId thumbUri : string) (w : World) :
  exists list next,
    readTimeline w = (Ok list, w)
    /\ List.filter isSetItem (added w (snd (VideoThumb.writeBackThumb entryId thumbUri w)))
       = [SetItem KEY (JSON_stringify next)]
    /\ (storageFault (localStorage w) KEY (JSON_stringify next) = None ->
        localStorage (snd (VideoThumb.writeBackThumb entryId thumbUri w)) !! KEY
        = Some (JSON_stringify next))
    /\ length next = length list
    /\ forall i e, list !! i = Some e ->
         exists e', next !! i = Some e'
           /\ (Entry.id e <> entryId -> e' = e)
           /\ (Entry.id e = entryId -> Entry.thumbUri e' = Some thumbUri)
           /\ Entry.id e' = Entry.id e
           /\ Entry.createdAt e' = Entry.createdAt e
           /\ Entry.mediaType e' = Entry.mediaType e
           /\ Entry.mediaUri e' = Entry.mediaUri e
           /\ Entry.textBlocks e' = Entry.textBlocks e.
Proof.
  destruct (readTimeline_never_fails_aux w) as [list Hread].
  exists list, (withThumbAt entryId thumbUri list).
  split; [exact Hread|].
  rewrite (writeBackThumb_unfold entryId thumbUri w list Hread).
  split; [|split; [|split]].
  - rewrite write_then_dispatch_added.
    destruct (storageFault _ _ _); reflexivity.
  - intros Hfault. rewrite write_then_dispatch, Hfault. simpl.
    apply lookup_insert_eq.
  - unfold withThumbAt. apply length_map.
  - intros i e Hi. unfold withThumbAt. rewrite list_lookup_fmap, Hi. simpl.
    eexists. split; [reflexivity|].
    destruct (bool_decide_reflect (Entry.id e = entryId)) as [Heq|Hne].
    + repeat split; try reflexivity. intros Hne. contradiction.
    + repeat split; try reflexivity. intros Heq. contradiction.
Qed.

End WriteBack.

(** Writing a thumbnail back to the first of two entries on the demo
    platform: the second entry is written as it was read. *)
Lemma writeBackThumb_frame_witness :
  let P := Demo.platform 1000 [[Demo.video3; Demo.photo4]] in
  let w := Demo.worldWith (Demo.stringify [Demo.video3; Demo.photo4]) in
  exists next,
    List.filter isSetItem (added w (snd (VideoThumb.writeBackThumb "e3" "data:image/jpeg;base64,v" w)))
    = [SetItem KEY (Demo.stringify next)]
    /\ next !! 1 = Some Demo.photo4
    /\ Entry.thumbUri <$> next !! 0 = Some (Some "data:image/jpeg;base64,v")
    /\ Entry.textBlocks <$> next !! 0 = Some [Demo.note1; Demo.note2].
Proof.
  intros P w.
  destruct (writeBackThumb_frame (H := P) "e3" "data:image/jpeg;base64,v" w)
    as (list & next & Hread & Hset & _ & _ & Hframe).
  vm_compute in Hread. injection Hread as <-.
  exists next. split; [exact Hset|].
  destruct (Hframe 1 Demo.photo4 eq_refl) as (e1 & Hnext1 & Hother & _).
  destruct (Hframe 0 Demo.video3 eq_refl)
    as (e0 & Hnext0 & _ & Hthumb & _ & _ & _ & _ & Hblocks).
  rewrite Hnext1, Hnext0, (Hother ltac:(discriminate)). simpl.
  rewrite (Hthumb eq_refl), Hblocks. repeat split.
Defined.

(** ** Saving notes *)

Section Notes.
Context `{Platform}.

Lemma findIndex_Some (id : string) (timeline : list Entry.t) (idx : nat) :
  EntryClient.findIndex id timeline = Some idx ->
  exists cur, timeline !! idx = Some cur /\ Entry.id cur = id.
Proof.
  unfold EntryClient.findIndex. intros Hfind.
  destruct (list_find _ timeline) as [[i cur]|] eqn:Hlf; [|discriminate].
  simpl in Hfind. injection Hfind as ->.
  apply list_find_Some in Hlf as (Hcur & Hid & _). eauto.
Qed.

Lemma trimStart_whitespace (s : string) :
  forallb isWhiteSpace (list_ascii_of_string s) = true -> trimStart s = "".
Proof.
  induction s as [|c s IH]; simpl; [reflexivity|].
  intros Hall. apply andb_prop in Hall as [Hc Hs]. rewrite Hc. apply IH, Hs.
Qed.

(** A draft of white space only trims to the empty string. *)
Lemma trim_whitespace (s : string) :
  forallb isWhiteSpace (list_ascii_of_string s) = true -> trim s = "".
Proof. intros Hall. unfold trim. rewrite (trimStart_whitespace s Hall). reflexivity. Qed.

Lemma nextTextBlocks_length current content now uuid :
  length (EntryClient.nextTextBlocks current content now uuid) <= 1.
Proof.
  unfold EntryClient.nextTextBlocks.
  destruct (truthy content); [destruct current|]; simpl; lia.
Qed.

(** C10. When [onSaveNotes] finds the entry in the stored timeline, it
    writes the timeline with that entry replaced by [saved], which it returns
    when the write goes through. [saved] has at most one text block: none for
    a draft that trims to the empty string (a draft of white space does); for
    any other draft one block whose content is the trimmed draft, with the id
    and createdAt of the first stored block when there was one and fresh ones
    otherwise. Later stored blocks are dropped, other fields are kept. *)
Theorem onSaveNotes_single_block (entry : Entry.t) (draft now uuid : string)
    (w : World) (timeline : list Entry.t) (idx : nat) :
  readTimeline w = (Ok timeline, w) ->
  EntryClient.findIndex (Entry.id entry) timeline = Some idx ->
  exists cur saved,
    timeline !! idx = Some cur
    /\ Entry.id cur = Entry.id entry
    /\ List.filter isSetItem
         (added w (snd (EntryClient.onSaveNotes (Some entry) draft now uuid w)))
       = [SetItem KEY (JSON_stringify (<[idx := saved]> timeline))]
    /\ (storageFault (localStorage w) KEY (JSON_stringify (<[idx := saved]> timeline)) = None ->
        fst (EntryClient.onSaveNotes (Some entry) draft now uuid w) = Ok (Some saved))
    /\ length (Entry.textBlocks saved) <= 1
    /\ (trim draft = "" -> Entry.textBlocks saved = [])
    /\ (forallb isWhiteSpace (list_ascii_of_string draft) = true ->
        Entry.textBlocks saved = [])
    /\ (trim draft <> "" ->
        match Entry.textBlocks cur with
        | first :: _ =>
            Entry.textBlocks saved
            = [TextBlock.mk (TextBlock.id first) (TextBlock.createdAt first) (trim draft)]
        | [] => Entry.textBlocks saved = [TextBlock.mk uuid now (trim draft)]
        end)
    /\ Entry.id saved = Entry.id cur
    /\ Entry.createdAt saved = Entry.createdAt cur
    /\ Entry.mediaType saved = Entry.mediaType cur
    /\ Entry.mediaUri saved = Entry.mediaUri cur
    /\ Entry.thumbUri saved = Entry.thumbUri cur.
Proof.
  intros Hread Hfind.
  destruct (findIndex_Some _ _ _ Hfind) as (cur & Hcur & Hid).
  exists cur. eexists.
  split; [exact Hcur|]. split; [exact Hid|].
  assert (Hrun : EntryClient.onSaveNotes (Some entry) draft now uuid w
                 = bind (EntryClient.writeTimeline
                           (<[idx := Entry.mk (Entry.id cur) (Entry.createdAt cur)
                                       (Entry.mediaType cur) (Entry.mediaUri cur)
                                       (Entry.thumbUri cur)
                                       (EntryClient.nextTextBlocks (Entry.textBlocks cur)
                                          (trim draft) now uuid)]> timeline))
                     (fun _ => ret (Some (Entry.mk (Entry.id cur) (Entry.createdAt cur)
                                       (Entry.mediaType cur) (Entry.mediaUri cur)
                                       (Entry.thumbUri cur)
                                       (EntryClient.nextTextBlocks (Entry.textBlocks cur)
                                          (trim draft) now uuid)))) w).
  { unfold EntryClient.onSaveNotes. unfold bind at 1.
    rewrite Hread, Hfind, Hcur. reflexivity. }
  rewrite Hrun. unfold bind at 1 2. unfold EntryClient.writeTimeline.
  rewrite write_then_dispatch.
  split; [|split; [|split; [|split; [|split; [|split]]]]].
  - destruct (storageFault _ _ _); simpl.
    + erewrite added_app; [|simpl; reflexivity]. reflexivity.
    + erewrite added_app; [|simpl; rewrite <- app_assoc; reflexivity]. reflexivity.
  - intros ->. reflexivity.
  - simpl. apply nextTextBlocks_length.
  - intros Hempty. simpl. unfold EntryClient.nextTextBlocks. rewrite Hempty. reflexivity.
  - intros Hws. simpl. unfold EntryClient.nextTextBlocks.
    rewrite (trim_whitespace draft Hws). reflexivity.
  - intros Hne. simpl. unfold EntryClient.nextTextBlocks.
    destruct (trim draft) as [|c rest]; [congruence|]. simpl.
    destruct (Entry.textBlocks cur); reflexivity.
  - simpl. repeat split.
Qed.

End Notes.

(** Saving the draft ["  third  "] on the video entry of the demo timeline:
    the first note keeps its id and date and gets the trimmed draft, the
    second note is dropped. Saving a blank draft leaves no note. *)
Lemma onSaveNotes_single_block_witness :
  let P := Demo.platform 1000 [[Demo.video3; Demo.photo4]] in
  let w := Demo.worldWith (Demo.stringify [Demo.video3; Demo.photo4]) in
  fst (EntryClient.onSaveNotes (Some Demo.video3) "  third  " "2024-03-01" "u1" w)
  = Ok (Some (Entry.mk "e3" "2024-01-03T10:00:00.000Z" video "idb:e3" None
                [TextBlock.mk "n1" "2024-01-03T10:00:00.000Z" "third"]))
  /\ (Entry.textBlocks <$>
        match fst (EntryClient.onSaveNotes (Some Demo.video3) "   " "2024-03-01" "u1" w)
        with Ok saved => saved | Throw _ => None end) = Some [].
Proof.
  intros P w. split.
  - destruct (onSaveNotes_single_block (H := P) Demo.video3 "  third  " "2024-03-01" "u1" w
                [Demo.video3; Demo.photo4] 0 eq_refl eq_refl)
      as (cur & saved & Hcur & _ & _ & Hok & _ & _ & _ & Hblock & Hid & Hat & Hty & Huri & Hth).
    injection Hcur as <-.
    specialize (Hblock ltac:(discriminate)). simpl in Hblock, Hid, Hat, Hty, Huri, Hth.
    destruct saved as [i c t u th bs]. simpl in *. subst.
    apply Hok. reflexivity.
  - destruct (onSaveNotes_single_block (H := P) Demo.video3 "   " "2024-03-01" "u1" w
                [Demo.video3; Demo.photo4] 0 eq_refl eq_refl)
      as (cur & saved & Hcur & _ & _ & Hok & _ & _ & Hblank & _ & Hid & Hat & Hty & Huri & Hth).
    injection Hcur as <-.
    specialize (Hblank eq_refl). simpl in Hblank, Hid, Hat, Hty, Huri, Hth.
    destruct saved as [i c t u th bs]. simpl in *. subst.
    rewrite Hok; reflexivity.
Defined.

(** ** The video thumbnail pipeline *)

Section Pipeline.
Variable c : Timeouts.
Variable v : VideoElement.

Lemma finish_settled thumb p : settled (finish thumb p) <> None.
Proof. unfold finish. destruct (settled p) eqn:Hs; simpl; congruence. Qed.

Lemma finish_keeps thumb p r : settled p = Some r -> finish thumb p = p.
Proof. unfold finish. intros ->. reflexivity. Qed.

Lemma capture_settled t p : settled (capture v t p) <> None.
Proof.
  unfold capture.
  destruct (_ || _); [apply finish_settled|].
  destruct (negb _); [apply finish_settled|].
  destruct (toDataURL v _ _ t); apply finish_settled.
Qed.

Lemma capture_keeps t p r : settled p = Some r -> settled (capture v t p) = Some r.
Proof.
  intros Hs. unfold capture.
  destruct (_ || _); [simpl; rewrite (finish_keeps _ p r Hs); exact Hs|].
  destruct (negb _); [simpl; rewrite (finish_keeps _ _ r); exact Hs|].
  destruct (toDataURL v _ _ t); simpl; rewrite (finish_keeps _ _ r); exact Hs.
Qed.

Lemma alive_weaken lo cap a lo' cap' a' p :
  alive c lo cap a p -> lo' <= lo -> cap <= cap' -> (a = true -> a' = true) ->
  alive c lo' cap' a' p.
Proof.
  intros [Hs|[He Hh]] Hlo Hcap Ha; [left; exact Hs|right].
  split; [exact He|]. destruct (handler p); [auto|lia|lia|exact Hh].
Qed.

(** After [await waitFor(..)] at time [t], with the old deadline within
    [cap], the handler is painting with a deadline within the cap, or done. *)
Lemma afterWait_alive t cap a p :
  t <= cap -> errorArmed p = true \/ settled p <> None ->
  alive c t cap a (afterWait c v t p).
Proof.
  intros Hcap Harmed. unfold afterWait, paintDelay.
  destruct (paintMs c) as [d|] eqn:Hpaint.
  - destruct Harmed as [He|Hs]; [right|left; exact Hs].
    split; [exact He|]. simpl. unfold paintDelay. rewrite Hpaint. simpl. lia.
  - left. apply capture_settled.
Qed.

Lemma onEvent_alive t cap a p ev :
  alive c t cap a p -> (a = true -> t + waitMs c <= cap) ->
  alive c t cap a (onEvent c v t p ev).
Proof.
  intros Halive Hcap.
  destruct Halive as [Hs|[He Hh]].
  - left. destruct (settled p) as [r|] eqn:Hr; [|congruence].
    destruct ev; simpl.
    + destruct (errorArmed p); [|congruence]. unfold finish. simpl. rewrite Hr. simpl.
      congruence.
    + destruct (handler p); try congruence.
      destruct (Qpositive _); simpl; congruence.
    + destruct (handler p); try congruence.
      destruct (bool_decide _); [|congruence].
      unfold afterWait. destruct (paintMs c); [simpl; congruence|].
      rewrite (capture_keeps t p r Hr). congruence.
    + destruct (handler p); try congruence.
      destruct (bool_decide _); [|congruence].
      unfold afterWait. destruct (paintMs c); [simpl; congruence|].
      rewrite (capture_keeps t p r Hr). congruence.
  - destruct ev; simpl.
    + rewrite He. left. apply finish_settled.
    + destruct (handler p) eqn:Hhandler.
      * specialize (Hcap Hh).
        destruct (Qpositive _); right; simpl; (split; [exact He|lia]).
      * right. rewrite Hhandler. split; [exact He|exact Hh].
      * right. rewrite Hhandler. split; [exact He|exact Hh].
      * destruct Hh.
    + destruct (handler p) eqn:Hhandler.
      * right. rewrite Hhandler. split; [exact He|exact Hh].
      * destruct (bool_decide _).
        -- apply afterWait_alive; [lia|left; exact He].
        -- right. rewrite Hhandler. split; [exact He|exact Hh].
      * right. rewrite Hhandler. split; [exact He|exact Hh].
      * destruct Hh.
    + destruct (handler p) eqn:Hhandler.
      * right. rewrite Hhandler. split; [exact He|exact Hh].
      * destruct (bool_decide _).
        -- apply afterWait_alive; [lia|left; exact He].
        -- right. rewrite Hhandler. split; [exact He|exact Hh].
      * right. rewrite Hhandler. split; [exact He|exact Hh].
      * destruct Hh.
Qed.

(** [loadedmetadata] and [error] leave no handler waiting to be called with
    a pending promise. *)
Lemma onEvent_trigger t cap a p ev :
  alive c t cap a p -> t + waitMs c <= cap ->
  ev = loadedmetadata \/ ev = error ->
  alive c t cap false (onEvent c v t p ev).
Proof.
  intros Halive Hcap Hev.
  pose proof (onEvent_alive t cap a p ev Halive (fun _ => Hcap)) as Hnext.
  destruct Hnext as [Hs|[He Hh]]; [left; exact Hs|].
  destruct Halive as [Hs|[He0 Hh0]].
  - left. destruct (settled p) as [r|] eqn:Hr; [|congruence].
    destruct Hev as [-> | ->]; simpl in *.
    + destruct (handler p); try congruence. destruct (Qpositive _); simpl; congruence.
    + destruct (errorArmed p); [|congruence]. unfold finish. simpl. rewrite Hr. simpl.
      congruence.
  - destruct Hev as [-> | ->]; simpl in *.
    + destruct (handler p) eqn:Hhandler.
      * destruct (Qpositive _); right; simpl; (split; [exact He0|lia]).
      * right. rewrite Hhandler. split; [exact He0|exact Hh0].
      * right. rewrite Hhandler. split; [exact He0|exact Hh0].
      * destruct Hh0.
    + rewrite He0. left. apply finish_settled.
Qed.

Lemma events_alive t cap a (evs : list VideoEvent) : forall p,
  alive c t cap a p -> (a = true -> t + waitMs c <= cap) ->
  alive c t cap a (fold_left (onEvent c v t) evs p).
Proof.
  induction evs as [|ev evs IH]; intros p Halive Hcap; simpl; [exact Halive|].
  apply IH; [|exact Hcap]. apply onEvent_alive; assumption.
Qed.

Lemma events_trigger t cap (evs : list VideoEvent) : forall p,
  alive c t cap true p -> t + waitMs c <= cap ->
  In loadedmetadata evs \/ In error evs ->
  alive c t cap false (fold_left (onEvent c v t) evs p).
Proof.
  induction evs as [|ev evs IH]; intros p Halive Hcap Hin; simpl.
  - destruct Hin as [[]|[]].
  - destruct (decide (ev = loadedmetadata \/ ev = error)) as [Hev|Hev].
    + apply events_alive; [|discriminate].
      apply (onEvent_trigger t cap true); assumption.
    + apply IH; [|exact Hcap|].
      * apply onEvent_alive; [exact Halive|intros _; exact Hcap].
      * destruct Hin as [[->|Hin]|[->|Hin]]; tauto.
Qed.

Lemma onTimers_keeps t p r :
  settled p = Some r -> settled (onTimers c v t p) = Some r.
Proof.
  intros Hr. unfold onTimers. destruct (handler p); try exact Hr.
  - destruct (_ <=? _)%nat; [|exact Hr]. unfold afterWait.
    destruct (paintMs c); [exact Hr|apply capture_keeps, Hr].
  - destruct (_ <=? _)%nat; [apply capture_keeps, Hr|exact Hr].
Qed.

(** One round of timers keeps the invariant; what it leaves waiting is not
    due yet. *)
Lemma onTimers_alive t cap a p :
  alive c t cap a p ->
  alive c t cap a (onTimers c v t p)
  /\ (settled (onTimers c v t p) = None ->
      match handler (onTimers c v t p) with
      | Waiting _ d => t < d
      | Painting d => t < d \/ d = t + paintDelay c
      | _ => True
      end).
Proof.
  intros Halive.
  destruct Halive as [Hs|[He Hh]].
  - destruct (settled p) as [r|] eqn:Hr; [|congruence].
    pose proof (onTimers_keeps t p r Hr) as Hkeep.
    split; [left; congruence|congruence].
  - unfold onTimers. destruct (handler p) eqn:Hhandler.
    + split; [right; rewrite Hhandler; auto|]. rewrite Hhandler. auto.
    + destruct (Nat.leb_spec deadline t) as [Hdue|Hlater].
      * split; [apply afterWait_alive; [lia|left; exact He]|].
        unfold afterWait, paintDelay. destruct (paintMs c) as [d|]; simpl; [lia|].
        intros Hpending. destruct (capture_settled t p Hpending).
      * split; [right; rewrite Hhandler; auto|]. rewrite Hhandler. auto.
    + destruct (Nat.leb_spec deadline t) as [Hdue|Hlater].
      * split; [left; apply capture_settled|].
        intros Hpending. destruct (capture_settled t p Hpending).
      * split; [right; rewrite Hhandler; auto|]. rewrite Hhandler. lia.
    + destruct Hh.
Qed.

(** After both rounds every deadline left is in the future. *)
Lemma timers_alive t cap a p :
  alive c t cap a p -> alive c (S t) cap a (onTimers c v t (onTimers c v t p)).
Proof.
  intros Halive.
  destruct (onTimers_alive t cap a p Halive) as [H1 Hdue1].
  set (q := onTimers c v t p) in *.
  destruct (settled q) as [r|] eqn:Hr.
  { left. rewrite (onTimers_keeps t q r Hr). discriminate. }
  specialize (Hdue1 eq_refl).
  destruct H1 as [Hs|[He Hh]]; [congruence|].
  unfold onTimers. destruct (handler q) eqn:Hq.
  - right. rewrite Hq. auto.
  - destruct (Nat.leb_spec deadline t) as [Hdue|Hlater]; [lia|].
    right. rewrite Hq. split; [exact He|lia].
  - destruct (Nat.leb_spec deadline t) as [Hdue|Hlater].
    + left. apply capture_settled.
    + right. rewrite Hq. split; [exact He|lia].
  - destruct Hh.
Qed.

Lemma tick_alive t cap a p :
  alive c t cap a p -> (a = true -> t + waitMs c <= cap) ->
  alive c (S t) cap a (tick c v t p).
Proof.
  intros Halive Hcap. unfold tick. apply timers_alive, events_alive; assumption.
Qed.

Lemma tick_trigger t cap p :
  alive c t cap true p -> t + waitMs c <= cap ->
  In loadedmetadata (fires v t) \/ In error (fires v t) ->
  alive c (S t) cap false (tick c v t p).
Proof.
  intros Halive Hcap Hin. unfold tick. apply timers_alive, events_trigger; assumption.
Qed.

Lemma initial_alive : alive c 0 (waitMs c) true initial.
Proof. right. split; reflexivity. Qed.

(** Before any trigger: the state after the milliseconds [0 .. n]. *)
Lemma runUntil_alive n : alive c (S n) (n + waitMs c) true (runUntil c v n).
Proof.
  induction n as [|n IH]; simpl.
  - apply tick_alive; [apply initial_alive|intros _; lia].
  - apply tick_alive; [|intros _; lia].
    eapply alive_weaken; [exact IH|lia|lia|auto].
Qed.

(** From the millisecond [t0] of the trigger on. *)
Lemma runUntil_triggered t0 k :
  In loadedmetadata (fires v t0) \/ In error (fires v t0) ->
  alive c (S (t0 + k)) (t0 + waitMs c) false (runUntil c v (t0 + k)).
Proof.
  intros Hin. induction k as [|k IH].
  - rewrite Nat.add_0_r. destruct t0 as [|t0]; simpl.
    + apply tick_trigger; [apply initial_alive|lia|exact Hin].
    + apply tick_trigger; [|lia|exact Hin].
      eapply alive_weaken; [apply runUntil_alive|lia|lia|auto].
  - replace (t0 + S k) with (S (t0 + k)) by lia. simpl.
    apply tick_alive; [exact IH|discriminate].
Qed.

(** Once [loadedmetadata] or [error] has been dispatched, the promise is
    settled after the wait timeout and the paint delay. *)
Lemma runUntil_settles t0 n :
  In loadedmetadata (fires v t0) \/ In error (fires v t0) ->
  t0 + waitMs c + paintDelay c <= n ->
  settled (runUntil c v n) <> None.
Proof.
  intros Hin Hn.
  replace n with (t0 + (n - t0)) by lia.
  destruct (runUntil_triggered t0 (n - t0) Hin) as [Hs|[_ Hh]]; [exact Hs|].
  destruct (handler (runUntil c v (t0 + (n - t0)))); [discriminate|lia|lia|destruct Hh].
Qed.

(** While the element dispatches nothing, nothing happens. *)
Lemma runUntil_silent n :
  (forall t, t <= n -> fires v t = []) -> runUntil c v n = initial.
Proof.
  induction n as [|n IH]; intros Hquiet; simpl.
  - unfold tick. rewrite (Hquiet 0 (le_n 0)). reflexivity.
  - rewrite IH by (intros t Ht; apply Hquiet; lia).
    unfold tick. rewrite (Hquiet (S n) (le_n _)). reflexivity.
Qed.

End Pipeline.

(** C2, as the code has it. The waits inside the [loadedmetadata] handler
    are bounded: once the element has dispatched [loadedmetadata] or [error],
    in millisecond [t0], the promise is settled 1500 + 50 ms later for
    [makeVideoThumbFromUrl] and 500 ms later for [makeVideoThumbnailFromUrl],
    whatever the element does or does not dispatch afterwards. *)
Theorem thumbnail_settles_after_first_event (v : VideoElement) (t0 n : nat) :
  In loadedmetadata (fires v t0) \/ In error (fires v t0) ->
  (t0 + 1550 <= n -> is_Some (makeVideoThumbFromUrl v n))
  /\ (t0 + 500 <= n -> is_Some (makeVideoThumbnailFromUrl v n)).
Proof.
  intros Hin. split; intros Hn.
  - unfold makeVideoThumbFromUrl.
    pose proof (runUntil_settles (mkTimeouts 1500 (Some 50)) v t0 n Hin) as Hs.
    destruct (settled _); [eauto|]. exfalso. apply Hs; [|reflexivity].
    unfold paintDelay. simpl. lia.
  - unfold makeVideoThumbnailFromUrl.
    pose proof (runUntil_settles (mkTimeouts 500 None) v t0 n Hin) as Hs.
    destruct (settled _); [eauto|]. exfalso. apply Hs; [|reflexivity].
    unfold paintDelay. simpl. lia.
Qed.

(** A video whose [seeked] event never comes after metadata at 20 ms. *)
Lemma thumbnail_settles_after_first_event_witness :
  is_Some (makeVideoThumbFromUrl Demo.stalledVideo 1570)
  /\ is_Some (makeVideoThumbnailFromUrl Demo.stalledVideo 520).
Proof.
  destruct (thumbnail_settles_after_first_event Demo.stalledVideo 20 1570) as [Hthumb _].
  { left. left. reflexivity. }
  destruct (thumbnail_settles_after_first_event Demo.stalledVideo 20 520) as [_ Hcapture].
  { left. left. reflexivity. }
  split; [apply Hthumb|apply Hcapture]; apply Nat.leb_le; vm_compute; reflexivity.
Defined.

(** C2 as stated fails: the wait for [loadedmetadata] or [error] has no
    timeout, so on an element that dispatches no event the promise of
    either generator is pending at every time. *)
Lemma thumbnail_hangs_on_silent_element :
  hangs makeVideoThumbFromUrl Demo.silentVideo
  /\ hangs makeVideoThumbnailFromUrl Demo.silentVideo.
Proof.
  split; intros n.
  - unfold makeVideoThumbFromUrl. rewrite runUntil_silent; reflexivity.
  - unfold makeVideoThumbnailFromUrl. rewrite runUntil_silent; reflexivity.
Qed.

(** The timings on the 3 s demo video: pending until the frame is captured,
    the thumbnail from then on. *)
Example shortVideo_timeline :
  makeVideoThumbFromUrl Demo.shortVideo 99 = None
  /\ makeVideoThumbFromUrl Demo.shortVideo 100 = Some (Some "data:image/jpeg;base64,frame")
  /\ canvas (runUntil (mkTimeouts 1500 (Some 50)) Demo.shortVideo 100) = Some (640, 360)
  /\ makeVideoThumbnailFromUrl Demo.shortVideo 49 = None
  /\ makeVideoThumbnailFromUrl Demo.shortVideo 50 = Some (Some "data:image/jpeg;base64,frame").
Proof. vm_compute. repeat split. Qed.

(** ** Frame capture and the dimensions of the video *)

(** The guard [if (!w || !h)] after the two defaults is never taken. *)
Lemma dimension_guard_never_taken (width height : nat) :
  (orElse width 1280 =? 0)%nat || (orElse height 720 =? 0)%nat = false.
Proof.
  unfold orElse.
  destruct (Nat.eqb_spec width 0) as [->|Hw]; destruct (Nat.eqb_spec height 0) as [->|Hh];
    simpl; rewrite ?orb_false_r, ?Nat.eqb_neq; auto.
  apply orb_false_intro; apply Nat.eqb_neq; assumption.
Qed.

(** What [capture] does on a pending promise when the canvas works. *)
Lemma capture_draws (v : VideoElement) (t : nat) (p : Pipeline) (thumb : string) :
  settled p = None -> getContext v t = true ->
  toDataURL v (orElse (videoWidth v t) 1280) (orElse (videoHeight v t) 720) t = Ok thumb ->
  settled (capture v t p) = Some (Some thumb)
  /\ canvas (capture v t p)
     = Some (orElse (videoWidth v t) 1280, orElse (videoHeight v t) 720).
Proof.
  intros Hpending Hctx Henc. unfold capture.
  rewrite dimension_guard_never_taken, Hctx, Henc. simpl.
  unfold finish. simpl. rewrite Hpending. simpl. auto.
Qed.

(** With known dimensions the canvas has the native resolution. *)
Lemma capture_native_resolution (v : VideoElement) (t : nat) (p : Pipeline) (thumb : string) :
  settled p = None -> getContext v t = true ->
  videoWidth v t <> 0 -> videoHeight v t <> 0 ->
  toDataURL v (videoWidth v t) (videoHeight v t) t = Ok thumb ->
  settled (capture v t p) = Some (Some thumb)
  /\ canvas (capture v t p) = Some (videoWidth v t, videoHeight v t).
Proof.
  intros Hpending Hctx Hw Hh Henc.
  assert (Hw' : orElse (videoWidth v t) 1280 = videoWidth v t).
  { unfold orElse. destruct (Nat.eqb_spec (videoWidth v t) 0); congruence. }
  assert (Hh' : orElse (videoHeight v t) 720 = videoHeight v t).
  { unfold orElse. destruct (Nat.eqb_spec (videoHeight v t) 0); congruence. }
  rewrite <- Hw', <- Hh' in Henc.
  destruct (capture_draws v t p thumb Hpending Hctx Henc) as [Hs Hc].
  rewrite Hs, Hc, Hw', Hh'. auto.
Qed.

(** C5 fails on the code. On a video of duration 0 whose width and height
    read 0, both generators draw on a 1280 x 720 canvas and resolve with the
    encoded image, not with "no thumbnail". *)
Theorem zero_dimensions_yield_a_thumbnail :
  makeVideoThumbFromUrl Demo.zeroVideo 1550 = Some (Some "data:image/jpeg;base64,frame")
  /\ canvas (runUntil (mkTimeouts 1500 (Some 50)) Demo.zeroVideo 1550) = Some (1280, 720)
  /\ makeVideoThumbnailFromUrl Demo.zeroVideo 500 = Some (Some "data:image/jpeg;base64,frame")
  /\ canvas (runUntil (mkTimeouts 500 None) Demo.zeroVideo 500) = Some (1280, 720).
Proof. vm_compute. repeat split. Qed.

(** ** Resolving a reference whose blob is missing *)

Section MissingBlob.
Context `{Platform}.

Lemma getMedia_missing (key : string) (w : World) :
  idbFault (mediaDb w) IdbOpen = None ->
  idbFault (mediaDb w) (IdbRead key) = None ->
  mediaDb w !! key = None ->
  MediaStore.getMedia key w = (Ok None, w).
Proof.
  intros Hopen Hread Hmissing. unfold MediaStore.getMedia, MediaStore.openDb, bind.
  rewrite Hopen, Hread, Hmissing. reflexivity.
Qed.

(** Mounting the hook on a blob-store reference starts the request. *)
Lemma mount_reference (key : string) :
  Resolver.mount (Some (MediaStore.toIdbUri key))
  = Resolver.mkHook (Some (MediaStore.toIdbUri key))
      [Resolver.mkRun (Some (MediaStore.toIdbUri key)) true None (Some key)] true [].
Proof.
  unfold Resolver.mount, Resolver.startEffect.
  change (truthy_opt (Some (MediaStore.toIdbUri key))) with true.
  change (default "" (Some (MediaStore.toIdbUri key))) with (MediaStore.toIdbUri key).
  rewrite isIdbUri_toIdbUri. reflexivity.
Qed.

(** The continuation of any active effect waiting for a missing blob. *)
Lemma settle_missing (i : nat) (h : Resolver.Hook) (r : Resolver.Run) (key : string)
    (w : World) :
  Resolver.runs h !! i = Some r ->
  Resolver.awaiting r = Some key -> Resolver.active r = true ->
  MediaStore.getMedia key w = (Ok None, w) ->
  exists h', Resolver.settle i h w = (h', emit (ConsoleWarn "useResolvedMediaUrl") w)
             /\ Resolver.url h' = None
             /\ Resolver.unhandled h' = Resolver.unhandled h.
Proof.
  intros Hrun Hkey Hactive Hget. unfold Resolver.settle.
  rewrite Hrun, Hkey, Hget, Hactive. simpl. eexists. split; [reflexivity|]. split; reflexivity.
Qed.

(** C8. When the blob store can be opened and read and holds nothing under
    [key]: [getMedia key] resolves with null and changes nothing; a hook
    mounted on the reference idb:[key] ends, once that request settles, with
    the url null, no rejection, and one warning as the only effect. *)
Theorem resolve_missing_blob (key : string) (w : World) :
  idbFault (mediaDb w) IdbOpen = None ->
  idbFault (mediaDb w) (IdbRead key) = None ->
  mediaDb w !! key = None ->
  MediaStore.getMedia key w = (Ok None, w)
  /\ exists h,
       Resolver.step (Resolver.Settle 0)
         (Resolver.mount (Some (MediaStore.toIdbUri key)), w)
       = (h, emit (ConsoleWarn "useResolvedMediaUrl") w)
       /\ Resolver.url h = None
       /\ Resolver.unhandled h = [].
Proof.
  intros Hopen Hread Hmissing.
  pose proof (getMedia_missing key w Hopen Hread Hmissing) as Hget.
  split; [exact Hget|].
  rewrite mount_reference.
  destruct (settle_missing 0
              (Resolver.mkHook (Some (MediaStore.toIdbUri key))
                 [Resolver.mkRun (Some (MediaStore.toIdbUri key)) true None (Some key)]
                 true [])
              (Resolver.mkRun (Some (MediaStore.toIdbUri key)) true None (Some key))
              key w eq_refl eq_refl eq_refl Hget) as (h' & Hsettle & Hurl & Hrej).
  exists h'. split; [exact Hsettle|]. split; [exact Hurl|exact Hrej].
Qed.

End MissingBlob.

(** Scenario C of the specification on the demo platform. *)
Lemma resolve_missing_blob_witness :
  let P := Demo.platform 1000 [] in
  let out :=
    Resolver.step (Resolver.Settle 0) (Resolver.mount (Some "idb:missing-key"), Demo.emptyWorld) in
  MediaStore.getMedia "missing-key" Demo.emptyWorld = (Ok None, Demo.emptyWorld)
  /\ Resolver.url (fst out) = None
  /\ Resolver.unhandled (fst out) = []
  /\ trace (snd out) = [ConsoleWarn "useResolvedMediaUrl"].
Proof.
  intros P out.
  destruct (resolve_missing_blob (H := P) "missing-key" Demo.emptyWorld eq_refl eq_refl eq_refl)
    as (Hget & h & Hstep & Hurl & Hrej).
  split; [exact Hget|].
  subst out. change (Some "idb:missing-key") with (Some (MediaStore.toIdbUri "missing-key")).
  rewrite Hstep. simpl. split; [exact Hurl|]. split; [exact Hrej|reflexivity].
Defined.

(** ** Object URLs of the video thumbnail component *)

Section ThumbHandles.
Context `{Platform}.

Lemma resolveVideoUrl_trace (mediaUri : string) (w : World) :
  exists effects,
    trace (snd (VideoThumb.resolveVideoUrl mediaUri w)) = trace w ++ effects
    /\ List.filter isRevoke effects = [].
Proof.
  unfold VideoThumb.resolveVideoUrl.
  destruct (MediaStore.isIdbUri mediaUri).
  - unfold bind at 1. unfold MediaStore.getMedia, MediaStore.openDb, bind at 1.
    destruct (idbFault (mediaDb w) IdbOpen).
    { exists []. simpl. rewrite app_nil_r. auto. }
    destruct (idbFault (mediaDb w) (IdbRead _)).
    { exists []. simpl. rewrite app_nil_r. auto. }
    destruct (mediaDb w !! _) as [blob|].
    + destruct (negb (truthy (blob_type blob))).
      * exists [ConsoleWarn "VideoThumb"; CreateObjectURL ("blob:" +:+ pretty (minted w))].
        simpl. rewrite <- app_assoc. auto.
      * exists [CreateObjectURL ("blob:" +:+ pretty (minted w))]. simpl. auto.
    + exists [ConsoleWarn "VideoThumb"]. simpl. auto.
  - destruct (startsWith "data:" mediaUri).
    { exists []. simpl. rewrite app_nil_r. auto. }
    destruct (startsWith "blob:" mediaUri);
      exists [ConsoleWarn "VideoThumb"]; simpl; auto.
Qed.

Lemma finally_parked (i : nat) (r : VideoThumb.Run) (c : VideoThumb.Component) :
  VideoThumb.cancelled r = true -> parked c -> parked (VideoThumb.finally i r c).
Proof.
  intros Hr [Hm Hall]. unfold VideoThumb.finally. rewrite Hr. simpl.
  split; [exact Hm|]. apply Forall_insert; [exact Hall|reflexivity].
Qed.

(** An unmounted component with all effects cancelled stays so, and
    revokes nothing, whatever happens next. *)
Lemma step_parked (a : VideoThumb.Action) (c : VideoThumb.Component) (w : World) :
  parked c ->
  parked (fst (VideoThumb.step a (c, w)))
  /\ exists effects,
       trace (snd (VideoThumb.step a (c, w))) = trace w ++ effects
       /\ List.filter isRevoke effects = [].
Proof.
  intros Hparked.
  assert (Hsame : parked c
                  /\ exists effects, trace w = trace w ++ effects
                                     /\ List.filter isRevoke effects = []).
  { split; [exact Hparked|]. exists []. rewrite app_nil_r. auto. }
  pose proof Hparked as [Hm Hall].
  destruct a as [e| |i|i t]; simpl.
  - rewrite Hm. exact Hsame.
  - rewrite Hm. exact Hsame.
  - unfold VideoThumb.resolved.
    destruct (VideoThumb.runs c !! i) as [r|] eqn:Hrun; [|exact Hsame].
    assert (Hr : VideoThumb.cancelled r = true).
    { rewrite Forall_lookup in Hall. exact (Hall i r Hrun). }
    destruct (VideoThumb.stage r); try exact Hsame.
    destruct (resolveVideoUrl_trace (Entry.mediaUri (VideoThumb.entry r)) w)
      as (effects & Htrace & Hquiet).
    destruct (VideoThumb.resolveVideoUrl _ w) as [[[[url owned]|]|e] w']; simpl in *.
    + split; [|eauto]. destruct owned; simpl;
        (split; [exact Hm|apply Forall_insert; [exact Hall|simpl; exact Hr]]).
    + split; [|eauto]. apply finally_parked; assumption.
    + split; [|eauto].
      destruct (finally_parked i r c Hr Hparked) as [Hm' Hall']. split; assumption.
  - unfold VideoThumb.thumbed.
    destruct (VideoThumb.runs c !! i) as [r|] eqn:Hrun; [|exact Hsame].
    assert (Hr : VideoThumb.cancelled r = true).
    { rewrite Forall_lookup in Hall. exact (Hall i r Hrun). }
    destruct (VideoThumb.stage r); try exact Hsame.
    rewrite Hr. simpl. split; [apply finally_parked; assumption|].
    exists []. rewrite app_nil_r. auto.
Qed.

Lemma steps_parked (acts : list VideoThumb.Action) : forall c w,
  parked c ->
  exists effects,
    trace (snd (VideoThumb.steps acts (c, w))) = trace w ++ effects
    /\ List.filter isRevoke effects = [].
Proof.
  induction acts as [|a acts IH]; intros c w Hparked.
  - exists []. simpl. rewrite app_nil_r. auto.
  - change (VideoThumb.steps (a :: acts) (c, w))
      with (VideoThumb.steps acts (VideoThumb.step a (c, w))).
    destruct (step_parked a c w Hparked) as [Hnext (l1 & Ht1 & Hq1)].
    destruct (VideoThumb.step a (c, w)) as [c1 w1]. simpl in Hnext, Ht1.
    destruct (IH c1 w1 Hnext) as (l2 & Ht2 & Hq2).
    exists (l1 ++ l2). rewrite Ht2, Ht1, app_assoc.
    split; [reflexivity|]. rewrite List.filter_app, Hq1, Hq2. reflexivity.
Qed.

End ThumbHandles.

(** C3 fails on the code for [VideoThumb]. The component is mounted on a
    video entry stored in the blob store and unmounted before
    [resolveVideoUrl] settles: the cleanup finds no URL to revoke, then the
    URL blob:0 is minted and kept in [objectUrlRef]; whatever happens
    afterwards, it is never revoked. *)
Theorem videoThumb_leaks_after_early_unmount (acts : list VideoThumb.Action) :
  let P := Demo.platform 1000 [] in
  let out :=
    VideoThumb.steps ([VideoThumb.Unmount; VideoThumb.Resolved 0] ++ acts)
      (VideoThumb.mount Demo.video3, Demo.worldWithClips) in
  In (CreateObjectURL "blob:0") (trace (snd out))
  /\ List.filter isRevoke (trace (snd out)) = [].
Proof.
  intros P out. subst out. unfold VideoThumb.steps. rewrite fold_left_app.
  set (s0 := fold_left _ [VideoThumb.Unmount; VideoThumb.Resolved 0] _).
  assert (Hparked : parked (fst s0)).
  { vm_compute. split; [reflexivity|]. repeat constructor. }
  assert (Htrace : trace (snd s0) = [CreateObjectURL "blob:0"]).
  { vm_compute. reflexivity. }
  destruct s0 as [c0 w0]. simpl in Hparked, Htrace.
  destruct (steps_parked (H := P) acts c0 w0 Hparked) as (effects & Hrest & Hquiet).
  unfold VideoThumb.steps in Hrest. rewrite Hrest, Htrace.
  split; [left; reflexivity|]. simpl. exact Hquiet.
Qed.

(** The same leak by supersession: the entry changes while the first
    request is in flight; both requests settle, the second URL replaces the
    first in [objectUrlRef], and the unmount revokes the second only. *)
Example videoThumb_leaks_on_supersession :
  let P := Demo.platform 1000 [] in
  let out :=
    VideoThumb.steps
      [VideoThumb.Render Demo.video5; VideoThumb.Resolved 0; VideoThumb.Resolved 1;
       VideoThumb.Unmount]
      (VideoThumb.mount Demo.video3, Demo.worldWithClips) in
  trace (snd out)
  = [CreateObjectURL "blob:0"; CreateObjectURL "blob:1"; RevokeObjectURL "blob:1"].
Proof. vm_compute. reflexivity. Qed.

(** Without supersession the URL is revoked once, at unmount, after the
    thumbnail was written back. *)
Example videoThumb_releases_on_success :
  let P := Demo.platform 1000 [] in
  let out :=
    VideoThumb.steps
      [VideoThumb.Resolved 0; VideoThumb.Thumbed 0 (Some "data:image/jpeg;base64,frame");
       VideoThumb.Unmount]
      (VideoThumb.mount Demo.video3, Demo.worldWithClips) in
  trace (snd out)
  = [CreateObjectURL "blob:0";
     SetItem KEY "[]"; DispatchEvent EVT;
     RevokeObjectURL "blob:0"]
  /\ VideoThumb.thumb (fst out) = Some "data:image/jpeg;base64,frame".
Proof. vm_compute. split; reflexivity. Qed.

(** ** Object URLs of the resolver hook *)

Lemma created_snoc (u : string) (l : list Effect) (e : Effect) :
  created u (l ++ [e]) = created u l + (if decide (e = CreateObjectURL u) then 1 else 0).
Proof.
  unfold created. rewrite count_occ_app. simpl.
  destruct (Effect_eq_dec e (CreateObjectURL u)); destruct (decide (e = CreateObjectURL u));
    congruence.
Qed.

Lemma revoked_snoc (u : string) (l : list Effect) (e : Effect) :
  revoked u (l ++ [e]) = revoked u l + (if decide (e = RevokeObjectURL u) then 1 else 0).
Proof.
  unfold revoked. rewrite count_occ_app. simpl.
  destruct (Effect_eq_dec e (RevokeObjectURL u)); destruct (decide (e = RevokeObjectURL u));
    congruence.
Qed.

Lemma blob_url_inj (j k : nat) : "blob:" +:+ pretty j = "blob:" +:+ pretty k -> j = k.
Proof. simpl. intros [= Heq]. exact (pretty_nat_inj _ _ Heq). Qed.

Section HookHandles.
Context `{Platform}.

Lemma getMedia_world (key : string) (w : World) : snd (MediaStore.getMedia key w) = w.
Proof.
  unfold MediaStore.getMedia, MediaStore.openDb, bind.
  destruct (idbFault (mediaDb w) IdbOpen); [reflexivity|].
  destruct (idbFault (mediaDb w) (IdbRead key)); reflexivity.
Qed.

Lemma mount_disciplined (uri : option string) (m : nat) :
  disciplined (Resolver.mount uri) m [].
Proof.
  assert (Hruns : exists aw u, Resolver.runs (Resolver.mount uri)
                               = [Resolver.mkRun uri true None aw]
                               /\ Resolver.mounted (Resolver.mount uri) = true
                               /\ Resolver.url (Resolver.mount uri) = u).
  { unfold Resolver.mount, Resolver.startEffect.
    destruct (negb (truthy_opt uri)); [simpl; eauto|].
    destruct (negb (MediaStore.isIdbUri _)); simpl; eauto. }
  destruct Hruns as (aw & u & Hruns & Hm & _).
  constructor; rewrite ?Hruns, ?Hm.
  - intros [|i] r Hi Ha; [auto|discriminate].
  - intros _. simpl. eauto.
  - intros [|i] r u' Hi Hu; [|discriminate]. injection Hi as <-. discriminate.
  - intros u'. unfold created, revoked. simpl. lia.
  - intros [|i] [|j] r r' u' Hi Hj Hu; try discriminate. injection Hi as <-. discriminate.
  - intros u'. unfold created. simpl. lia.
Qed.

(** Replacing an effect by one with the same [active] and [objectUrl]. *)
Lemma update_disciplined (h h' : Resolver.Hook) (m : nat) (l : list Effect)
    (i : nat) (r r' : Resolver.Run) :
  disciplined h m l ->
  Resolver.runs h !! i = Some r ->
  Resolver.runs h' = <[i := r']> (Resolver.runs h) ->
  Resolver.mounted h' = Resolver.mounted h ->
  Resolver.active r' = Resolver.active r ->
  Resolver.objectUrl r' = Resolver.objectUrl r ->
  Resolver.awaiting r' = None ->
  disciplined h' m l.
Proof.
  intros [Hactive Hlast Howned Howner Hunique Hfresh] Hi Hruns Hm Ha Hu Haw.
  assert (Hlen : i < length (Resolver.runs h)) by (eapply lookup_lt_Some; exact Hi).
  assert (Hlook : forall j x, Resolver.runs h' !! j = Some x ->
            exists y, Resolver.runs h !! j = Some y
                      /\ Resolver.active x = Resolver.active y
                      /\ Resolver.objectUrl x = Resolver.objectUrl y
                      /\ (Resolver.objectUrl x <> None -> Resolver.awaiting x = None)).
  { intros j x Hj. rewrite Hruns in Hj.
    apply list_lookup_insert_Some in Hj as [(<- & <- & _)|[Hne Hj]].
    - exists r. auto.
    - exists x. repeat split; [exact Hj|].
      intros Hsome. destruct (Resolver.objectUrl x) as [u|] eqn:Hx; [|congruence].
      apply (Howned j x u Hj Hx). }
  assert (Hback : forall j y, Resolver.runs h !! j = Some y ->
            exists x, Resolver.runs h' !! j = Some x
                      /\ Resolver.active x = Resolver.active y
                      /\ Resolver.objectUrl x = Resolver.objectUrl y).
  { intros j y Hj. rewrite Hruns. destruct (decide (i = j)) as [<-|Hne].
    - exists r'. rewrite list_lookup_insert_eq by exact Hlen.
      assert (y = r) by congruence. subst y. auto.
    - exists y. rewrite list_lookup_insert_ne by exact Hne. auto. }
  assert (Hsize : length (Resolver.runs h') = length (Resolver.runs h)).
  { rewrite Hruns. apply length_insert. }
  constructor.
  - intros j x Hj Hx. destruct (Hlook j x Hj) as (y & Hy & Hay & _).
    rewrite Hm, Hsize. apply (Hactive j y Hy). congruence.
  - rewrite Hm, Hsize. intros Hmounted. destruct (Hlast Hmounted) as (y & Hy & Hay).
    destruct (Hback _ y Hy) as (x & Hx & Hax & _). exists x. split; [exact Hx|congruence].
  - intros j x u Hj Hx. destruct (Hlook j x Hj) as (y & Hy & Hay & Huy & Hawx).
    rewrite Huy in Hx. destruct (Howned j y u Hy Hx) as (_ & Ht & Hc & Hr).
    rewrite Hay. repeat split; try assumption. apply Hawx. congruence.
  - intros u Hu0. destruct (Howner u Hu0) as (j & y & Hy & Huy).
    destruct (Hback j y Hy) as (x & Hx & _ & Hux). exists j, x. split; [exact Hx|congruence].
  - intros j k x x' u Hj Hk Hx Hx'.
    destruct (Hlook j x Hj) as (y & Hy & _ & Huy & _).
    destruct (Hlook k x' Hk) as (y' & Hy' & _ & Huy' & _).
    apply (Hunique j k y y' u); congruence.
  - exact Hfresh.
Qed.

End HookHandles.

Section HookSteps.
Context `{Platform}.

(** Effects that mint and revoke nothing, and later counters, keep the
    discipline. *)
Lemma disciplined_more (h : Resolver.Hook) (m m' : nat) (l : list Effect) (e : Effect) :
  disciplined h m l -> m <= m' -> isRevoke e = false ->
  (forall u, e <> CreateObjectURL u) ->
  disciplined h m' (l ++ [e]).
Proof.
  intros [Hactive Hlast Howned Howner Hunique Hfresh] Hm He Hc.
  assert (Hcre : forall u, created u (l ++ [e]) = created u l).
  { intros u. rewrite created_snoc. destruct (decide _) as [Heq|]; [|lia].
    destruct (Hc u Heq). }
  assert (Hrev : forall u, revoked u (l ++ [e]) = revoked u l).
  { intros u. rewrite revoked_snoc. destruct (decide _) as [->|]; [discriminate|lia]. }
  constructor; try assumption.
  - intros i r u Hi Hu. rewrite Hcre, Hrev. eauto.
  - intros u. rewrite Hcre, Hrev. auto.
  - intros u. rewrite Hcre. intros Hu. destruct (Hfresh u Hu) as (k & -> & Hk).
    exists k. split; [reflexivity|lia].
Qed.

(** The effect [i] mints a URL for the request it was waiting for. *)
Lemma mint_disciplined (h h' : Resolver.Hook) (m : nat) (l : list Effect)
    (i : nat) (r : Resolver.Run) (key : string) :
  disciplined h m l ->
  Resolver.runs h !! i = Some r ->
  Resolver.awaiting r = Some key -> Resolver.active r = true ->
  Resolver.runs h'
  = <[i := Resolver.mkRun (Resolver.mediaUri r) (Resolver.active r)
             (Some ("blob:" +:+ pretty m)) None]> (Resolver.runs h) ->
  Resolver.mounted h' = Resolver.mounted h ->
  disciplined h' (S m) (l ++ [CreateObjectURL ("blob:" +:+ pretty m)]).
Proof.
  intros [Hactive Hlast Howned Howner Hunique Hfresh] Hi Hkey Hact Hruns Hm.
  set (u := "blob:" +:+ pretty m) in *.
  assert (Hlen : i < length (Resolver.runs h)) by (eapply lookup_lt_Some; exact Hi).
  assert (Hnone : Resolver.objectUrl r = None).
  { destruct (Resolver.objectUrl r) as [u0|] eqn:Hu0; [|reflexivity].
    destruct (Howned i r u0 Hi Hu0) as [Haw _]. congruence. }
  assert (Hc0 : created u l = 0).
  { destruct (created u l) eqn:Hc; [reflexivity|].
    destruct (Hfresh u ltac:(lia)) as (k & Hk & Hlt).
    apply blob_url_inj in Hk. lia. }
  assert (Hr0 : revoked u l = 0).
  { destruct (revoked u l) eqn:Hr; [reflexivity|].
    destruct (Howner u ltac:(lia)) as (j & y & Hy & Huy).
    destruct (Howned j y u Hy Huy) as (_ & _ & Hc & _). lia. }
  assert (Hcre : forall u0, created u0 (l ++ [CreateObjectURL u])
                            = created u0 l + (if decide (u0 = u) then 1 else 0)).
  { intros u0. rewrite created_snoc.
    destruct (decide (CreateObjectURL u = CreateObjectURL u0)) as [Heq|Hne];
      destruct (decide (u0 = u)); congruence. }
  assert (Hrev : forall u0, revoked u0 (l ++ [CreateObjectURL u]) = revoked u0 l).
  { intros u0. rewrite revoked_snoc. destruct (decide _); [discriminate|lia]. }
  assert (Hsize : length (Resolver.runs h') = length (Resolver.runs h)).
  { rewrite Hruns. apply length_insert. }
  assert (Hlook : forall j x, Resolver.runs h' !! j = Some x ->
            (j = i /\ x = Resolver.mkRun (Resolver.mediaUri r) (Resolver.active r) (Some u) None)
            \/ (j <> i /\ Resolver.runs h !! j = Some x)).
  { intros j x Hj. rewrite Hruns in Hj.
    apply list_lookup_insert_Some in Hj as [(<- & <- & _)|[Hne Hj]]; auto. }
  constructor.
  - intros j x Hj Hx. rewrite Hm, Hsize.
    destruct (Hlook j x Hj) as [[-> ->]|[Hne Hold]]; eauto.
  - rewrite Hm, Hsize. intros Hmounted. destruct (Hlast Hmounted) as (y & Hy & Hay).
    destruct (decide (i = length (Resolver.runs h) - 1)) as [<-|Hne].
    + eexists. rewrite Hruns, list_lookup_insert_eq by exact Hlen. split; [reflexivity|].
      simpl. exact Hact.
    + exists y. rewrite Hruns, list_lookup_insert_ne by exact Hne. auto.
  - intros j x u0 Hj Hx. rewrite Hcre, Hrev.
    destruct (Hlook j x Hj) as [[-> ->]|[Hne Hold]].
    + simpl in Hx. injection Hx as <-. simpl. rewrite Hact, Hc0, Hr0.
      destruct (decide (u = u)); [auto|congruence].
    + destruct (Howned j x u0 Hold Hx) as (Haw & Ht & Hc & Hr).
      destruct (decide (u0 = u)) as [->|_]; [lia|].
      rewrite Hc, Hr. auto.
  - intros u0. rewrite Hcre, Hrev. intros Hu0.
    destruct (decide (u0 = u)) as [->|Hne].
    + exists i. eexists. rewrite Hruns, list_lookup_insert_eq by exact Hlen.
      split; reflexivity.
    + destruct (Howner u0 ltac:(lia)) as (j & y & Hy & Huy).
      exists j, y. split; [|exact Huy].
      rewrite Hruns, list_lookup_insert_ne; [exact Hy|]. intros <-. congruence.
  - intros j k x x' u0 Hj Hk Hx Hx'.
    destruct (Hlook j x Hj) as [[-> ->]|[Hnej Holdj]];
      destruct (Hlook k x' Hk) as [[-> ->]|[Hnek Holdk]]; auto.
    + simpl in Hx. injection Hx as <-.
      destruct (Howned k x' u Holdk Hx') as (_ & _ & Hc & _). lia.
    + simpl in Hx'. injection Hx' as <-.
      destruct (Howned j x u Holdj Hx) as (_ & _ & Hc & _). lia.
    + eapply Hunique; eauto.
  - intros u0. rewrite Hcre. intros Hu0.
    destruct (decide (u0 = u)) as [->|Hne].
    + exists m. split; [reflexivity|lia].
    + destruct (Hfresh u0 ltac:(lia)) as (k & Hk & Hlt). exists k. split; [exact Hk|lia].
Qed.

End HookSteps.

Section HookRun.
Context `{Platform}.

(** The cleanup of the last effect of a mounted hook revokes the URL it
    holds, once; seen as unmounted, the hook is disciplined again. *)
Lemma cleanup_disciplined (h : Resolver.Hook) (w : World) (m : nat) (l : list Effect) :
  disciplined h m l -> Resolver.mounted h = true ->
  exists es,
    trace (snd (Resolver.cleanup (length (Resolver.runs h) - 1) h w)) = trace w ++ es
    /\ minted (snd (Resolver.cleanup (length (Resolver.runs h) - 1) h w)) = minted w
    /\ length (Resolver.runs (fst (Resolver.cleanup (length (Resolver.runs h) - 1) h w)))
       = length (Resolver.runs h)
    /\ forall hu,
         Resolver.runs hu
         = Resolver.runs (fst (Resolver.cleanup (length (Resolver.runs h) - 1) h w)) ->
         Resolver.mounted hu = false ->
         disciplined hu m (l ++ es).
Proof.
  intros [Hactive Hlast Howned Howner Hunique Hfresh] Hmounted.
  destruct (Hlast Hmounted) as (r & Hi & Hact).
  set (i := length (Resolver.runs h) - 1) in *.
  assert (Hlen : i < length (Resolver.runs h)) by (eapply lookup_lt_Some; exact Hi).
  set (r' := Resolver.mkRun (Resolver.mediaUri r) false (Resolver.objectUrl r)
               (Resolver.awaiting r)).
  assert (Hlook : forall (runs' : list Resolver.Run) j x,
            runs' = <[i := r']> (Resolver.runs h) -> runs' !! j = Some x ->
            (j = i /\ x = r') \/ (j <> i /\ Resolver.runs h !! j = Some x)).
  { intros runs' j x -> Hj.
    apply list_lookup_insert_Some in Hj as [(<- & <- & _)|[Hne Hj]]; auto. }
  assert (Hinactive : forall j x, j <> i -> Resolver.runs h !! j = Some x ->
            Resolver.active x = false).
  { intros j x Hne Hj. destruct (Resolver.active x) eqn:Hx; [|reflexivity].
    destruct (Hactive j x Hj Hx) as [_ Hlast']. unfold i in Hne. lia. }
  unfold Resolver.cleanup. rewrite Hi. fold r'.
  destruct (Resolver.objectUrl r) as [u|] eqn:Hu.
  - destruct (Howned i r u Hi Hu) as (Haw & Ht & Hc & Hr). rewrite Hact in Hr.
    rewrite Ht. simpl. exists [RevokeObjectURL u].
    split; [reflexivity|]. split; [reflexivity|]. split; [apply length_insert|].
    intros hu Hruns Hum.
    assert (Hcre : forall u0, created u0 (l ++ [RevokeObjectURL u]) = created u0 l).
    { intros u0. rewrite created_snoc. destruct (decide _); [discriminate|lia]. }
    assert (Hrev : forall u0, revoked u0 (l ++ [RevokeObjectURL u])
                              = revoked u0 l + (if decide (u0 = u) then 1 else 0)).
    { intros u0. rewrite revoked_snoc.
      destruct (decide (RevokeObjectURL u = RevokeObjectURL u0));
        destruct (decide (u0 = u)); congruence. }
    constructor.
    + intros j x Hj Hx. rewrite Hruns in Hj.
      destruct (Hlook _ j x eq_refl Hj) as [[-> ->]|[Hne Hold]]; [discriminate|].
      rewrite (Hinactive j x Hne Hold) in Hx. discriminate.
    + rewrite Hum. discriminate.
    + intros j x u0 Hj Hx. rewrite Hruns in Hj. rewrite Hcre, Hrev.
      destruct (Hlook _ j x eq_refl Hj) as [[-> ->]|[Hne Hold]].
      * simpl in Hx. rewrite ?Hu in Hx. injection Hx as <-. simpl. rewrite ?Hu.
        destruct (decide (u = u)); [|congruence]. rewrite Hc, Hr. auto.
      * destruct (Howned j x u0 Hold Hx) as (Haw0 & Ht0 & Hc0 & Hr0).
        destruct (decide (u0 = u)) as [->|_].
        { exfalso. apply Hne. eapply Hunique; eauto. }
        rewrite Hc0, Hr0, Nat.add_0_r. auto.
    + intros u0. rewrite Hcre, Hrev. intros Hu0. rewrite Hruns.
      destruct (decide (u0 = u)) as [->|Hne].
      * exists i, r'. rewrite list_lookup_insert_eq by exact Hlen. simpl. rewrite ?Hu. auto.
      * destruct (Howner u0 ltac:(lia)) as (j & y & Hy & Huy).
        exists j, y. split; [|exact Huy].
        rewrite list_lookup_insert_ne; [exact Hy|]. intros <-. congruence.
    + intros j k x x' u0 Hj Hk Hx Hx'. rewrite Hruns in Hj, Hk.
      destruct (Hlook _ j x eq_refl Hj) as [[-> ->]|[Hnej Holdj]];
        destruct (Hlook _ k x' eq_refl Hk) as [[-> ->]|[Hnek Holdk]]; auto.
      * simpl in Hx. rewrite ?Hu in Hx. exfalso. apply Hnek. symmetry.
        eapply Hunique; eauto. congruence.
      * simpl in Hx'. rewrite ?Hu in Hx'. exfalso. apply Hnej.
        eapply Hunique; eauto. congruence.
      * eapply Hunique; eauto.
    + intros u0. rewrite Hcre. apply Hfresh.
  - simpl. exists []. rewrite !app_nil_r.
    split; [reflexivity|]. split; [reflexivity|]. split; [apply length_insert|].
    intros hu Hruns Hum.
    constructor.
    + intros j x Hj Hx. rewrite Hruns in Hj.
      destruct (Hlook _ j x eq_refl Hj) as [[-> ->]|[Hne Hold]]; [discriminate|].
      rewrite (Hinactive j x Hne Hold) in Hx. discriminate.
    + rewrite Hum. discriminate.
    + intros j x u0 Hj Hx. rewrite Hruns in Hj.
      destruct (Hlook _ j x eq_refl Hj) as [[-> ->]|[Hne Hold]].
      * simpl in Hx. congruence.
      * eauto.
    + intros u0 Hu0. rewrite Hruns.
      destruct (Howner u0 Hu0) as (j & y & Hy & Huy).
      exists j, y. split; [|exact Huy].
      rewrite list_lookup_insert_ne; [exact Hy|]. intros <-. congruence.
    + intros j k x x' u0 Hj Hk Hx Hx'. rewrite Hruns in Hj, Hk.
      destruct (Hlook _ j x eq_refl Hj) as [[-> ->]|[Hnej Holdj]];
        destruct (Hlook _ k x' eq_refl Hk) as [[-> ->]|[Hnek Holdk]]; auto;
        try (simpl in *; congruence).
      eapply Hunique; eauto.
    + exact Hfresh.
Qed.

(** A new effect on a hook whose effects are all cleaned up. *)
Lemma start_disciplined (hu h' : Resolver.Hook) (m : nat) (l : list Effect)
    (uri : option string) (aw : option string) :
  disciplined hu m l -> Resolver.mounted hu = false ->
  Resolver.runs h' = Resolver.runs hu ++ [Resolver.mkRun uri true None aw] ->
  Resolver.mounted h' = true ->
  disciplined h' m l.
Proof.
  intros [Hactive Hlast Howned Howner Hunique Hfresh] Hum Hruns Hm.
  assert (Hlook : forall j x, Resolver.runs h' !! j = Some x ->
            (j = length (Resolver.runs hu) /\ x = Resolver.mkRun uri true None aw)
            \/ Resolver.runs hu !! j = Some x).
  { intros j x Hj. rewrite Hruns in Hj.
    apply lookup_app_Some in Hj as [Hj|[Hge Hj]]; [auto|].
    left. destruct (j - length (Resolver.runs hu)) eqn:Hd; [|discriminate].
    injection Hj as <-. split; [lia|reflexivity]. }
  constructor.
  - intros j x Hj Hx. rewrite Hm, Hruns, length_app. simpl.
    destruct (Hlook j x Hj) as [[-> ->]|Hold]; [split; [reflexivity|lia]|].
    destruct (Hactive j x Hold Hx) as [Hcontra _]. congruence.
  - intros _. exists (Resolver.mkRun uri true None aw). rewrite Hruns, length_app. simpl.
    split; [|reflexivity].
    replace (length (Resolver.runs hu) + 1 - 1) with (length (Resolver.runs hu) + 0) by lia.
    rewrite lookup_app_r by lia.
    replace (length (Resolver.runs hu) + 0 - length (Resolver.runs hu)) with 0 by lia.
    reflexivity.
  - intros j x u Hj Hx. destruct (Hlook j x Hj) as [[-> ->]|Hold]; [discriminate|eauto].
  - intros u Hu. destruct (Howner u Hu) as (j & y & Hy & Huy).
    exists j, y. split; [|exact Huy]. rewrite Hruns. apply lookup_app_l_Some, Hy.
  - intros j k x x' u Hj Hk Hx Hx'.
    destruct (Hlook j x Hj) as [[-> ->]|Holdj]; [discriminate|].
    destruct (Hlook k x' Hk) as [[-> ->]|Holdk]; [discriminate|].
    eapply Hunique; eauto.
  - exact Hfresh.
Qed.

End HookRun.

Section HookSchedules.
Context `{Platform}.

Lemma startEffect_runs (uri : option string) (h : Resolver.Hook) :
  exists aw,
    Resolver.runs (Resolver.startEffect uri h)
    = Resolver.runs h ++ [Resolver.mkRun uri true None aw]
    /\ Resolver.mounted (Resolver.startEffect uri h) = Resolver.mounted h.
Proof.
  unfold Resolver.startEffect.
  destruct (negb (truthy_opt uri)); [simpl; eauto|].
  destruct (negb (MediaStore.isIdbUri _)); simpl; eauto.
Qed.

Lemma cleanup_mounted (i : nat) (h : Resolver.Hook) (w : World) :
  Resolver.mounted (fst (Resolver.cleanup i h w)) = Resolver.mounted h.
Proof.
  unfold Resolver.cleanup. destruct (Resolver.runs h !! i) as [r|]; [|reflexivity].
  destruct (Resolver.objectUrl r) as [u|]; [destruct (truthy u)|]; reflexivity.
Qed.

Lemma settle_disciplined (i : nat) (h : Resolver.Hook) (w : World) (l : list Effect) :
  disciplined h (minted w) l ->
  exists es,
    trace (snd (Resolver.settle i h w)) = trace w ++ es
    /\ disciplined (fst (Resolver.settle i h w)) (minted (snd (Resolver.settle i h w)))
         (l ++ es).
Proof.
  intros Hd.
  assert (Hsame : exists es, trace w = trace w ++ es /\ disciplined h (minted w) (l ++ es)).
  { exists []. rewrite !app_nil_r. auto. }
  unfold Resolver.settle.
  destruct (Resolver.runs h !! i) as [r|] eqn:Hi; [|exact Hsame].
  destruct (Resolver.awaiting r) as [key|] eqn:Hkey; [|exact Hsame].
  pose proof (getMedia_world key w) as Hw.
  destruct (MediaStore.getMedia key w) as [[blob|e] w']; simpl in Hw; subst w'.
  - destruct (Resolver.active r) eqn:Hact; simpl.
    + destruct blob as [b|]; simpl.
      * exists [CreateObjectURL ("blob:" +:+ pretty (minted w))].
        split; [reflexivity|].
        eapply (mint_disciplined h _ (minted w) l i r key Hd Hi Hkey Hact);
          first [reflexivity | simpl; congruence].
      * exists [ConsoleWarn "useResolvedMediaUrl"]. split; [reflexivity|].
        apply (disciplined_more _ (minted w)); [|simpl; lia|reflexivity|discriminate].
        eapply (update_disciplined h _ (minted w) l i r _ Hd Hi);
          first [reflexivity | simpl; congruence].
    + exists []. rewrite !app_nil_r. split; [reflexivity|].
      eapply (update_disciplined h _ (minted w) l i r _ Hd Hi);
        first [reflexivity | simpl; congruence].
  - exists []. rewrite !app_nil_r. split; [reflexivity|].
    eapply (update_disciplined h _ (minted w) l i r _ Hd Hi);
      first [reflexivity | simpl; congruence].
Qed.

Lemma step_disciplined (a : Resolver.Action) (h : Resolver.Hook) (w : World)
    (l : list Effect) :
  disciplined h (minted w) l ->
  exists es,
    trace (snd (Resolver.step a (h, w))) = trace w ++ es
    /\ disciplined (fst (Resolver.step a (h, w))) (minted (snd (Resolver.step a (h, w))))
         (l ++ es).
Proof.
  intros Hd.
  assert (Hsame : exists es, trace w = trace w ++ es /\ disciplined h (minted w) (l ++ es)).
  { exists []. rewrite !app_nil_r. auto. }
  destruct a as [uri| |i]; simpl.
  - destruct (Resolver.mounted h) eqn:Hm; simpl; [|exact Hsame].
    destruct (bool_decide _); [exact Hsame|].
    destruct (cleanup_disciplined h w (minted w) l Hd Hm) as (es & Htrace & Hminted & _ & Hclean).
    pose proof (cleanup_mounted (length (Resolver.runs h) - 1) h w) as Hm'.
    destruct (Resolver.cleanup (length (Resolver.runs h) - 1) h w) as [h' w'].
    simpl in *. exists es. split; [exact Htrace|]. rewrite Hminted.
    destruct (startEffect_runs uri h') as (aw & Hruns & Hmounted).
    eapply (start_disciplined
              (Resolver.mkHook (Resolver.url h') (Resolver.runs h') false
                 (Resolver.unhandled h'))).
    + apply Hclean; reflexivity.
    + reflexivity.
    + exact Hruns.
    + congruence.
  - destruct (Resolver.mounted h) eqn:Hm; simpl; [|exact Hsame].
    destruct (cleanup_disciplined h w (minted w) l Hd Hm) as (es & Htrace & Hminted & _ & Hclean).
    destruct (Resolver.cleanup (length (Resolver.runs h) - 1) h w) as [h' w'].
    simpl in *. exists es. split; [exact Htrace|]. rewrite Hminted.
    apply Hclean; reflexivity.
  - apply settle_disciplined, Hd.
Qed.

Lemma steps_disciplined (acts : list Resolver.Action) : forall h w l,
  disciplined h (minted w) l ->
  exists es,
    trace (snd (Resolver.steps acts (h, w))) = trace w ++ es
    /\ disciplined (fst (Resolver.steps acts (h, w)))
         (minted (snd (Resolver.steps acts (h, w)))) (l ++ es).
Proof.
  induction acts as [|a acts IH]; intros h w l Hd.
  - exists []. simpl. rewrite !app_nil_r. auto.
  - change (Resolver.steps (a :: acts) (h, w))
      with (Resolver.steps acts (Resolver.step a (h, w))).
    destruct (step_disciplined a h w l Hd) as (es1 & Ht1 & Hd1).
    destruct (Resolver.step a (h, w)) as [h1 w1]. simpl in Ht1, Hd1.
    destruct (IH h1 w1 _ Hd1) as (es2 & Ht2 & Hd2).
    exists (es1 ++ es2). rewrite Ht2, Ht1, <- !app_assoc. split; [reflexivity|].
    rewrite <- app_assoc in Hd2. exact Hd2.
Qed.

Lemma unmount_unmounted (h : Resolver.Hook) (w : World) :
  Resolver.mounted (fst (Resolver.step Resolver.Unmount (h, w))) = false.
Proof.
  simpl. destruct (Resolver.mounted h) eqn:Hm; simpl; [|exact Hm].
  destruct (Resolver.cleanup _ h w). reflexivity.
Qed.

(** What the discipline says of the effects [es] made since the mount. *)
Lemma disciplined_counts (h : Resolver.Hook) (m : nat) (es : list Effect) (u : string) :
  disciplined h m es ->
  revoked u es <= 1
  /\ (Resolver.mounted h = false -> 0 < created u es -> revoked u es = 1).
Proof.
  intros [Hactive _ Howned Howner _ _].
  assert (Hheld : 0 < created u es + revoked u es ->
            (revoked u es = 0 \/ revoked u es = 1)
            /\ (Resolver.mounted h = false -> revoked u es = 1)).
  { intros Hu. destruct (Howner u Hu) as (i & r & Hi & Hr).
    destruct (Howned i r u Hi Hr) as (_ & _ & Hc & Hrev).
    destruct (Resolver.active r) eqn:Hact.
    - split; [auto|]. intros Hm. destruct (Hactive i r Hi Hact) as [Hm' _]. congruence.
    - split; [auto|]. intros _. exact Hrev. }
  split.
  - destruct (revoked u es) eqn:Hr; [lia|]. destruct Hheld as ([?|?] & _); lia.
  - intros Hm Hc. apply Hheld; [lia|exact Hm].
Qed.

(** The resolver hook keeps the handle discipline: for every argument,
    every world and every schedule of renders, unmounts and settled
    requests, no URL is revoked twice; and when the schedule ends with the
    unmount, every URL the hook minted has been revoked exactly once. *)
Theorem hook_releases_exactly_once (uri : option string) (w0 : World)
    (acts : list Resolver.Action) (u : string) :
  revoked u (added w0 (snd (Resolver.steps acts (Resolver.mount uri, w0)))) <= 1
  /\ (0 < created u (added w0 (snd (Resolver.steps (acts ++ [Resolver.Unmount])
                                      (Resolver.mount uri, w0)))) ->
      revoked u (added w0 (snd (Resolver.steps (acts ++ [Resolver.Unmount])
                                  (Resolver.mount uri, w0)))) = 1).
Proof.
  split.
  - destruct (steps_disciplined acts (Resolver.mount uri) w0 []
                (mount_disciplined uri (minted w0))) as (es & Htrace & Hd).
    rewrite (added_app _ _ _ Htrace). simpl in Hd.
    apply (disciplined_counts _ _ es u Hd).
  - destruct (steps_disciplined (acts ++ [Resolver.Unmount]) (Resolver.mount uri) w0 []
                (mount_disciplined uri (minted w0))) as (es & Htrace & Hd).
    rewrite (added_app _ _ _ Htrace). simpl in Hd.
    apply (disciplined_counts _ _ es u Hd).
    unfold Resolver.steps. rewrite fold_left_app. simpl.
    destruct (fold_left _ acts _) as [h1 w1]. apply unmount_unmounted.
Qed.

End HookSchedules.

(** A hook whose argument changes while the first request is in flight:
    the stale result is dropped without minting, the second request mints one
    URL, and the unmount revokes it. *)
Example hook_supersession :
  let P := Demo.platform 1000 [] in
  let out :=
    Resolver.steps
      [Resolver.Render (Some "idb:e5"); Resolver.Settle 0; Resolver.Settle 1;
       Resolver.Unmount]
      (Resolver.mount (Some "idb:e3"), Demo.worldWithClips) in
  trace (snd out) = [CreateObjectURL "blob:0"; RevokeObjectURL "blob:0"]
  /\ Resolver.objectUrl <$> Resolver.runs (fst out) = [None; Some "blob:0"].
Proof. vm_compute. split; reflexivity. Qed.

(** * More of the code *)

(** ** What the overflow migration keeps and what it stores *)

Lemma keepsBlobs_refl w : keepsBlobs w w.
Proof. intros k Hk. exact Hk. Qed.

Lemma keepsBlobs_trans w1 w2 w3 : keepsBlobs w1 w2 -> keepsBlobs w2 w3 -> keepsBlobs w1 w3.
Proof. intros H12 H23 k Hk. apply H23, H12, Hk. Qed.

Section MigrationFrame.
Context `{Platform}.

Lemma putMedia_keeps key blob w :
  keepsBlobs w (snd (MediaStore.putMedia key blob w))
  /\ (forall w', MediaStore.putMedia key blob w = (Ok tt, w') -> mediaDb w' !! key = Some blob).
Proof.
  unfold MediaStore.putMedia, MediaStore.openDb, bind.
  destruct (idbFault (mediaDb w) IdbOpen); simpl.
  { split; [apply keepsBlobs_refl|discriminate]. }
  destruct (idbFault (mediaDb w) (IdbWrite key)); simpl.
  { split; [intros k Hk; exact Hk|discriminate]. }
  split.
  - intros k Hk. simpl. destruct (decide (key = k)) as [<-|Hne].
    + rewrite lookup_insert_eq. eauto.
    + rewrite lookup_insert_ne by exact Hne. exact Hk.
  - intros w' [= <-]. simpl. apply lookup_insert_eq.
Qed.

Lemma migrateEntry_frame entry w :
  keepsBlobs w (snd (Capture.migrateEntry entry w))
  /\ (forall migrated w', Capture.migrateEntry entry w = (Ok migrated, w') ->
        inline entry = true ->
        migratedFrom entry migrated /\ is_Some (mediaDb w' !! Entry.id entry)).
Proof.
  unfold Capture.migrateEntry, bind, MediaStore.dataUrlToBlob.
  destruct (fetchBlob (Entry.mediaUri entry)) as [blob|e]; simpl.
  2:{ split; [apply keepsBlobs_refl|discriminate]. }
  destruct (putMedia_keeps (Entry.id entry) blob w) as [Hkeep Hstored].
  destruct (negb (truthy_opt (Entry.thumbUri entry))
            && bool_decide (Entry.mediaType entry = photo)) eqn:Hthumb;
    unfold Capture.makePhotoThumbFromDataUrl, ret; simpl;
    destruct (MediaStore.putMedia (Entry.id entry) blob w) as [[[]|e] w1]; simpl in *;
    (split; [exact Hkeep|]); try discriminate;
    intros migrated w' [= <- <-] Hinline;
    (split; [|rewrite (Hstored w1 eq_refl); eauto]);
    right; repeat (split; [first [exact Hinline | reflexivity]|]).
  - intros [Htruthy|Hvideo].
    + apply andb_prop in Hthumb as [Hno _]. rewrite Htruthy in Hno. discriminate.
    + apply andb_prop in Hthumb as [_ Hphoto]. apply bool_decide_eq_true in Hphoto.
      congruence.
  - intros _. reflexivity.
Qed.

(** The loop, entry by entry. *)
Lemma migrateLoop_frame entries : forall updated w,
  exists migrated w',
    Capture.migrateLoop entries updated w = (Ok (updated ++ migrated), w')
    /\ Forall2 (fun e e' => migratedFrom e e'
                            /\ (e' <> e -> is_Some (mediaDb w' !! Entry.id e)))
         entries migrated
    /\ keepsBlobs w w'.
Proof.
  induction entries as [|entry rest IH]; intros updated w; simpl.
  - exists [], w. rewrite app_nil_r. split; [reflexivity|]. split; [constructor|].
    apply keepsBlobs_refl.
  - assert (Hkept : forall w1,
              keepsBlobs w w1 ->
              exists migrated w',
                Capture.migrateLoop rest (updated ++ [entry]) w1
                = (Ok (updated ++ migrated), w')
                /\ Forall2 (fun e e' => migratedFrom e e'
                                        /\ (e' <> e -> is_Some (mediaDb w' !! Entry.id e)))
                     (entry :: rest) migrated
                /\ keepsBlobs w w').
    { intros w1 Hw1.
      destruct (IH (updated ++ [entry]) w1) as (ms & w' & Hrun & Hall & Hkeep).
      exists (entry :: ms), w'. rewrite Hrun, <- app_assoc. split; [reflexivity|].
      split; [|eapply keepsBlobs_trans; eassumption].
      constructor; [|exact Hall]. split; [left; reflexivity|congruence]. }
    destruct (startsWith "data:" (Entry.mediaUri entry)) eqn:Hinline;
      [|apply Hkept, keepsBlobs_refl].
    unfold bind at 1. unfold try_catch, bind at 1.
    destruct (migrateEntry_frame entry w) as [Hkeep1 Hframe].
    destruct (Capture.migrateEntry entry w) as [[migrated|e] w1]; simpl in *;
      [|apply Hkept, Hkeep1].
    destruct (Hframe migrated w1 eq_refl Hinline) as [Hfrom Hstored].
    destruct (IH (updated ++ [migrated]) w1) as (ms & w' & Hrun & Hall & Hkeep).
    exists (migrated :: ms), w'. rewrite Hrun, <- app_assoc. split; [reflexivity|].
    split; [|eapply keepsBlobs_trans; eassumption].
    constructor; [|exact Hall]. split; [exact Hfrom|]. intros _. apply Hkeep, Hstored.
Qed.

(** The overflow migration returns the timeline entry by entry, in the same
    order: an entry comes back as it was, or, when it was inline, with its
    media replaced by the reference idb:<its id>; id, createdAt, mediaType and
    textBlocks never change, and a thumbnail is only ever added to a photo
    that had none. The timeline slot is not touched. *)
Theorem migrateTimelineMedia_frame (entries : list Entry.t) (w : World) :
  exists migrated w',
    Capture.migrateTimelineMedia entries w = (Ok migrated, w')
    /\ Forall2 migratedFrom entries migrated
    /\ localStorage w' = localStorage w.
Proof.
  destruct (migrateLoop_frame entries [] w) as (migrated & w' & Hrun & Hall & _).
  destruct (migrateLoop_total entries [] w) as (m2 & w2 & Hrun2 & _ & Hquiet & _).
  exists migrated, w'. split; [exact Hrun|].
  split; [eapply Forall2_impl; [exact Hall|]; intros e e' [Hfrom _]; exact Hfrom|].
  simpl in Hrun. rewrite Hrun in Hrun2. injection Hrun2 as <- <-. exact Hquiet.
Qed.

(** Reference integrity of the migration: every entry whose media reference
    it changed now refers to a key under which the blob store holds a
    payload, and no key of the blob store is lost. *)
Theorem migrateTimelineMedia_stores_what_it_references (entries : list Entry.t) (w : World) :
  exists migrated w',
    Capture.migrateTimelineMedia entries w = (Ok migrated, w')
    /\ (forall i e e', entries !! i = Some e -> migrated !! i = Some e' ->
          Entry.mediaUri e' <> Entry.mediaUri e ->
          Entry.mediaUri e' = MediaStore.toIdbUri (Entry.id e)
          /\ is_Some (mediaDb w' !! Entry.id e))
    /\ keepsBlobs w w'.
Proof.
  destruct (migrateLoop_frame entries [] w) as (migrated & w' & Hrun & Hall & Hkeep).
  exists migrated, w'. split; [exact Hrun|]. split; [|exact Hkeep].
  intros i e e' Hi Hi' Hchanged.
  destruct (Forall2_lookup_lr _ _ _ i e e' Hall Hi Hi') as [Hfrom Hstored].
  destruct Hfrom as [->|(_ & _ & _ & _ & _ & Huri & _)]; [congruence|].
  split; [exact Huri|]. apply Hstored. intros ->. congruence.
Qed.

Lemma migrateEntry_succeeds entry w :
  (forall store op, idbFault store op = None) ->
  (exists blob, fetchBlob (Entry.mediaUri entry) = Ok blob) ->
  exists migrated w', Capture.migrateEntry entry w = (Ok migrated, w').
Proof.
  intros Hdb [blob Hfetch].
  unfold Capture.migrateEntry, bind, MediaStore.dataUrlToBlob, MediaStore.putMedia,
    MediaStore.openDb, bind.
  rewrite Hfetch. simpl.
  destruct (negb (truthy_opt (Entry.thumbUri entry))
            && bool_decide (Entry.mediaType entry = photo));
    unfold Capture.makePhotoThumbFromDataUrl, ret; simpl; rewrite !Hdb; simpl; eauto.
Qed.

Lemma migrateLoop_complete entries : forall updated w,
  (forall store op, idbFault store op = None) ->
  Forall (fun e => inline e = true -> exists blob, fetchBlob (Entry.mediaUri e) = Ok blob)
    entries ->
  exists migrated w',
    Capture.migrateLoop entries updated w = (Ok (updated ++ migrated), w')
    /\ Forall (fun e => inline e = false) migrated.
Proof.
  induction entries as [|entry rest IH]; intros updated w Hdb Hfetch; simpl.
  - exists [], w. rewrite app_nil_r. auto.
  - inversion Hfetch as [|? ? Hentry Hrest]; subst.
    destruct (startsWith "data:" (Entry.mediaUri entry)) eqn:Hinline.
    + unfold bind at 1. unfold try_catch, bind at 1.
      destruct (migrateEntry_succeeds entry w Hdb (Hentry Hinline)) as (m & w1 & Hm).
      rewrite Hm. simpl.
      destruct (migrateEntry_reference entry w m w1 Hm) as [_ Hm'].
      destruct (IH (updated ++ [m]) w1 Hdb Hrest) as (ms & w' & Hrun & Hall).
      exists (m :: ms), w'. rewrite Hrun, <- app_assoc. auto.
    + destruct (IH (updated ++ [entry]) w Hdb Hrest) as (ms & w' & Hrun & Hall).
      exists (entry :: ms), w'. rewrite Hrun, <- app_assoc. auto.
Qed.

(** Migration idempotence. When IndexedDB does not fail and every inline
    data URL can be fetched, the migration leaves no inline entry, and
    running it again on its result changes neither the timeline nor the
    world. *)
Theorem migrateTimelineMedia_idempotent (entries : list Entry.t) (w : World) :
  (forall store op, idbFault store op = None) ->
  Forall (fun e => inline e = true -> exists blob, fetchBlob (Entry.mediaUri e) = Ok blob)
    entries ->
  exists migrated w',
    Capture.migrateTimelineMedia entries w = (Ok migrated, w')
    /\ Forall (fun e => inline e = false) migrated
    /\ Capture.migrateTimelineMedia migrated w' = (Ok migrated, w').
Proof.
  intros Hdb Hfetch.
  destruct (migrateLoop_complete entries [] w Hdb Hfetch) as (migrated & w' & Hrun & Hall).
  exists migrated, w'. split; [exact Hrun|]. split; [exact Hall|].
  unfold Capture.migrateTimelineMedia. rewrite (migrateLoop_skip migrated [] w' Hall).
  reflexivity.
Qed.

End MigrationFrame.

(** Two runs over two inline photos and a referenced video on the demo
    platform. *)
Lemma migrateTimelineMedia_idempotent_witness :
  let P := Demo.platform 1000 [] in
  exists migrated w',
    Capture.migrateTimelineMedia [Demo.photo1; Demo.photo2; Demo.video3] Demo.emptyWorld
    = (Ok migrated, w')
    /\ Entry.mediaUri <$> migrated = ["idb:e1"; "idb:e2"; "idb:e3"]
    /\ Capture.migrateTimelineMedia migrated w' = (Ok migrated, w').
Proof.
  intros P.
  destruct (migrateTimelineMedia_idempotent (H := P)
              [Demo.photo1; Demo.photo2; Demo.video3] Demo.emptyWorld)
    as (migrated & w' & Hrun & _ & Hagain).
  { reflexivity. }
  { repeat constructor; intros _; eexists; reflexivity. }
  exists migrated, w'. split; [exact Hrun|]. split; [|exact Hagain].
  vm_compute in Hrun. injection Hrun as <- _. reflexivity.
Defined.

(** ** Writes that fail, and what a save leaves behind *)

Section Writes.
Context `{Platform}.

Lemma readTimeline_same_slot (w w1 : World) (timeline : list Entry.t) :
  readTimeline w = (Ok timeline, w) -> localStorage w1 = localStorage w ->
  readTimeline w1 = (Ok timeline, w1).
Proof.
  rewrite !readTimeline_unfold. intros [= Ht] Hslot. rewrite Hslot, Ht. reflexivity.
Qed.

(** What the capture page's [writeTimeline] does to the two stores. *)
Lemma capture_writeTimeline_stores (entries : list Entry.t) (w : World) :
  keepsBlobs w (snd (Capture.writeTimeline entries w))
  /\ (fst (Capture.writeTimeline entries w) = Ok tt ->
      exists migrated,
        Forall2 migratedFrom entries migrated
        /\ localStorage (snd (Capture.writeTimeline entries w))
           = <[KEY := JSON_stringify migrated]> (localStorage w))
  /\ (forall e, fst (Capture.writeTimeline entries w) = Throw e ->
        localStorage (snd (Capture.writeTimeline entries w)) = localStorage w).
Proof.
  destruct (storageFault (localStorage w) KEY (JSON_stringify entries)) as [err|] eqn:Hfault.
  - destruct (Capture.isQuotaExceeded err) eqn:Hquota.
    + rewrite (writeTimeline_after_quota entries w err Hfault Hquota). unfold bind.
      destruct (migrateLoop_frame entries [] (emit (SetItem KEY (JSON_stringify entries)) w))
        as (migrated & w1 & Hrun & Hall & Hkeep).
      destruct (migrateLoop_total entries [] (emit (SetItem KEY (JSON_stringify entries)) w))
        as (m2 & w2 & Hrun2 & _ & Hslot & _).
      simpl in Hrun. rewrite Hrun in Hrun2. injection Hrun2 as <- <-.
      fold (Capture.migrateTimelineMedia entries) in Hrun. rewrite Hrun.
      simpl in Hslot. unfold setItem.
      destruct (storageFault (localStorage w1) KEY (JSON_stringify migrated)); simpl.
      * split; [exact Hkeep|]. split; [discriminate|]. intros _ _. exact Hslot.
      * split; [exact Hkeep|]. split; [|discriminate]. intros _.
        exists migrated. rewrite Hslot.
        split; [eapply Forall2_impl; [exact Hall|]; intros e e' [Hfrom _]; exact Hfrom|].
        reflexivity.
    + assert (Hrun : Capture.writeTimeline entries w
                     = (Throw err, emit (SetItem KEY (JSON_stringify entries)) w)).
      { unfold Capture.writeTimeline, try_catch, setItem. unfold bind at 1 2.
        rewrite Hfault. simpl. rewrite Hquota. reflexivity. }
      rewrite Hrun. simpl. split; [intros k Hk; exact Hk|]. split; [discriminate|auto].
  - rewrite (writeTimeline_first_write_ok entries w Hfault). simpl.
    split; [intros k Hk; exact Hk|]. split; [|discriminate]. intros _.
    exists entries. split; [|reflexivity].
    apply Forall2_same_length_lookup. split; [reflexivity|].
    intros i e e' Hi Hi'. left. congruence.
Qed.

Lemma keepsSlot_failsClean {A} (m : M A) : keepsSlot m -> failsClean m.
Proof. intros Hm w e _. apply Hm. Qed.

Lemma ret_keepsSlot {A} (a : A) : keepsSlot (ret a).
Proof. intros w. reflexivity. Qed.

Lemma bind_failsClean {A B} (m : M A) (k : A -> M B) :
  keepsSlot m -> (forall a, failsClean (k a)) -> failsClean (bind m k).
Proof.
  intros Hm Hk w e. unfold bind. specialize (Hm w).
  destruct (m w) as [[a|e1] w1]; simpl in *; [|intros _; exact Hm].
  intros Hthrow. rewrite (Hk a w1 e Hthrow). exact Hm.
Qed.

Lemma bind_ret_failsClean {A B} (m : M A) (b : B) :
  failsClean m -> failsClean (bind m (fun _ => ret b)).
Proof.
  intros Hm w e. unfold bind, ret. specialize (Hm w).
  destruct (m w) as [[a|e1] w1]; simpl in *; [discriminate|].
  intros _. apply (Hm e1). reflexivity.
Qed.

Lemma readTimeline_keepsSlot : keepsSlot readTimeline.
Proof. intros w. rewrite readTimeline_unfold. reflexivity. Qed.

Lemma putMedia_keepsSlot key blob : keepsSlot (MediaStore.putMedia key blob).
Proof. intros w. apply putMedia_quiet. Qed.

Lemma write_then_dispatch_failsClean (doc : string) :
  failsClean (bind (setItem KEY doc) (fun _ => dispatchEvent EVT)).
Proof.
  intros w e. rewrite write_then_dispatch.
  destruct (storageFault (localStorage w) KEY doc); [reflexivity|discriminate].
Qed.

Lemma capture_writeTimeline_failsClean entries : failsClean (Capture.writeTimeline entries).
Proof. intros w e. apply capture_writeTimeline_stores. Qed.

(** A write that throws leaves the stored timeline as it was: for the
    capture page's [writeTimeline] (whichever of its two writes failed), the
    notes write, the thumbnail write-back, [onSaveNotes] and [onSave]. *)
Theorem failed_write_keeps_document :
  (forall entries w e,
     fst (Capture.writeTimeline entries w) = Throw e ->
     localStorage (snd (Capture.writeTimeline entries w)) = localStorage w)
  /\ (forall timeline w e,
        fst (EntryClient.writeTimeline timeline w) = Throw e ->
        localStorage (snd (EntryClient.writeTimeline timeline w)) = localStorage w)
  /\ (forall entryId thumbUri w e,
        fst (VideoThumb.writeBackThumb entryId thumbUri w) = Throw e ->
        localStorage (snd (VideoThumb.writeBackThumb entryId thumbUri w)) = localStorage w)
  /\ (forall entry draft now uuid w e,
        fst (EntryClient.onSaveNotes entry draft now uuid w) = Throw e ->
        localStorage (snd (EntryClient.onSaveNotes entry draft now uuid w)) = localStorage w)
  /\ (forall captured note now entryId noteId w e,
        fst (Capture.onSave captured note now entryId noteId w) = Throw e ->
        localStorage (snd (Capture.onSave captured note now entryId noteId w))
        = localStorage w).
Proof.
  split; [|split; [|split; [|split]]].
  - intros entries. apply capture_writeTimeline_failsClean.
  - intros timeline. apply write_then_dispatch_failsClean.
  - intros entryId thumbUri. apply bind_failsClean; [apply readTimeline_keepsSlot|].
    intros timeline. apply write_then_dispatch_failsClean.
  - intros [entry|] draft now uuid; [|apply keepsSlot_failsClean, ret_keepsSlot].
    apply bind_failsClean; [apply readTimeline_keepsSlot|]. intros timeline.
    destruct (EntryClient.findIndex _ _) as [idx|];
      [|apply keepsSlot_failsClean, ret_keepsSlot].
    destruct (_ !! idx) as [cur|]; [|apply keepsSlot_failsClean, ret_keepsSlot].
    apply bind_ret_failsClean, write_then_dispatch_failsClean.
  - intros captured note now entryId noteId. unfold Capture.onSave.
    destruct captured as [c|]; [|apply keepsSlot_failsClean, ret_keepsSlot].
    destruct (Capture.cap_blob c) as [blob|]; [|apply keepsSlot_failsClean, ret_keepsSlot].
    destruct (Capture.blob_size blob =? 0)%nat;
      [apply keepsSlot_failsClean, ret_keepsSlot|].
    destruct (_ && _); [apply keepsSlot_failsClean, ret_keepsSlot|].
    apply bind_failsClean; [apply putMedia_keepsSlot|]. intros _.
    apply bind_failsClean; [apply readTimeline_keepsSlot|]. intros timeline.
    apply bind_ret_failsClean, capture_writeTimeline_failsClean.
Qed.

End Writes.

(** The fatal second overflow of the capture page on the demo platform: the
    slot still holds the old document. *)
Lemma failed_write_keeps_document_witness :
  let P := Demo.platform 500 [] in
  let w := Demo.worldWith "[]" in
  let out := Capture.writeTimeline [Demo.photo1; Demo.photo2; Demo.video3] w in
  fst out = Throw (DOMException "QuotaExceededError")
  /\ localStorage (snd out) !! KEY = Some "[]".
Proof.
  intros P w out.
  assert (Hthrow : fst out = Throw (DOMException "QuotaExceededError")).
  { vm_compute. reflexivity. }
  split; [exact Hthrow|].
  destruct (failed_write_keeps_document (H := P)) as [Hcapture _].
  subst out. rewrite (Hcapture _ _ _ Hthrow). reflexivity.
Defined.

(** ** Saving a capture *)

Section Save.
Context `{Platform}.

Lemma capturedEntry_not_inline c note now entryId noteId :
  inline (capturedEntry c note now entryId noteId) = false.
Proof. apply isIdbUri_not_inline, isIdbUri_toIdbUri. Qed.

(** With the Save button enabled, [onSave] is the blob put, the read and
    the write, in this order. *)
Lemma onSave_enabled captured note now entryId noteId :
  Capture.saveDisabled captured = false ->
  exists c blob,
    captured = Some c /\ Capture.cap_blob c = Some blob
    /\ Capture.onSave captured note now entryId noteId
       = bind (MediaStore.putMedia entryId blob)
           (fun _ => bind readTimeline
              (fun timeline =>
                 bind (Capture.writeTimeline
                         (capturedEntry c note now entryId noteId :: timeline))
                   (fun _ => ret (Capture.RouterPush "/")))).
Proof.
  unfold Capture.saveDisabled, Capture.onSave. intros Henabled.
  destruct captured as [c|]; [|discriminate].
  destruct (Capture.cap_blob c) as [blob|] eqn:Hblob; [|discriminate].
  apply orb_false_elim in Henabled as [Hsize Hthumb]. rewrite Hsize, Hthumb.
  exists c, blob. split; [reflexivity|]. split; [exact Hblob|reflexivity].
Qed.

Lemma onSave_disabled captured note now entryId noteId w :
  Capture.saveDisabled captured = true ->
  exists message,
    Capture.onSave captured note now entryId noteId w = (Ok (Capture.CaptureError message), w).
Proof.
  unfold Capture.saveDisabled, Capture.onSave. intros Hdisabled.
  destruct captured as [c|]; [|eexists; reflexivity].
  destruct (Capture.cap_blob c) as [blob|]; [|eexists; reflexivity].
  destruct (Capture.blob_size blob =? 0)%nat; [eexists; reflexivity|].
  simpl in Hdisabled. rewrite Hdisabled. eexists. reflexivity.
Qed.

(** [onSave] refuses exactly when the Save button is disabled: then it only
    sets an error message and touches neither store; with the button
    enabled it never ends in an error message (it saves and navigates, or
    throws). *)
Theorem onSave_refuses_iff_disabled captured note now entryId noteId (w : World) :
  (Capture.saveDisabled captured = true ->
   exists message,
     Capture.onSave captured note now entryId noteId w
     = (Ok (Capture.CaptureError message), w))
  /\ (Capture.saveDisabled captured = false ->
      forall message,
        fst (Capture.onSave captured note now entryId noteId w)
        <> Ok (Capture.CaptureError message)).
Proof.
  split; [apply onSave_disabled|].
  intros Henabled message.
  destruct (onSave_enabled captured note now entryId noteId Henabled)
    as (c & blob & _ & _ & ->).
  unfold bind.
  destruct (MediaStore.putMedia entryId blob w) as [[[]|e] w1]; [|discriminate].
  destruct (readTimeline w1) as [[timeline|e] w2]; [|discriminate].
  destruct (Capture.writeTimeline _ w2) as [[[]|e] w3]; discriminate.
Qed.

(** When [onSave] navigates to the timeline, the stored timeline is the new
    entry (referring to idb:<entryId>) followed by the entries that were
    stored, each as the migration leaves it, and the blob store holds a
    payload under [entryId] and under every key it had. *)
Theorem onSave_indexes_stored_blob captured note now entryId noteId (w : World)
    (timeline : list Entry.t) (href : string) :
  readTimeline w = (Ok timeline, w) ->
  fst (Capture.onSave captured note now entryId noteId w) = Ok (Capture.RouterPush href) ->
  exists c rest,
    captured = Some c
    /\ href = "/"
    /\ localStorage (snd (Capture.onSave captured note now entryId noteId w))
       = <[KEY := JSON_stringify (capturedEntry c note now entryId noteId :: rest)]>
           (localStorage w)
    /\ Forall2 migratedFrom timeline rest
    /\ is_Some (mediaDb (snd (Capture.onSave captured note now entryId noteId w)) !! entryId)
    /\ keepsBlobs w (snd (Capture.onSave captured note now entryId noteId w)).
Proof.
  intros Hread Hpush.
  destruct (Capture.saveDisabled captured) eqn:Hdisabled.
  { destruct (onSave_disabled captured note now entryId noteId w Hdisabled) as [m Hm].
    rewrite Hm in Hpush. discriminate. }
  destruct (onSave_enabled captured note now entryId noteId Hdisabled)
    as (c & blob & -> & _ & Hrun).
  rewrite Hrun in *. clear Hrun. unfold bind in *.
  destruct (putMedia_keeps entryId blob w) as [Hkeep1 Hstored].
  pose proof (putMedia_keepsSlot entryId blob w) as Hslot1.
  destruct (MediaStore.putMedia entryId blob w) as [[[]|e] w1]; [|discriminate].
  simpl in Hkeep1, Hslot1. specialize (Hstored w1 eq_refl).
  rewrite (readTimeline_same_slot w w1 timeline Hread Hslot1) in *.
  destruct (capture_writeTimeline_stores
              (capturedEntry c note now entryId noteId :: timeline) w1)
    as (Hkeep2 & Hok & _).
  destruct (Capture.writeTimeline _ w1) as [[[]|e] w2]; [|discriminate].
  simpl in *. injection Hpush as <-.
  destruct (Hok eq_refl) as (migrated & Hall & Hslot2).
  inversion Hall as [|? e' ? rest Hfirst Hrest]; subst.
  assert (e' = capturedEntry c note now entryId noteId) as ->.
  { destruct Hfirst as [->|[Hinline _]]; [reflexivity|].
    rewrite capturedEntry_not_inline in Hinline. discriminate. }
  exists c, rest. rewrite Hslot2, Hslot1.
  repeat split; try assumption.
  - apply Hkeep2. rewrite Hstored. eauto.
  - eapply keepsBlobs_trans; eassumption.
Qed.

End Save.

(** Saving a recorded clip with a note on the demo platform. *)
Lemma onSave_indexes_stored_blob_witness :
  let P := Demo.platform 1000 [] in
  let captured :=
    Capture.mkCaptured video "blob:preview" (Some "data:image/jpeg;base64,t")
      (Some Demo.clip) in
  let out :=
    Capture.onSave (Some captured) " hello " "2024-02-01T09:00:00.000Z" "e9" "n9"
      Demo.emptyWorld in
  localStorage (snd out) !! KEY
  = Some (Demo.stringify
            [Entry.mk "e9" "2024-02-01T09:00:00.000Z" video "idb:e9"
               (Some "data:image/jpeg;base64,t")
               [TextBlock.mk "n9" "2024-02-01T09:00:00.000Z" "hello"]])
  /\ is_Some (mediaDb (snd out) !! "e9").
Proof.
  intros P captured out.
  destruct (onSave_indexes_stored_blob (H := P) (Some captured) " hello "
              "2024-02-01T09:00:00.000Z" "e9" "n9" Demo.emptyWorld [] "/")
    as (c & rest & Hc & _ & Hslot & Hrest & Hblob & _).
  { reflexivity. }
  { vm_compute. reflexivity. }
  injection Hc as <-. inversion Hrest; subst.
  split; [|exact Hblob].
  subst out. rewrite Hslot. rewrite lookup_insert_eq. reflexivity.
Defined.

(** ** The recorder's MIME type *)

Lemma pickFrom_first_supported (mr : option (string -> bool)) (candidates : list string) :
  (Forall (fun c => Capture.typeSupported mr c = false) candidates
   /\ Capture.pickFrom mr candidates = "")
  \/ (exists before after,
        candidates = before ++ Capture.pickFrom mr candidates :: after
        /\ Capture.typeSupported mr (Capture.pickFrom mr candidates) = true
        /\ Forall (fun c => Capture.typeSupported mr c = false) before).
Proof.
  induction candidates as [|c rest IH]; simpl.
  - left. auto.
  - destruct (Capture.typeSupported mr c) eqn:Hc.
    + right. exists [], rest. auto.
    + destruct IH as [[Hnone Hpick]|(before & after & Hsplit & Hsup & Hbefore)].
      * left. auto.
      * right. exists (c :: before), after. simpl. rewrite <- Hsplit. auto.
Qed.

(** [pickBestMimeType] returns the first candidate of its list, most
    specific codec pair first, that the recorder supports; it returns the
    empty string exactly when the recorder supports none of them (or does not
    exist). *)
Theorem pickBestMimeType_first_supported (mr : option (string -> bool)) :
  ((exists before after,
      Capture.mimeCandidates = before ++ Capture.pickBestMimeType mr :: after
      /\ Capture.typeSupported mr (Capture.pickBestMimeType mr) = true
      /\ Forall (fun c => Capture.typeSupported mr c = false) before)
   \/ Capture.pickBestMimeType mr = "")
  /\ (Capture.pickBestMimeType mr = ""
      <-> Forall (fun c => Capture.typeSupported mr c = false) Capture.mimeCandidates)
  /\ Capture.pickBestMimeType None = "".
Proof.
  unfold Capture.pickBestMimeType.
  destruct (pickFrom_first_supported mr Capture.mimeCandidates)
    as [[Hnone Hpick]|(before & after & Hsplit & Hsup & Hbefore)].
  - split; [right; exact Hpick|]. split; [tauto|reflexivity].
  - split; [left; eauto|]. split; [|reflexivity]. split.
    + intros Hempty. exfalso.
      assert (Hin : In (Capture.pickFrom mr Capture.mimeCandidates) Capture.mimeCandidates).
      { rewrite Hsplit at 2. apply in_or_app. right. left. reflexivity. }
      rewrite Hempty in Hin. simpl in Hin.
      repeat (destruct Hin as [Hin|Hin]; [discriminate|]). exact Hin.
    + intros Hnone. rewrite List.Forall_forall in Hnone.
      rewrite (Hnone (Capture.pickFrom mr Capture.mimeCandidates)) in Hsup; [discriminate|].
      rewrite Hsplit at 2. apply in_or_app. right. left. reflexivity.
Qed.

(** ** The blob store and its references *)

Lemma substring_slice (n : nat) : forall s, String.substring 0 n s +:+ slice n s = s.
Proof.
  induction n as [|n IH]; intros [|c s]; try reflexivity.
  change (String c (String.substring 0 n s +:+ slice n s) = String c s).
  f_equal. apply IH.
Qed.

(** References round-trip: the reference made from a key is recognised as
    one, is not an inline data URL, and [slice(4)] gives the key back; a
    string recognised as a reference is the reference of the key
    [slice(4)] reads from it. *)
Theorem idb_reference_round_trip :
  (forall key,
     MediaStore.isIdbUri (MediaStore.toIdbUri key) = true
     /\ slice 4 (MediaStore.toIdbUri key) = key
     /\ startsWith "data:" (MediaStore.toIdbUri key) = false)
  /\ (forall uri,
        MediaStore.isIdbUri uri = true -> MediaStore.toIdbUri (slice 4 uri) = uri).
Proof.
  split.
  - intros key. split; [apply isIdbUri_toIdbUri|]. split; [reflexivity|].
    apply isIdbUri_not_inline, isIdbUri_toIdbUri.
  - intros uri Huri. unfold MediaStore.isIdbUri, startsWith in Huri.
    apply String.prefix_correct in Huri.
    unfold MediaStore.toIdbUri. rewrite <- Huri at 1. apply (substring_slice 4).
Qed.

Section BlobStore.
Context `{Platform}.

(** The blob store is a key-value store. While IndexedDB does not fail:
    [getMedia] after [putMedia] under the same key resolves with the payload
    put, a second put replaces it, [deleteMedia] makes [getMedia] resolve
    with null again, deleting a key that is absent succeeds, and none of
    this changes what [getMedia] resolves with under another key. *)
Theorem blob_store_round_trip (key : string) (blob blob2 : Blob) (w : World) :
  (forall store op, idbFault store op = None) ->
  exists w1 w2 w3,
    MediaStore.putMedia key blob w = (Ok tt, w1)
    /\ MediaStore.getMedia key w1 = (Ok (Some blob), w1)
    /\ MediaStore.putMedia key blob2 w1 = (Ok tt, w2)
    /\ MediaStore.getMedia key w2 = (Ok (Some blob2), w2)
    /\ MediaStore.deleteMedia key w2 = (Ok tt, w3)
    /\ MediaStore.getMedia key w3 = (Ok None, w3)
    /\ fst (MediaStore.deleteMedia key w3) = Ok tt
    /\ forall other, other <> key ->
         fst (MediaStore.getMedia other w1) = fst (MediaStore.getMedia other w)
         /\ fst (MediaStore.getMedia other w2) = fst (MediaStore.getMedia other w)
         /\ fst (MediaStore.getMedia other w3) = fst (MediaStore.getMedia other w).
Proof.
  intros Hdb.
  assert (Hget : forall k w0, MediaStore.getMedia k w0 = (Ok (mediaDb w0 !! k), w0)).
  { intros k w0. unfold MediaStore.getMedia, MediaStore.openDb, bind. rewrite !Hdb.
    reflexivity. }
  assert (Hput : forall k b w0,
            MediaStore.putMedia k b w0 = (Ok tt, storeBlob k b (emit (IdbPut k b) w0))).
  { intros k b w0. unfold MediaStore.putMedia, MediaStore.openDb, bind. rewrite !Hdb.
    reflexivity. }
  assert (Hdel : forall k w0,
            MediaStore.deleteMedia k w0
            = (Ok tt, mkWorld (localStorage w0) (delete k (mediaDb w0)) (minted w0)
                        (trace w0))).
  { intros k w0. unfold MediaStore.deleteMedia, MediaStore.openDb, bind. rewrite !Hdb.
    reflexivity. }
  set (w1 := storeBlob key blob (emit (IdbPut key blob) w)).
  set (w2 := storeBlob key blob2 (emit (IdbPut key blob2) w1)).
  set (w3 := mkWorld (localStorage w2) (delete key (mediaDb w2)) (minted w2) (trace w2)).
  exists w1, w2, w3. rewrite !Hput, !Hget, !Hdel. subst w1 w2 w3. simpl.
  rewrite !lookup_insert_eq, lookup_delete_eq.
  repeat (split; [reflexivity|]).
  intros other Hother. rewrite !Hget. simpl.
  rewrite lookup_delete_ne, !lookup_insert_ne by congruence. auto.
Qed.

End BlobStore.

(** A clip put, replaced and deleted under the key e3 on the demo
    platform. *)
Lemma blob_store_round_trip_witness :
  let P := Demo.platform 1000 [] in
  exists w1,
    MediaStore.putMedia "e3" Demo.clip Demo.emptyWorld = (Ok tt, w1)
    /\ MediaStore.getMedia "e3" w1 = (Ok (Some Demo.clip), w1)
    /\ fst (MediaStore.getMedia "e5" w1) = Ok None.
Proof.
  intros P.
  destruct (blob_store_round_trip (H := P) "e3" Demo.clip Demo.clip Demo.emptyWorld)
    as (w1 & w2 & w3 & Hput & Hget & _ & _ & _ & _ & _ & Hother).
  { reflexivity. }
  exists w1. split; [exact Hput|]. split; [exact Hget|].
  destruct (Hother "e5" ltac:(discriminate)) as [-> _]. reflexivity.
Defined.

(** ** The thumbnail promise: settled once, and with what *)

Section PipelineResults.
Variable c : Timeouts.
Variable v : VideoElement.

Lemma afterWait_keeps t p r : settled p = Some r -> settled (afterWait c v t p) = Some r.
Proof.
  intros Hr. unfold afterWait. destruct (paintMs c); [exact Hr|apply capture_keeps, Hr].
Qed.

Lemma onEvent_keeps t p ev r : settled p = Some r -> settled (onEvent c v t p ev) = Some r.
Proof.
  intros Hr. destruct ev; simpl.
  - destruct (errorArmed p); [|exact Hr]. unfold finish. simpl. rewrite Hr. reflexivity.
  - destruct (handler p); try exact Hr. destruct (Qpositive _); exact Hr.
  - destruct (handler p); try exact Hr.
    destruct (bool_decide _); [apply afterWait_keeps, Hr|exact Hr].
  - destruct (handler p); try exact Hr.
    destruct (bool_decide _); [apply afterWait_keeps, Hr|exact Hr].
Qed.

Lemma events_keeps t (evs : list VideoEvent) : forall p r,
  settled p = Some r -> settled (fold_left (onEvent c v t) evs p) = Some r.
Proof.
  induction evs as [|ev evs IH]; intros p r Hr; simpl; [exact Hr|].
  apply IH, onEvent_keeps, Hr.
Qed.

Lemma tick_keeps t p r : settled p = Some r -> settled (tick c v t p) = Some r.
Proof.
  intros Hr. unfold tick. apply onTimers_keeps, onTimers_keeps, events_keeps, Hr.
Qed.

(** [resolve] runs once: a settled promise keeps its value. *)
Lemma runUntil_keeps n r : settled (runUntil c v n) = Some r ->
  forall k, settled (runUntil c v (n + k)) = Some r.
Proof.
  intros Hr k. induction k as [|k IH]; [rewrite Nat.add_0_r; exact Hr|].
  replace (n + S k) with (S (n + k)) by lia. simpl. apply tick_keeps, IH.
Qed.

Lemma traced_later n n' p : traced v n p -> n <= n' -> traced v n' p.
Proof.
  intros [Hthumb Hcalled] Hn. split.
  - intros s Hs. destruct (Hthumb s Hs) as (t & t0 & H0 & Ht & Hin & Henc).
    exists t, t0. split; [exact H0|]. split; [lia|]. split; assumption.
  - intros Hh. destruct (Hcalled Hh) as (t0 & H0 & Hin). exists t0. split; [lia|exact Hin].
Qed.

Lemma finish_none_traced n p : traced v n p -> traced v n (finish None p).
Proof.
  intros Htr. unfold finish. destruct (settled p) as [r|] eqn:Hr; [exact Htr|].
  destruct Htr as [_ Hcalled]. split; [simpl; discriminate|exact Hcalled].
Qed.

Lemma capture_traced t p :
  traced v t p -> handler p <> Armed -> traced v t (capture v t p).
Proof.
  intros [Hthumb Hcalled] Hh. destruct (Hcalled Hh) as (t0 & H0 & Hin).
  assert (Hdone : forall q, settled q = settled p \/ settled q = Some None ->
            (settled p <> None -> settled q = settled p) ->
            traced v t (withHandler Returned q)).
  { intros q Hq Hsame. split; [|intros _; eauto]. simpl. intros s Hs.
    destruct Hq as [Hq|Hq]; [apply Hthumb; congruence|congruence]. }
  unfold capture.
  assert (Hnone : forall q, settled q = settled p ->
            traced v t (withHandler Returned (finish None q))).
  { intros q Hq. apply Hdone; unfold finish; rewrite Hq;
      destruct (settled p); simpl; auto; congruence. }
  destruct (_ || _); [apply Hnone; reflexivity|].
  destruct (negb (getContext v t)) eqn:Hctx; [apply Hnone; reflexivity|].
  destruct (toDataURL v _ _ t) as [thumb|e] eqn:Henc; [|apply Hnone; reflexivity].
  split; [|intros _; eauto]. simpl. unfold finish. simpl.
  destruct (settled p) as [r|] eqn:Hr; simpl.
  - intros s Hs. apply Hthumb. congruence.
  - intros s [= <-]. exists t, t0. split; [exact H0|]. split; [lia|]. split; [exact Hin|].
    split; [apply negb_false_iff, Hctx|exact Henc].
Qed.

Lemma afterWait_traced t p :
  traced v t p -> handler p <> Armed -> traced v t (afterWait c v t p).
Proof.
  intros Htr Hh. unfold afterWait. destruct (paintMs c); [|apply capture_traced; assumption].
  destruct Htr as [Hthumb Hcalled]. split; [exact Hthumb|]. intros _. auto.
Qed.

Lemma onEvent_traced t p ev :
  traced v t p -> In ev (fires v t) -> traced v t (onEvent c v t p ev).
Proof.
  intros Htr Hin. pose proof Htr as [Hthumb Hcalled]. destruct ev; simpl.
  - destruct (errorArmed p); [|exact Htr].
    apply (finish_none_traced t (mkPipeline (settled p) false (handler p) (canvas p)
                                   (currentTime p))).
    split; assumption.
  - destruct (handler p) eqn:Hh; try exact Htr.
    destruct (Qpositive _); (split; [exact Hthumb|]); intros _; exists t; auto.
  - destruct (handler p) eqn:Hh; try exact Htr.
    destruct (bool_decide _); [|exact Htr]. apply afterWait_traced; [exact Htr|congruence].
  - destruct (handler p) eqn:Hh; try exact Htr.
    destruct (bool_decide _); [|exact Htr]. apply afterWait_traced; [exact Htr|congruence].
Qed.

Lemma events_traced t (evs : list VideoEvent) : forall p,
  traced v t p -> (forall ev, In ev evs -> In ev (fires v t)) ->
  traced v t (fold_left (onEvent c v t) evs p).
Proof.
  induction evs as [|ev evs IH]; intros p Htr Hsub; simpl; [exact Htr|].
  apply IH; [|intros ev' Hev'; apply Hsub; right; exact Hev'].
  apply onEvent_traced; [exact Htr|apply Hsub; left; reflexivity].
Qed.

Lemma onTimers_traced t p : traced v t p -> traced v t (onTimers c v t p).
Proof.
  intros Htr. unfold onTimers. destruct (handler p) eqn:Hh; try exact Htr.
  - destruct (_ <=? _)%nat; [|exact Htr]. apply afterWait_traced; [exact Htr|congruence].
  - destruct (_ <=? _)%nat; [|exact Htr]. apply capture_traced; [exact Htr|congruence].
Qed.

Lemma tick_traced t p : traced v t p -> traced v t (tick c v t p).
Proof.
  intros Htr. unfold tick. apply onTimers_traced, onTimers_traced, events_traced; auto.
Qed.

Lemma runUntil_traced n : traced v n (runUntil c v n).
Proof.
  induction n as [|n IH]; simpl.
  - apply tick_traced. split; [discriminate|]. intros Hh. destruct Hh. reflexivity.
  - apply tick_traced. apply (traced_later n); [exact IH|lia].
Qed.

(** An [error] event that is the first event of its millisecond, with the
    promise still pending, settles it with null. *)
Lemma tick_error t p rest :
  settled p = None -> errorArmed p = true -> fires v t = error :: rest ->
  settled (tick c v t p) = Some None.
Proof.
  intros Hpending Harmed Hfires. unfold tick. apply onTimers_keeps, onTimers_keeps.
  rewrite Hfires. simpl.
  apply events_keeps. rewrite Harmed. unfold finish. simpl. rewrite Hpending. reflexivity.
Qed.

End PipelineResults.

(** The promise of either thumbnail generator is settled at most once:
    the value it has at some time is the value it has at every later time. *)
Theorem thumbnail_settles_once (v : VideoElement) (n m : nat) (r : option string) :
  n <= m ->
  (makeVideoThumbFromUrl v n = Some r -> makeVideoThumbFromUrl v m = Some r)
  /\ (makeVideoThumbnailFromUrl v n = Some r -> makeVideoThumbnailFromUrl v m = Some r).
Proof.
  intros Hnm. replace m with (n + (m - n)) by lia.
  split; intros Hr; apply runUntil_keeps; exact Hr.
Qed.

(** On the 3 s demo video the thumbnail of millisecond 100 is still there
    after two seconds. *)
Lemma thumbnail_settles_once_witness :
  makeVideoThumbFromUrl Demo.shortVideo 2000 = Some (Some "data:image/jpeg;base64,frame").
Proof.
  destruct (thumbnail_settles_once Demo.shortVideo 100 2000
              (Some "data:image/jpeg;base64,frame")) as [Hthumb _].
  { apply Nat.leb_le. vm_compute. reflexivity. }
  apply Hthumb. vm_compute. reflexivity.
Defined.

(** A thumbnail is never made up: when either generator resolves with a
    string, the element had dispatched [loadedmetadata], and at some later
    time the 2d context was available and the canvas encoded exactly that
    string. *)
Theorem thumbnail_is_an_encoded_frame (v : VideoElement) (n : nat) (s : string) :
  makeVideoThumbFromUrl v n = Some (Some s) \/ makeVideoThumbnailFromUrl v n = Some (Some s) ->
  exists t t0,
    t0 <= t /\ t <= n /\ In loadedmetadata (fires v t0) /\ encodedFrame v t s.
Proof.
  intros [Hs|Hs].
  - exact (proj1 (runUntil_traced (mkTimeouts 1500 (Some 50)) v n) s Hs).
  - exact (proj1 (runUntil_traced (mkTimeouts 500 None) v n) s Hs).
Qed.

(** The thumbnail of the demo video comes from its canvas. *)
Lemma thumbnail_is_an_encoded_frame_witness :
  exists t, t <= 100 /\ encodedFrame Demo.shortVideo t "data:image/jpeg;base64,frame".
Proof.
  destruct (thumbnail_is_an_encoded_frame Demo.shortVideo 100 "data:image/jpeg;base64,frame")
    as (t & t0 & _ & Ht & _ & Henc).
  { left. vm_compute. reflexivity. }
  exists t. split; [exact Ht|exact Henc].
Defined.

(** A failed load gives "no thumbnail": when [error] is the first event of a
    millisecond before which the promise was pending (or of the very first
    millisecond), either generator resolves with null, then and for ever. *)
Theorem load_error_gives_no_thumbnail (v : VideoElement) (t n : nat)
    (rest : list VideoEvent) :
  fires v t = error :: rest ->
  t <= n ->
  (t = 0 \/ makeVideoThumbFromUrl v (t - 1) = None -> makeVideoThumbFromUrl v n = Some None)
  /\ (t = 0 \/ makeVideoThumbnailFromUrl v (t - 1) = None ->
      makeVideoThumbnailFromUrl v n = Some None).
Proof.
  intros Hfires Hn.
  assert (Hgen : forall c, t = 0 \/ settled (runUntil c v (t - 1)) = None ->
            settled (runUntil c v n) = Some None).
  { intros c Hpending. replace n with (t + (n - t)) by lia. apply runUntil_keeps.
    destruct t as [|t]; simpl.
    - apply (tick_error c v 0 initial rest); auto.
    - destruct Hpending as [Hzero|Hpending]; [discriminate|].
      replace (S t - 1) with t in Hpending by lia.
      apply (tick_error c v (S t) _ rest); [exact Hpending| |exact Hfires].
      destruct (runUntil_alive c v t) as [Hs|[Harmed _]]; [congruence|exact Harmed]. }
  split; intros Hpending; apply Hgen; exact Hpending.
Qed.

(** Decoding fails while the handler waits for the seek. *)
Lemma load_error_gives_no_thumbnail_witness :
  makeVideoThumbFromUrl Demo.brokenVideo 40 = Some None.
Proof.
  refine (proj1 (load_error_gives_no_thumbnail Demo.brokenVideo 30 40 [] eq_refl _) _).
  - apply Nat.leb_le. reflexivity.
  - right. vm_compute. reflexivity.
Defined.

(** ** The video thumbnail component: cancellation, ownership, idleness *)

Section ThumbComponent.
Context `{Platform}.

Lemma calm_refl w : calm w w.
Proof.
  split; [reflexivity|]. split; [reflexivity|]. exists []. rewrite app_nil_r. auto.
Qed.

Lemma calm_trans w1 w2 w3 : calm w1 w2 -> calm w2 w3 -> calm w1 w3.
Proof.
  intros (Hs1 & Hb1 & l1 & Ht1 & Hf1) (Hs2 & Hb2 & l2 & Ht2 & Hf2).
  split; [congruence|]. split; [congruence|].
  exists (l1 ++ l2). split; [rewrite Ht2, Ht1, app_assoc; reflexivity|].
  apply Forall_app; auto.
Qed.

Lemma calm_emit e w : isWarnOrMint e = true -> calm w (emit e w).
Proof.
  intros He. split; [reflexivity|]. split; [reflexivity|].
  exists [e]. split; [reflexivity|]. constructor; [exact He|constructor].
Qed.

(** What [resolveVideoUrl] resolves with, case by case. *)
Lemma resolveVideoUrl_cases (mediaUri : string) (w : World) :
  (MediaStore.isIdbUri mediaUri = true
   /\ ((exists e, VideoThumb.resolveVideoUrl mediaUri w = (Throw e, w))
       \/ (mediaDb w !! slice 4 mediaUri = None
           /\ VideoThumb.resolveVideoUrl mediaUri w
              = (Ok None, emit (ConsoleWarn "VideoThumb") w))
       \/ (exists blob w1,
             mediaDb w !! slice 4 mediaUri = Some blob
             /\ (w1 = w \/ w1 = emit (ConsoleWarn "VideoThumb") w)
             /\ VideoThumb.resolveVideoUrl mediaUri w
                = (Ok (Some ("blob:" +:+ pretty (minted w), true)),
                   mkWorld (localStorage w) (mediaDb w) (S (minted w))
                     (trace w1 ++ [CreateObjectURL ("blob:" +:+ pretty (minted w))])))))
  \/ (MediaStore.isIdbUri mediaUri = false
      /\ ((startsWith "data:" mediaUri = true
           /\ VideoThumb.resolveVideoUrl mediaUri w = (Ok (Some (mediaUri, false)), w))
          \/ (startsWith "data:" mediaUri = false
              /\ VideoThumb.resolveVideoUrl mediaUri w
                 = (Ok None, emit (ConsoleWarn "VideoThumb") w)))).
Proof.
  unfold VideoThumb.resolveVideoUrl.
  destruct (MediaStore.isIdbUri mediaUri); [left; split; [reflexivity|]|right; split; [reflexivity|]].
  - unfold MediaStore.getMedia, MediaStore.openDb, bind. cbv beta.
    destruct (idbFault (mediaDb w) IdbOpen); cbv beta iota; [left; eauto|].
    destruct (idbFault (mediaDb w) (IdbRead _)); cbv beta iota; [left; eauto|].
    right. destruct (mediaDb w !! _) as [blob|] eqn:Hblob; cbv beta iota.
    + right. exists blob. destruct (negb (truthy (blob_type blob))).
      * exists (emit (ConsoleWarn "VideoThumb") w). split; [reflexivity|].
        split; [right; reflexivity|reflexivity].
      * exists w. split; [reflexivity|]. split; [left; reflexivity|reflexivity].
    + left. split; reflexivity.
  - destruct (startsWith "data:" mediaUri); [left; split; reflexivity|].
    right. split; [reflexivity|]. destruct (startsWith "blob:" mediaUri); reflexivity.
Qed.

Lemma resolveVideoUrl_calm (mediaUri : string) (w : World) :
  calm w (snd (VideoThumb.resolveVideoUrl mediaUri w)).
Proof.
  assert (Hmint : forall w1 u, calm w w1 ->
            calm w (mkWorld (localStorage w) (mediaDb w) (S (minted w))
                      (trace w1 ++ [CreateObjectURL u]))).
  { intros w1 u (_ & _ & l & Ht & Hf). split; [reflexivity|]. split; [reflexivity|].
    exists (l ++ [CreateObjectURL u]). simpl. rewrite Ht, app_assoc.
    split; [reflexivity|]. apply Forall_app. split; [exact Hf|]. repeat constructor. }
  destruct (resolveVideoUrl_cases mediaUri w)
    as [[_ [[e ->]|[[_ ->]|(blob & w1 & _ & Hw1 & ->)]]]|[_ [[_ ->]|[_ ->]]]]; simpl.
  - apply calm_refl.
  - apply calm_emit. reflexivity.
  - apply Hmint. destruct Hw1 as [->| ->]; [apply calm_refl|apply calm_emit; reflexivity].
  - apply calm_refl.
  - apply calm_emit. reflexivity.
Qed.

Lemma mount_orderly (e : Entry.t) : orderly (VideoThumb.mount e).
Proof.
  intros i r. unfold VideoThumb.mount, VideoThumb.startEffect.
  destruct (truthy_opt _); [|destruct (negb _)]; simpl;
    (destruct i as [|i]; simpl; [intros _ _; auto|intros Hr; rewrite lookup_nil in Hr; discriminate]).
Qed.

Lemma orderly_update (c c' : VideoThumb.Component) (i : nat) (r r' : VideoThumb.Run) :
  orderly c -> VideoThumb.runs c !! i = Some r ->
  VideoThumb.cancelled r' = VideoThumb.cancelled r \/ VideoThumb.cancelled r' = true ->
  VideoThumb.runs c' = <[i := r']> (VideoThumb.runs c) ->
  VideoThumb.mounted c' = VideoThumb.mounted c ->
  orderly c'.
Proof.
  intros Hord Hrun Hsame Hruns Hm j q. rewrite Hruns, Hm, length_insert.
  destruct (decide (j = i)) as [->|Hne].
  - rewrite list_lookup_insert_eq by (apply lookup_lt_Some in Hrun; exact Hrun).
    intros [= <-] Hq. apply (Hord i r Hrun). destruct Hsame; congruence.
  - rewrite list_lookup_insert_ne by congruence. apply Hord.
Qed.

Lemma finally_orderly (i : nat) (r : VideoThumb.Run) (c : VideoThumb.Component) :
  orderly c -> VideoThumb.runs c !! i = Some r -> orderly (VideoThumb.finally i r c).
Proof.
  intros Hord Hrun. unfold VideoThumb.finally.
  destruct (negb (VideoThumb.cancelled r));
    apply (orderly_update c _ i r (VideoThumb.mkRun (VideoThumb.entry r)
             (VideoThumb.cancelled r) VideoThumb.Finished)); auto.
Qed.

Lemma orderly_same (c c' : VideoThumb.Component) :
  orderly c -> VideoThumb.runs c' = VideoThumb.runs c ->
  VideoThumb.mounted c' = VideoThumb.mounted c -> orderly c'.
Proof. intros Hord Hruns Hm i r. rewrite Hruns, Hm. apply Hord. Qed.

(** After the cleanup of the last effect every effect is cancelled. *)
Lemma cleanup_cancels (c : VideoThumb.Component) (w : World) :
  orderly c ->
  Forall (fun r => VideoThumb.cancelled r = true)
    (VideoThumb.runs (fst (VideoThumb.cleanup (length (VideoThumb.runs c) - 1) c w)))
  /\ VideoThumb.mounted (fst (VideoThumb.cleanup (length (VideoThumb.runs c) - 1) c w))
     = VideoThumb.mounted c
  /\ length (VideoThumb.runs (fst (VideoThumb.cleanup (length (VideoThumb.runs c) - 1) c w)))
     = length (VideoThumb.runs c).
Proof.
  intros Hord. unfold VideoThumb.cleanup.
  set (n := length (VideoThumb.runs c) - 1).
  assert (Hold : forall i r, VideoThumb.runs c !! i = Some r -> i <> n ->
            VideoThumb.cancelled r = true).
  { intros i r Hr Hne. destruct (VideoThumb.cancelled r) eqn:Hc; [reflexivity|].
    destruct (Hord i r Hr Hc) as [_ Hlast]. subst n. lia. }
  destruct (VideoThumb.runs c !! n) as [r|] eqn:Hrun.
  - assert (Hall : Forall (fun q => VideoThumb.cancelled q = true)
                     (<[n := VideoThumb.mkRun (VideoThumb.entry r) true (VideoThumb.stage r)]>
                        (VideoThumb.runs c))).
    { apply Forall_lookup. intros i q. destruct (decide (i = n)) as [->|Hne].
      - rewrite list_lookup_insert_eq by (apply lookup_lt_Some in Hrun; exact Hrun).
        intros [= <-]. reflexivity.
      - rewrite list_lookup_insert_ne by congruence. intros Hq. exact (Hold i q Hq Hne). }
    destruct (VideoThumb.objectUrlRef c) as [u|]; [destruct (truthy u)|]; simpl;
      rewrite length_insert; auto.
  - simpl. split; [|auto]. apply Forall_lookup. intros i q Hq.
    apply (Hold i q Hq). intros ->. congruence.
Qed.

Lemma startEffect_orderly (e : Entry.t) (seen : option string) (c : VideoThumb.Component) :
  VideoThumb.mounted c = true ->
  Forall (fun r => VideoThumb.cancelled r = true) (VideoThumb.runs c) ->
  orderly (VideoThumb.startEffect e seen c).
Proof.
  intros Hm Hall.
  assert (Hgen : forall c', VideoThumb.mounted c' = true ->
            (exists stage, VideoThumb.runs c'
                           = VideoThumb.runs c ++ [VideoThumb.mkRun e false stage]) ->
            orderly c').
  { intros c' Hm' [stage Hruns] i r. rewrite Hruns, length_app. simpl.
    intros Hr Hc. split; [exact Hm'|].
    apply lookup_app_Some in Hr as [Hr|[Hlen Hr]].
    - rewrite Forall_lookup in Hall. rewrite (Hall i r Hr) in Hc. discriminate.
    - destruct (i - length (VideoThumb.runs c)) as [|k] eqn:Hk; [lia|].
      simpl in Hr. rewrite lookup_nil in Hr. discriminate. }
  unfold VideoThumb.startEffect.
  destruct (truthy_opt seen); [|destruct (negb _)]; apply Hgen; simpl; eauto.
Qed.

Lemma step_orderly (a : VideoThumb.Action) (c : VideoThumb.Component) (w : World) :
  orderly c -> orderly (fst (VideoThumb.step a (c, w))).
Proof.
  intros Hord. destruct a as [e| |i|i t]; simpl.
  - destruct (negb (VideoThumb.mounted c)) eqn:Hm; [exact Hord|].
    apply negb_false_iff in Hm.
    destruct (negb (bool_decide (Entry.id (VideoThumb.props c) = Entry.id e
                                 /\ Entry.mediaUri (VideoThumb.props c) = Entry.mediaUri e))).
    + destruct (cleanup_cancels c w Hord) as (Hall & Hm1 & _).
      destruct (VideoThumb.cleanup _ c w) as [c1 w1]. simpl in *.
      set (c2 := if negb _ then VideoThumb.setThumb _ c1 else c1).
      assert (Hc2 : VideoThumb.runs c2 = VideoThumb.runs c1
                    /\ VideoThumb.mounted c2 = VideoThumb.mounted c1).
      { subst c2. destruct (negb _); auto. }
      destruct Hc2 as [Hruns2 Hm2].
      eapply orderly_same; [apply (startEffect_orderly e (VideoThumb.thumb c) c2)| |];
        [congruence|rewrite Hruns2; exact Hall|reflexivity|reflexivity].
    + simpl. destruct (negb _); simpl; exact Hord.
  - destruct (negb (VideoThumb.mounted c)) eqn:Hm; [exact Hord|].
    destruct (cleanup_cancels c w Hord) as (Hall & _ & _).
    destruct (VideoThumb.cleanup _ c w) as [c1 w1]. simpl in *.
    intros j q Hq Hc. rewrite Forall_lookup in Hall. rewrite (Hall j q Hq) in Hc. discriminate.
  - unfold VideoThumb.resolved.
    destruct (VideoThumb.runs c !! i) as [r|] eqn:Hrun; [|exact Hord].
    destruct (VideoThumb.stage r); try exact Hord.
    destruct (VideoThumb.resolveVideoUrl _ w) as [[[[url owned]|]|e] w']; simpl.
    + apply (orderly_update (if owned then VideoThumb.setRef (Some url) c else c) _ i r
               (VideoThumb.mkRun (VideoThumb.entry r) (VideoThumb.cancelled r)
                  (VideoThumb.Thumbing url))).
      * destruct owned; [eapply orderly_same; [exact Hord| |]; reflexivity|exact Hord].
      * destruct owned; exact Hrun.
      * left. reflexivity.
      * destruct owned; reflexivity.
      * destruct owned; reflexivity.
    + apply finally_orderly; assumption.
    + eapply orderly_same; [apply (finally_orderly i r c Hord Hrun)| |]; reflexivity.
  - unfold VideoThumb.thumbed.
    destruct (VideoThumb.runs c !! i) as [r|] eqn:Hrun; [|exact Hord].
    destruct (VideoThumb.stage r); try exact Hord.
    destruct (VideoThumb.cancelled r); [apply finally_orderly; assumption|].
    destruct (truthy_opt t); [|apply finally_orderly; assumption].
    assert (Hset : orderly (VideoThumb.finally i r (VideoThumb.setThumb t c))).
    { apply finally_orderly; [|exact Hrun].
      eapply orderly_same; [exact Hord| |]; reflexivity. }
    destruct (VideoThumb.writeBackThumb _ _ w) as [[[]|e] w']; simpl; [exact Hset|].
    eapply orderly_same; [exact Hset| |]; reflexivity.
Qed.

Lemma steps_orderly (acts : list VideoThumb.Action) : forall c w,
  orderly c -> orderly (fst (VideoThumb.steps acts (c, w))).
Proof.
  induction acts as [|a acts IH]; intros c w Hord; [exact Hord|].
  change (VideoThumb.steps (a :: acts) (c, w))
    with (VideoThumb.steps acts (VideoThumb.step a (c, w))).
  pose proof (step_orderly a c w Hord) as Hnext.
  destruct (VideoThumb.step a (c, w)) as [c1 w1]. apply IH, Hnext.
Qed.

Lemma unmount_parks (c : VideoThumb.Component) (w : World) :
  orderly c -> parked (fst (VideoThumb.step VideoThumb.Unmount (c, w))).
Proof.
  intros Hord. simpl. destruct (negb (VideoThumb.mounted c)) eqn:Hm.
  - apply negb_true_iff in Hm. split; [exact Hm|]. apply Forall_lookup. intros i r Hr.
    destruct (VideoThumb.cancelled r) eqn:Hc; [reflexivity|].
    destruct (Hord i r Hr Hc) as [Hm' _]. congruence.
  - destruct (cleanup_cancels c w Hord) as (Hall & _ & _).
    destruct (VideoThumb.cleanup _ c w) as [c1 w1]. simpl in *. split; [reflexivity|exact Hall].
Qed.

Lemma finally_cancelled (i : nat) (r : VideoThumb.Run) (c : VideoThumb.Component) :
  VideoThumb.cancelled r = true ->
  VideoThumb.thumb (VideoThumb.finally i r c) = VideoThumb.thumb c
  /\ VideoThumb.busy (VideoThumb.finally i r c) = VideoThumb.busy c.
Proof. intros Hr. unfold VideoThumb.finally. rewrite Hr. simpl. auto. Qed.

(** A parked component: what one more action can still do. *)
Lemma step_parked_calm (a : VideoThumb.Action) (c : VideoThumb.Component) (w : World) :
  parked c ->
  calm w (snd (VideoThumb.step a (c, w)))
  /\ VideoThumb.thumb (fst (VideoThumb.step a (c, w))) = VideoThumb.thumb c
  /\ VideoThumb.busy (fst (VideoThumb.step a (c, w))) = VideoThumb.busy c.
Proof.
  intros Hparked. pose proof Hparked as [Hm Hall].
  assert (Hsame : calm w w /\ VideoThumb.thumb c = VideoThumb.thumb c
                  /\ VideoThumb.busy c = VideoThumb.busy c).
  { split; [apply calm_refl|auto]. }
  destruct a as [e| |i|i t]; simpl.
  - rewrite Hm. exact Hsame.
  - rewrite Hm. exact Hsame.
  - unfold VideoThumb.resolved.
    destruct (VideoThumb.runs c !! i) as [r|] eqn:Hrun; [|exact Hsame].
    assert (Hr : VideoThumb.cancelled r = true).
    { rewrite Forall_lookup in Hall. exact (Hall i r Hrun). }
    destruct (VideoThumb.stage r); try exact Hsame.
    pose proof (resolveVideoUrl_calm (Entry.mediaUri (VideoThumb.entry r)) w) as Hcalm.
    destruct (finally_cancelled i r c Hr) as [Hthumb Hbusy].
    destruct (VideoThumb.resolveVideoUrl _ w) as [[[[url owned]|]|e] w']; simpl in *.
    + split; [exact Hcalm|]. destruct owned; simpl; auto.
    + split; [exact Hcalm|]. auto.
    + split; [exact Hcalm|]. auto.
  - unfold VideoThumb.thumbed.
    destruct (VideoThumb.runs c !! i) as [r|] eqn:Hrun; [|exact Hsame].
    assert (Hr : VideoThumb.cancelled r = true).
    { rewrite Forall_lookup in Hall. exact (Hall i r Hrun). }
    destruct (VideoThumb.stage r); try exact Hsame.
    rewrite Hr. simpl. split; [apply calm_refl|]. apply finally_cancelled, Hr.
Qed.

Lemma steps_parked_calm (acts : list VideoThumb.Action) : forall c w,
  parked c ->
  calm w (snd (VideoThumb.steps acts (c, w)))
  /\ VideoThumb.thumb (fst (VideoThumb.steps acts (c, w))) = VideoThumb.thumb c
  /\ VideoThumb.busy (fst (VideoThumb.steps acts (c, w))) = VideoThumb.busy c.
Proof.
  induction acts as [|a acts IH]; intros c w Hparked.
  - split; [apply calm_refl|auto].
  - change (VideoThumb.steps (a :: acts) (c, w))
      with (VideoThumb.steps acts (VideoThumb.step a (c, w))).
    destruct (step_parked_calm a c w Hparked) as (Hcalm & Hthumb & Hbusy).
    destruct (step_parked a c w Hparked) as [Hnext _].
    destruct (VideoThumb.step a (c, w)) as [c1 w1]. simpl in *.
    destruct (IH c1 w1 Hnext) as (Hcalm' & Hthumb' & Hbusy').
    split; [exact (calm_trans _ _ _ Hcalm Hcalm')|]. split; congruence.
Qed.

Lemma filter_others (f : Effect -> bool) (effects : list Effect) :
  Forall (fun x => isWarnOrMint x = true) effects ->
  (forall x, isWarnOrMint x = true -> f x = false) -> List.filter f effects = [].
Proof.
  intros Hall Hf. induction Hall as [|x l Hx _ IH]; [reflexivity|].
  simpl. rewrite (Hf x Hx). exact IH.
Qed.

(** Cancellation works for everything but object URLs. Once the component
    is unmounted, whatever was in flight and whenever it settles, the
    component changes neither the stored timeline nor the blob store, sets
    neither [thumb] nor [busy], and its only effects are console warnings
    and minted object URLs: no write-back, no change event, no revocation. *)
Theorem videoThumb_silent_after_unmount (e : Entry.t)
    (before after : list VideoThumb.Action) (w : World) :
  let unmounted :=
    VideoThumb.steps (before ++ [VideoThumb.Unmount]) (VideoThumb.mount e, w) in
  let later := VideoThumb.steps after unmounted in
  calm (snd unmounted) (snd later)
  /\ VideoThumb.thumb (fst later) = VideoThumb.thumb (fst unmounted)
  /\ VideoThumb.busy (fst later) = VideoThumb.busy (fst unmounted)
  /\ List.filter isSetItem (added (snd unmounted) (snd later)) = []
  /\ List.filter isDispatch (added (snd unmounted) (snd later)) = []
  /\ List.filter isRevoke (added (snd unmounted) (snd later)) = [].
Proof.
  intros unmounted later.
  assert (Hparked : parked (fst unmounted)).
  { subst unmounted. unfold VideoThumb.steps. rewrite fold_left_app. simpl.
    pose proof (steps_orderly before (VideoThumb.mount e) w (mount_orderly e)) as Hord.
    unfold VideoThumb.steps in Hord.
    destruct (fold_left _ before _) as [c0 w0]. exact (unmount_parks c0 w0 Hord). }
  subst later. destruct unmounted as [c1 w1]. simpl in Hparked.
  destruct (steps_parked_calm after c1 w1 Hparked) as (Hcalm & Hthumb & Hbusy).
  split; [exact Hcalm|]. split; [exact Hthumb|]. split; [exact Hbusy|].
  destruct Hcalm as (_ & _ & effects & Htrace & Hall). simpl.
  rewrite (added_app _ _ _ Htrace).
  repeat split; apply (filter_others _ effects Hall); intros [] Hx;
    try discriminate; reflexivity.
Qed.

(** [resolveVideoUrl] owns what it mints, and only that. It never changes
    a store. It reports [owned] exactly for an idb: reference whose blob is
    in the store, and the URL is then the one object URL this call minted
    (once, and no other);
    a data: URL is passed through untouched, with no effect at all; every
    other outcome is null after a warning or a rejection, and mints
    nothing. *)
Theorem resolveVideoUrl_owns_what_it_mints (mediaUri : string) (w : World) :
  let out := VideoThumb.resolveVideoUrl mediaUri w in
  calm w (snd out)
  /\ match fst out with
     | Ok (Some (url, true)) =>
         MediaStore.isIdbUri mediaUri = true
         /\ is_Some (mediaDb w !! slice 4 mediaUri)
         /\ forall u, created u (added w (snd out)) = if bool_decide (u = url) then 1 else 0
     | Ok (Some (url, false)) =>
         url = mediaUri /\ startsWith "data:" mediaUri = true /\ snd out = w
     | Ok None =>
         added w (snd out) = [ConsoleWarn "VideoThumb"]
         /\ (MediaStore.isIdbUri mediaUri = true -> mediaDb w !! slice 4 mediaUri = None)
         /\ startsWith "data:" mediaUri = false
     | Throw _ => MediaStore.isIdbUri mediaUri = true /\ snd out = w
     end.
Proof.
  intros out. split; [apply resolveVideoUrl_calm|]. subst out.
  destruct (resolveVideoUrl_cases mediaUri w)
    as [[Hidb [[e ->]|[[Hnone ->]|(blob & w1 & Hblob & Hw1 & ->)]]]|[Hidb [[Hdata ->]|[Hdata ->]]]];
    cbn [fst snd].
  - auto.
  - split; [apply added_app; reflexivity|]. split; [auto|].
    apply isIdbUri_not_inline, Hidb.
  - split; [exact Hidb|]. split; [rewrite Hblob; eauto|].
    generalize ("blob:" +:+ pretty (minted w)). intros u0 u.
    assert (Hcount : forall l, created u l = 0 ->
              created u (l ++ [CreateObjectURL u0]) = if bool_decide (u = u0) then 1 else 0).
    { intros l Hl. rewrite created_snoc, Hl.
      destruct (decide _) as [Heq|Hne]; case_bool_decide; try reflexivity; congruence. }
    destruct Hw1 as [->| ->].
    + erewrite added_app by (cbn [trace]; reflexivity). apply (Hcount []). reflexivity.
    + erewrite added_app by (cbn [trace emit]; rewrite <- app_assoc; reflexivity).
      apply (Hcount [ConsoleWarn "VideoThumb"]). reflexivity.
  - auto.
  - split; [apply added_app; reflexivity|]. split; [congruence|exact Hdata].
Qed.

Lemma finished_step (e : Entry.t) (a : VideoThumb.Action) (c : VideoThumb.Component)
    (w : World) :
  idle e c -> rerenders e a ->
  idle e (fst (VideoThumb.step a (c, w))) /\ snd (VideoThumb.step a (c, w)) = w.
Proof.
  intros Hidle Ha. pose proof Hidle as (Hprops & Hthumb & Hbusy & Href & Hall).
  destruct a as [e'| |i|i t]; simpl.
  - simpl in Ha. subst e'. destruct (negb (VideoThumb.mounted c)); [auto|].
    rewrite Hprops. rewrite !bool_decide_true by auto. simpl.
    split; [|reflexivity]. split; [reflexivity|]. simpl. auto.
  - destruct (negb (VideoThumb.mounted c)); [auto|].
    unfold VideoThumb.cleanup. rewrite Href.
    destruct (VideoThumb.runs c !! _) as [r|] eqn:Hrun; simpl.
    + split; [|reflexivity]. split; [exact Hprops|]. simpl.
      split; [exact Hthumb|]. split; [exact Hbusy|]. split; [exact Href|].
      apply Forall_insert; [exact Hall|]. simpl.
      rewrite Forall_lookup in Hall. exact (Hall _ r Hrun).
    + split; [|reflexivity]. split; [exact Hprops|]. simpl. auto.
  - unfold VideoThumb.resolved.
    destruct (VideoThumb.runs c !! i) as [r|] eqn:Hrun; [|auto].
    rewrite Forall_lookup in Hall. rewrite (Hall i r Hrun). auto.
  - unfold VideoThumb.thumbed.
    destruct (VideoThumb.runs c !! i) as [r|] eqn:Hrun; [|auto].
    rewrite Forall_lookup in Hall. rewrite (Hall i r Hrun). auto.
Qed.

(** No work for entries that need none. Mounted on a photo, or on an entry
    that has a thumbnail, the component starts no generation: under every
    schedule in which the parent renders it with the same entry, it reads
    no blob, mints no URL, writes nothing (the world does not change at
    all), and it shows the entry's own thumbnail with [busy] off. *)
Theorem videoThumb_idle_without_generation (e : Entry.t)
    (acts : list VideoThumb.Action) (w : World) :
  truthy_opt (Entry.thumbUri e) = true \/ Entry.mediaType e = photo ->
  Forall (rerenders e) acts ->
  snd (VideoThumb.steps acts (VideoThumb.mount e, w)) = w
  /\ VideoThumb.thumb (fst (VideoThumb.steps acts (VideoThumb.mount e, w))) = Entry.thumbUri e
  /\ VideoThumb.busy (fst (VideoThumb.steps acts (VideoThumb.mount e, w))) = false.
Proof.
  intros Hknown Hacts.
  assert (Hidle : idle e (VideoThumb.mount e)).
  { unfold VideoThumb.mount, VideoThumb.startEffect.
    destruct (truthy_opt (Entry.thumbUri e)) eqn:Hthumb.
    - repeat split; simpl; auto.
    - destruct Hknown as [Hk|Hphoto]; [discriminate|]. rewrite Hphoto. simpl.
      repeat split; simpl; auto. }
  revert Hidle. generalize (VideoThumb.mount e) as c.
  induction Hacts as [|a acts Ha _ IH]; intros c Hidle.
  - simpl. destruct Hidle as (_ & Hthumb & Hbusy & _). auto.
  - change (VideoThumb.steps (a :: acts) (c, w))
      with (VideoThumb.steps acts (VideoThumb.step a (c, w))).
    destruct (finished_step e a c w Hidle Ha) as [Hnext Hw].
    destruct (VideoThumb.step a (c, w)) as [c1 w1]. simpl in *. subst w1.
    apply IH, Hnext.
Qed.

End ThumbComponent.

(** A photo with a thumbnail, rendered twice, with stray completions, then
    unmounted. *)
Lemma videoThumb_idle_without_generation_witness :
  let P := Demo.platform 1000 [] in
  snd (VideoThumb.steps
         [VideoThumb.Render Demo.photo4; VideoThumb.Resolved 0;
          VideoThumb.Thumbed 0 (Some "data:image/jpeg;base64,x"); VideoThumb.Unmount]
         (VideoThumb.mount Demo.photo4, Demo.worldWithClips))
  = Demo.worldWithClips.
Proof.
  intros P.
  refine (proj1 (videoThumb_idle_without_generation (H := P) Demo.photo4 _ Demo.worldWithClips
                   _ _)).
  - left. reflexivity.
  - repeat constructor.
Defined.

(** ** Opening an entry, and reopening it after a save *)

Section Reopen.
Context `{Platform}.
Variable decodeURIComponent : string -> Result string.

Lemma find_findIndex (id : string) (timeline : list Entry.t) :
  match EntryClient.find id timeline with
  | Some e =>
      exists i, EntryClient.findIndex id timeline = Some i
                /\ timeline !! i = Some e /\ Entry.id e = id
                /\ (forall j x, timeline !! j = Some x -> j < i -> Entry.id x <> id)
  | None =>
      EntryClient.findIndex id timeline = None
      /\ Forall (fun x => Entry.id x <> id) timeline
  end.
Proof.
  unfold EntryClient.find, EntryClient.findIndex.
  destruct (list_find _ timeline) as [[i e]|] eqn:Hfind; simpl.
  - apply list_find_Some in Hfind as (Hi & Hid & Hfirst). exists i. auto.
  - split; [reflexivity|]. apply list_find_None in Hfind. exact Hfind.
Qed.

(** Replacing the first entry with the id [k] by one with the same id
    leaves it where [find] and [findIndex] look. *)
Lemma find_insert (k : string) (timeline : list Entry.t) (i : nat) (e e' : Entry.t) :
  timeline !! i = Some e -> Entry.id e' = k ->
  (forall j x, timeline !! j = Some x -> j < i -> Entry.id x <> k) ->
  EntryClient.find k (<[i := e']> timeline) = Some e'.
Proof.
  intros Hi Hid Hfirst. unfold EntryClient.find.
  assert (Hfind : list_find (fun x => Entry.id x = k) (<[i := e']> timeline) = Some (i, e')).
  { apply list_find_Some. split; [|split; [exact Hid|]].
    - apply list_lookup_insert_eq. apply lookup_lt_Some in Hi. exact Hi.
    - intros j x Hj Hlt. rewrite list_lookup_insert_ne in Hj by lia.
      exact (Hfirst j x Hj Hlt). }
  rewrite Hfind. reflexivity.
Qed.

Lemma find_insert_None (k : string) (timeline : list Entry.t) (i : nat) (e' : Entry.t) :
  Forall (fun x => Entry.id x <> k) timeline -> Entry.id e' <> k ->
  EntryClient.find k (<[i := e']> timeline) = None.
Proof.
  intros Hall Hid. unfold EntryClient.find.
  assert (Hfind : list_find (fun x => Entry.id x = k) (<[i := e']> timeline) = None).
  { apply list_find_None. apply Forall_insert; assumption. }
  rewrite Hfind. reflexivity.
Qed.

Lemma load_unfold (id : string) (s : EntryClient.State) (w : World)
    (timeline : list Entry.t) :
  readTimeline w = (Ok timeline, w) ->
  EntryClient.load decodeURIComponent id s w
  = (Ok match match EntryClient.find id timeline with
              | Some e => Some e
              | None => EntryClient.find (EntryClient.tryDecode decodeURIComponent id) timeline
              end with
        | None =>
            EntryClient.mkState None (EntryClient.draft s)
              (Some (EntryClient.mkDebug id (EntryClient.tryDecode decodeURIComponent id)
                       (length timeline) (Entry.id <$> take 8 timeline)))
        | Some e =>
            EntryClient.mkState (Some e)
              match Entry.textBlocks e with
              | block :: _ => TextBlock.content block
              | [] => ""
              end None
        end, w).
Proof.
  intros Hread. unfold EntryClient.load, bind. rewrite Hread.
  destruct (EntryClient.find id timeline);
    [|destruct (EntryClient.find _ timeline)]; reflexivity.
Qed.

(** The entry page finds an entry exactly when the stored timeline has one
    under the requested id or under its URI-decoded form, the requested id
    first. The load never fails and changes nothing in the world. An entry
    it shows is a stored entry with one of the two ids (the decoded one only
    when no stored entry has the requested one), its draft is the content of
    the entry's first note, or empty without notes, and there is no debug
    panel; when it shows "not found", no stored entry has either id, the
    draft is left alone, and the debug panel counts the stored entries and
    samples at most eight ids. *)
Theorem load_finds_stored_entry (id : string) (s : EntryClient.State) (w : World)
    (timeline : list Entry.t) :
  readTimeline w = (Ok timeline, w) ->
  exists s',
    EntryClient.load decodeURIComponent id s w = (Ok s', w)
    /\ match EntryClient.entry s' with
       | Some e =>
           (exists i, timeline !! i = Some e)
           /\ (Entry.id e = id
               \/ (Entry.id e = EntryClient.tryDecode decodeURIComponent id
                   /\ Forall (fun x => Entry.id x <> id) timeline))
           /\ EntryClient.draft s' = default "" (TextBlock.content <$> head (Entry.textBlocks e))
           /\ EntryClient.debug s' = None
       | None =>
           Forall (fun x => Entry.id x <> id
                            /\ Entry.id x <> EntryClient.tryDecode decodeURIComponent id)
             timeline
           /\ EntryClient.draft s' = EntryClient.draft s
           /\ exists d, EntryClient.debug s' = Some d
                        /\ EntryClient.count d = length timeline
                        /\ length (EntryClient.sampleIds d) <= 8
                        /\ EntryClient.sampleIds d `prefix_of` (Entry.id <$> timeline)
       end.
Proof.
  intros Hread. eexists. split; [apply (load_unfold id s w timeline Hread)|].
  pose proof (find_findIndex id timeline) as Hraw.
  pose proof (find_findIndex (EntryClient.tryDecode decodeURIComponent id) timeline) as Hdec.
  destruct (EntryClient.find id timeline) as [e|].
  - destruct Hraw as (i & _ & Hi & Hid & _). simpl.
    split; [exists i; exact Hi|].
    split; [left; exact Hid|]. split; [|reflexivity].
    destruct (Entry.textBlocks e); reflexivity.
  - destruct Hraw as [_ Hnone].
    destruct (EntryClient.find _ timeline) as [e|].
    + destruct Hdec as (i & _ & Hi & Hid & _). simpl.
      split; [exists i; exact Hi|].
      split; [right; split; assumption|]. split; [|reflexivity].
      destruct (Entry.textBlocks e); reflexivity.
    + destruct Hdec as [_ Hnone']. simpl.
      split; [|split; [reflexivity|]].
      * rewrite Forall_forall in Hnone, Hnone'. apply Forall_forall. intros x Hx. auto.
      * eexists. split; [reflexivity|]. simpl. split; [reflexivity|].
        split.
        -- rewrite length_fmap, length_take. lia.
        -- exists (Entry.id <$> drop 8 timeline).
           rewrite <- fmap_app, take_drop. reflexivity.
Qed.

(** [onSaveNotes] writes nothing for an entry that is not stored: without
    an entry on the page, or when the stored timeline no longer has the
    entry's id, it returns with the world untouched (no write, no event) and
    the page's entry as it was. *)
Theorem onSaveNotes_ignores_unstored_entry (entry : option Entry.t)
    (draft now uuid : string) (w : World) (timeline : list Entry.t) :
  readTimeline w = (Ok timeline, w) ->
  (forall e, entry = Some e -> Forall (fun x => Entry.id x <> Entry.id e) timeline) ->
  EntryClient.onSaveNotes entry draft now uuid w = (Ok entry, w).
Proof.
  intros Hread Hgone. destruct entry as [e|]; [|reflexivity].
  unfold EntryClient.onSaveNotes, bind. rewrite Hread.
  pose proof (find_findIndex (Entry.id e) timeline) as Hfind.
  destruct (EntryClient.find (Entry.id e) timeline) as [x|].
  - destruct Hfind as (i & _ & Hi & Hid & _).
    specialize (Hgone e eq_refl). rewrite Forall_lookup in Hgone.
    destruct (Hgone i x Hi Hid).
  - destruct Hfind as [-> _]. reflexivity.
Qed.

(** Saved notes survive reopening the entry. When the page opened under
    [id] shows an entry and [onSaveNotes] succeeds on the draft [typed],
    and the platform's JSON reads back the stored timeline with the saved
    entry in it, then opening the page under [id] again shows exactly the
    entry [onSaveNotes] left on the page, with the trimmed draft in the
    editor and no debug panel. *)
Theorem notes_survive_reopening (id typed now uuid : string)
    (s0 s1 s2 : EntryClient.State) (w : World) (timeline : list Entry.t)
    (saved : Entry.t) :
  readTimeline w = (Ok timeline, w) ->
  fst (EntryClient.load decodeURIComponent id s0 w) = Ok s1 ->
  fst (EntryClient.onSaveNotes (EntryClient.entry s1) typed now uuid w) = Ok (Some saved) ->
  (forall i, readsBack (<[i := saved]> timeline)) ->
  EntryClient.load decodeURIComponent id s2
    (snd (EntryClient.onSaveNotes (EntryClient.entry s1) typed now uuid w))
  = (Ok (EntryClient.mkState (Some saved) (trim typed) None),
     snd (EntryClient.onSaveNotes (EntryClient.entry s1) typed now uuid w)).
Proof.
  intros Hread Hload Hsave Hjson.
  rewrite (load_unfold id s0 w timeline Hread) in Hload. simpl in Hload.
  set (decoded := EntryClient.tryDecode decodeURIComponent id) in *.
  (* the entry shown, where it is stored, and the id [k] it was found under *)
  assert (Hshown : exists e i k,
            EntryClient.entry s1 = Some e
            /\ timeline !! i = Some e /\ Entry.id e = k
            /\ EntryClient.findIndex k timeline = Some i
            /\ (forall j x, timeline !! j = Some x -> j < i -> Entry.id x <> k)
            /\ (k = id \/ (k = decoded /\ Forall (fun x => Entry.id x <> id) timeline))).
  { pose proof (find_findIndex id timeline) as Hraw.
    pose proof (find_findIndex decoded timeline) as Hdec.
    destruct (EntryClient.find id timeline) as [e|].
    - destruct Hraw as (i & Hidx & Hi & Hid & Hfirst). injection Hload as <-.
      exists e, i, id. simpl. auto 10.
    - destruct Hraw as [_ Hnone].
      destruct (EntryClient.find decoded timeline) as [e|].
      + destruct Hdec as (i & Hidx & Hi & Hid & Hfirst). injection Hload as <-.
        exists e, i, decoded. simpl. auto 10.
      + injection Hload as <-. simpl in Hsave. discriminate. }
  destruct Hshown as (e & i & k & Hentry & Hi & Hid & Hidx & Hfirst & Hk).
  rewrite Hentry in *.
  set (next := Entry.mk (Entry.id e) (Entry.createdAt e) (Entry.mediaType e)
                 (Entry.mediaUri e) (Entry.thumbUri e)
                 (EntryClient.nextTextBlocks (Entry.textBlocks e) (trim typed) now uuid)).
  assert (Hrun : EntryClient.onSaveNotes (Some e) typed now uuid w
                 = bind (EntryClient.writeTimeline (<[i := next]> timeline))
                     (fun _ => ret (Some next)) w).
  { unfold EntryClient.onSaveNotes. unfold bind at 1.
    rewrite Hread, Hid, Hidx, Hi. reflexivity. }
  rewrite Hrun in *. clear Hrun.
  set (doc := JSON_stringify (<[i := next]> timeline)).
  set (w' := emit (DispatchEvent EVT) (store KEY doc (emit (SetItem KEY doc) w))).
  assert (Hout : bind (EntryClient.writeTimeline (<[i := next]> timeline))
                   (fun _ => ret (Some next)) w
                 = match storageFault (localStorage w) KEY doc with
                   | None => (Ok (Some next), w')
                   | Some err => (Throw err, emit (SetItem KEY doc) w)
                   end).
  { unfold bind at 1. unfold EntryClient.writeTimeline. rewrite write_then_dispatch.
    fold doc. destruct (storageFault _ _ _); reflexivity. }
  rewrite Hout in *. clear Hout.
  destruct (storageFault _ _ _); [discriminate|]. cbn [fst snd] in *.
  injection Hsave as <-.
  destruct (Hjson i) as [Htruthy Hparse]. fold doc in Htruthy, Hparse.
  assert (Hread' : readTimeline w' = (Ok (<[i := next]> timeline), w')).
  { rewrite readTimeline_unfold. subst w'. cbn [localStorage emit store].
    rewrite lookup_insert_eq, Htruthy, Hparse. reflexivity. }
  rewrite (load_unfold id s2 w' _ Hread'). fold decoded.
  assert (Hfound : match EntryClient.find id (<[i := next]> timeline) with
                   | Some x => Some x
                   | None => EntryClient.find decoded (<[i := next]> timeline)
                   end = Some next).
  { destruct Hk as [->|[-> Hnone]].
    - rewrite (find_insert id timeline i e next Hi Hid Hfirst). reflexivity.
    - assert (Hne : Entry.id next <> id).
      { rewrite Forall_lookup in Hnone. exact (Hnone i e Hi). }
      rewrite (find_insert_None id timeline i next Hnone Hne).
      apply (find_insert decoded timeline i e next Hi Hid Hfirst). }
  rewrite Hfound. f_equal. f_equal.
  subst next. cbn [Entry.textBlocks]. unfold EntryClient.nextTextBlocks.
  destruct (trim typed) as [|c rest]; [reflexivity|]. simpl.
  destruct (Entry.textBlocks e); reflexivity.
Qed.

End Reopen.

(** The page of the demo video under its id: found, with its first note as
    the draft. *)
Lemma load_finds_stored_entry_witness :
  let P := Demo.platform 1000 [[Demo.video3; Demo.photo4]] in
  let w := Demo.worldWith (Demo.stringify [Demo.video3; Demo.photo4]) in
  exists s',
    EntryClient.load (fun s => Ok s) "e3" (EntryClient.mkState None "" None) w = (Ok s', w)
    /\ (EntryClient.entry s' = Some Demo.video3 -> EntryClient.draft s' = "first").
Proof.
  intros P w.
  destruct (load_finds_stored_entry (H := P) (fun s => Ok s) "e3"
              (EntryClient.mkState None "" None) w
              [Demo.video3; Demo.photo4] eq_refl) as (s' & Hload & Hshown).
  exists s'. split; [exact Hload|]. intros Hentry. rewrite Hentry in Hshown.
  destruct Hshown as (_ & _ & Hdraft & _). exact Hdraft.
Defined.

(** Without the entry in the store the save does nothing. *)
Lemma onSaveNotes_ignores_unstored_entry_witness :
  let P := Demo.platform 1000 [[Demo.video3; Demo.photo4]] in
  let w := Demo.worldWith (Demo.stringify [Demo.video3; Demo.photo4]) in
  EntryClient.onSaveNotes (Some Demo.video5) "lost" "2024-03-01" "u1" w
  = (Ok (Some Demo.video5), w).
Proof.
  intros P w.
  apply (onSaveNotes_ignores_unstored_entry (H := P) (Some Demo.video5) "lost" "2024-03-01"
           "u1" w [Demo.video3; Demo.photo4]).
  - reflexivity.
  - intros e [= <-]. repeat constructor; discriminate.
Defined.

(** The draft ["  third  "] saved on the demo video and the page reopened. *)
Lemma notes_survive_reopening_witness :
  let saved :=
    Entry.mk "e3" "2024-01-03T10:00:00.000Z" video "idb:e3" None
      [TextBlock.mk "n1" "2024-01-03T10:00:00.000Z" "third"] in
  let P :=
    Demo.platform 1000
      [[Demo.video3; Demo.photo4]; [saved; Demo.photo4]; [Demo.video3; saved]] in
  let fresh := EntryClient.mkState None "" None in
  let saving :=
    EntryClient.onSaveNotes (Some Demo.video3) "  third  " "2024-03-01" "u1"
      (Demo.worldWith (Demo.stringify [Demo.video3; Demo.photo4])) in
  fst (EntryClient.load (fun s => Ok s) "e3" fresh (snd saving))
  = Ok (EntryClient.mkState (Some saved) "third" None).
Proof.
  intros saved P fresh saving. subst saving.
  pose proof (notes_survive_reopening (H := P) (fun s => Ok s) "e3" "  third  " "2024-03-01"
                "u1" fresh (EntryClient.mkState (Some Demo.video3) "first" None) fresh
                (Demo.worldWith (Demo.stringify [Demo.video3; Demo.photo4]))
                [Demo.video3; Demo.photo4] saved eq_refl eq_refl eq_refl) as Hreopen.
  cbn [EntryClient.entry] in Hreopen. rewrite Hreopen; [reflexivity|].
  intros [|[|i]]; split; reflexivity.
Defined.

(** ** The preview URL of the capture page *)

Lemma initial_tidy (m : nat) : tidy Recording.initial m [].
Proof.
  split; simpl.
  - discriminate.
  - reflexivity.
  - intros u. unfold created. simpl. lia.
  - intros u Hu. unfold created in Hu. simpl in Hu. lia.
Qed.

(** Page updates that leave [previewUrlRef] alone keep the discipline. *)
Lemma tidy_same (p p' : Recording.Page) (m : nat) (l : list Effect) :
  tidy p m l -> Recording.previewUrlRef p' = Recording.previewUrlRef p -> tidy p' m l.
Proof.
  intros [Hheld Hrel Honce Hfresh] Href. split; try assumption.
  - intros u Hu. apply Hheld. congruence.
  - intros u Hu. apply Hrel. congruence.
Qed.

(** [release]: the URL held, if any, is revoked and forgotten. *)
Lemma release_tidy (p : Recording.Page) (w : World) (l : list Effect) :
  tidy p (minted w) l ->
  exists p' es,
    Recording.release p w = (Ok p', mkWorld (localStorage w) (mediaDb w) (minted w)
                                      (trace w ++ es))
    /\ Recording.previewUrlRef p' = None
    /\ Recording.captured p' = Recording.captured p
    /\ tidy p' (minted w) (l ++ es).
Proof.
  intros Ht. pose proof Ht as [Hheld Hrel Honce Hfresh]. unfold Recording.release.
  destruct (Recording.previewUrlRef p) as [u|] eqn:Href.
  - destruct (Hheld u eq_refl) as (Htruthy & Hc & Hr). rewrite Htruthy.
    exists (Recording.setRef None p), [RevokeObjectURL u].
    split; [reflexivity|]. split; [reflexivity|]. split; [reflexivity|].
    split; simpl.
    + discriminate.
    + intros v _. rewrite revoked_snoc, created_snoc.
      destruct (decide (RevokeObjectURL u = RevokeObjectURL v)) as [Heq|Hne].
      * injection Heq as <-. rewrite Hr, Hc.
        destruct (decide (RevokeObjectURL u = CreateObjectURL u)); [discriminate|lia].
      * destruct (decide (RevokeObjectURL u = CreateObjectURL v)); [discriminate|].
        rewrite (Hrel v); [lia|]. congruence.
    + intros v. rewrite created_snoc.
      destruct (decide (RevokeObjectURL u = CreateObjectURL v)); [discriminate|].
      specialize (Honce v). lia.
    + intros v. rewrite created_snoc.
      destruct (decide (RevokeObjectURL u = CreateObjectURL v)); [discriminate|].
      rewrite Nat.add_0_r. apply Hfresh.
  - exists p, []. rewrite !app_nil_r. destruct w. simpl.
    split; [reflexivity|]. split; [exact Href|]. split; [reflexivity|exact Ht].
Qed.

(** [onstop] on a recording that is not empty: one URL is minted and
    held, the one held before is revoked. *)
Lemma onstop_tidy (mimeType : string) (p : Recording.Page) (w : World) (l : list Effect) :
  tidy p (minted w) l ->
  exists p' w' es,
    Recording.onstop mimeType p w = (Ok p', w')
    /\ trace w' = trace w ++ es
    /\ tidy p' (minted w') (l ++ es).
Proof.
  intros Ht. pose proof Ht as [Hheld Hrel Honce Hfresh]. unfold Recording.onstop.
  destruct (_ =? 0)%nat.
  { eexists _, w, []. rewrite !app_nil_r. split; [reflexivity|]. split; [reflexivity|].
    eapply tidy_same; [exact Ht|reflexivity]. }
  unfold bind, createObjectURL. cbn [Recording.previewUrlRef Recording.setChunks].
  set (u0 := "blob:" +:+ pretty (minted w)).
  assert (Hnew : created u0 l = 0).
  { destruct (created u0 l) eqn:Hc; [reflexivity|].
    destruct (Hfresh u0 ltac:(lia)) as (k & Hk & Hlt).
    apply blob_url_inj in Hk. lia. }
  assert (Hmore : forall es v, 0 < created v (l ++ [CreateObjectURL u0] ++ es) ->
            (forall x, In x es -> x <> CreateObjectURL v) ->
            exists k, v = "blob:" +:+ pretty k /\ k < S (minted w)).
  { intros es v Hv Hes.
    assert (Hsplit : created v (l ++ [CreateObjectURL u0] ++ es)
                     = created v l + (if decide (CreateObjectURL u0 = CreateObjectURL v)
                                      then 1 else 0)).
    { rewrite app_assoc. unfold created at 1. rewrite count_occ_app.
      fold (created v (l ++ [CreateObjectURL u0])). rewrite created_snoc.
      rewrite (proj1 (count_occ_not_In Effect_eq_dec es (CreateObjectURL v))); [lia|].
      intros Hin. exact (Hes _ Hin eq_refl). }
    rewrite Hsplit in Hv.
    destruct (decide (CreateObjectURL u0 = CreateObjectURL v)) as [Heq|Hne].
    - injection Heq as <-. exists (minted w). split; [reflexivity|lia].
    - destruct (Hfresh v ltac:(lia)) as (k & Hk & Hlt). exists k. split; [exact Hk|lia]. }
  destruct (Recording.previewUrlRef p) as [old|] eqn:Href.
  - destruct (Hheld old eq_refl) as (Htruthy & Hc & Hr). rewrite Htruthy.
    assert (Hne : old <> u0) by (intros ->; lia).
    eexists _, _, [CreateObjectURL u0; RevokeObjectURL old].
    split; [reflexivity|]. split; [simpl; rewrite <- app_assoc; reflexivity|].
    split; cbn [Recording.previewUrlRef Recording.setThumbing Recording.setCaptured
                Recording.setRef minted].
    + intros v [= <-]. split; [reflexivity|].
      change (l ++ [CreateObjectURL u0; RevokeObjectURL old])
        with (l ++ [CreateObjectURL u0] ++ [RevokeObjectURL old]).
      rewrite app_assoc, created_snoc, revoked_snoc, created_snoc, revoked_snoc.
      rewrite Hnew, (Hrel u0) by congruence. rewrite Hnew.
      destruct (decide (RevokeObjectURL old = CreateObjectURL u0)); [discriminate|].
      destruct (decide (CreateObjectURL u0 = CreateObjectURL u0)); [|congruence].
      destruct (decide (CreateObjectURL u0 = RevokeObjectURL u0)); [discriminate|].
      destruct (decide (RevokeObjectURL old = RevokeObjectURL u0)); [congruence|lia].
    + intros v Hv.
      change (l ++ [CreateObjectURL u0; RevokeObjectURL old])
        with (l ++ [CreateObjectURL u0] ++ [RevokeObjectURL old]).
      rewrite app_assoc, created_snoc, revoked_snoc, created_snoc, revoked_snoc.
      destruct (decide (RevokeObjectURL old = CreateObjectURL v)); [discriminate|].
      destruct (decide (CreateObjectURL u0 = RevokeObjectURL v)); [discriminate|].
      destruct (decide (CreateObjectURL u0 = CreateObjectURL v)); [congruence|].
      destruct (decide (RevokeObjectURL old = RevokeObjectURL v)) as [Heq|Hother].
      * injection Heq as <-. lia.
      * rewrite (Hrel v); [lia|congruence].
    + intros v.
      change (l ++ [CreateObjectURL u0; RevokeObjectURL old])
        with (l ++ [CreateObjectURL u0] ++ [RevokeObjectURL old]).
      rewrite app_assoc, created_snoc, created_snoc.
      destruct (decide (RevokeObjectURL old = CreateObjectURL v)); [discriminate|].
      destruct (decide (CreateObjectURL u0 = CreateObjectURL v)) as [Heq|Hother].
      * injection Heq as <-. lia.
      * specialize (Honce v). lia.
    + intros v Hv. apply (Hmore [RevokeObjectURL old] v Hv).
      intros x [<-|[]]. discriminate.
  - eexists _, _, [CreateObjectURL u0].
    split; [reflexivity|]. split; [reflexivity|].
    split; cbn [Recording.previewUrlRef Recording.setThumbing Recording.setCaptured
                Recording.setRef minted].
    + intros v [= <-]. split; [reflexivity|].
      rewrite created_snoc, revoked_snoc, Hnew, (Hrel u0) by congruence. rewrite Hnew.
      destruct (decide (CreateObjectURL u0 = CreateObjectURL u0)); [|congruence].
      destruct (decide (CreateObjectURL u0 = RevokeObjectURL u0)); [discriminate|lia].
    + intros v Hv. rewrite created_snoc, revoked_snoc.
      destruct (decide (CreateObjectURL u0 = RevokeObjectURL v)); [discriminate|].
      destruct (decide (CreateObjectURL u0 = CreateObjectURL v)); [congruence|].
      rewrite (Hrel v); [lia|congruence].
    + intros v. rewrite created_snoc.
      destruct (decide (CreateObjectURL u0 = CreateObjectURL v)) as [Heq|Hother].
      * injection Heq as <-. lia.
      * specialize (Honce v). lia.
    + intros v Hv. apply (Hmore [] v); [rewrite app_nil_r; exact Hv|intros x []].
Qed.

Lemma step_tidy (a : Recording.Action) (p : Recording.Page) (w : World) (l : list Effect) :
  tidy p (minted w) l ->
  exists es,
    trace (snd (Recording.step a (p, w))) = trace w ++ es
    /\ tidy (fst (Recording.step a (p, w))) (minted (snd (Recording.step a (p, w))))
         (l ++ es).
Proof.
  intros Ht.
  assert (Hstay : forall p', Recording.previewUrlRef p' = Recording.previewUrlRef p ->
            exists es, trace w = trace w ++ es /\ tidy p' (minted w) (l ++ es)).
  { intros p' Href. exists []. rewrite !app_nil_r. split; [reflexivity|].
    exact (tidy_same p p' _ l Ht Href). }
  destruct a as [stream constructed|data|mimeType|i thumb| |]; simpl.
  - apply Hstay. unfold Recording.startRecording.
    destruct (negb stream); [|destruct (negb constructed)]; reflexivity.
  - apply Hstay. unfold Recording.ondataavailable.
    destruct data as [chunk|]; [destruct (_ <? _)%nat|]; reflexivity.
  - destruct (onstop_tidy mimeType p w l Ht) as (p' & w' & es & -> & Htrace & Ht').
    exists es. simpl. auto.
  - apply Hstay. unfold Recording.thumbnailed.
    destruct (Recording.thumbing p !! i) as [[[url blob]|]|]; reflexivity.
  - destruct (release_tidy p w l Ht) as (p' & es & Hrel & Href & _ & Ht').
    unfold Recording.onRetake, bind. rewrite Hrel. exists es. simpl.
    split; [reflexivity|]. eapply tidy_same; [exact Ht'|reflexivity].
  - destruct (release_tidy p w l Ht) as (p' & es & -> & Href & _ & Ht').
    exists es. simpl. auto.
Qed.

Lemma steps_tidy (acts : list Recording.Action) : forall p w l,
  tidy p (minted w) l ->
  exists es,
    trace (snd (Recording.steps acts (p, w))) = trace w ++ es
    /\ tidy (fst (Recording.steps acts (p, w))) (minted (snd (Recording.steps acts (p, w))))
         (l ++ es).
Proof.
  induction acts as [|a acts IH]; intros p w l Ht.
  - exists []. simpl. rewrite !app_nil_r. auto.
  - change (Recording.steps (a :: acts) (p, w))
      with (Recording.steps acts (Recording.step a (p, w))).
    destruct (step_tidy a p w l Ht) as (es1 & Ht1 & Hd1).
    destruct (Recording.step a (p, w)) as [p1 w1]. simpl in Ht1, Hd1.
    destruct (IH p1 w1 _ Hd1) as (es2 & Ht2 & Hd2).
    exists (es1 ++ es2). rewrite Ht2, Ht1, <- !app_assoc. split; [reflexivity|].
    rewrite <- app_assoc in Hd2. exact Hd2.
Qed.

(** The capture page releases its preview URLs exactly once. Under every
    schedule of recordings, chunks, stop events, resolved thumbnails and
    retakes: no object URL is minted twice or revoked more often than it was
    minted; the URL in [previewUrlRef] has not been revoked; and when the
    schedule ends with the unmount, every URL the page minted has been
    revoked exactly once. *)
Theorem preview_urls_released_once (w0 : World) (acts : list Recording.Action)
    (u : string) :
  let during := Recording.steps acts (Recording.initial, w0) in
  let final := Recording.steps (acts ++ [Recording.Unmount]) (Recording.initial, w0) in
  revoked u (added w0 (snd during)) <= created u (added w0 (snd during))
  /\ created u (added w0 (snd during)) <= 1
  /\ (Recording.previewUrlRef (fst during) = Some u ->
      created u (added w0 (snd during)) = 1 /\ revoked u (added w0 (snd during)) = 0)
  /\ revoked u (added w0 (snd final)) = created u (added w0 (snd final)).
Proof.
  intros during final.
  destruct (steps_tidy acts Recording.initial w0 [] (initial_tidy (minted w0)))
    as (es & Htrace & Ht).
  fold during in Htrace, Ht. rewrite (added_app _ _ _ Htrace). simpl in Ht.
  destruct Ht as [Hheld Hrel Honce Hfresh].
  split; [|split; [apply Honce|split]].
  - destruct (decide (Recording.previewUrlRef (fst during) = Some u)) as [Href|Href].
    + destruct (Hheld u Href) as (_ & Hc & Hr). lia.
    + rewrite (Hrel u Href). lia.
  - intros Href. destruct (Hheld u Href) as (_ & Hc & Hr). auto.
  - destruct (steps_tidy (acts ++ [Recording.Unmount]) Recording.initial w0 []
                (initial_tidy (minted w0))) as (es' & Htrace' & Ht').
    fold final in Htrace', Ht'. rewrite (added_app _ _ _ Htrace'). simpl in Ht'.
    apply (t_released _ _ _ Ht').
    assert (Hnone : Recording.previewUrlRef (fst final) = None).
    { subst final. unfold Recording.steps. rewrite fold_left_app. cbn [fold_left].
      destruct (steps_tidy acts Recording.initial w0 [] (initial_tidy (minted w0)))
        as (es1 & _ & Ht1).
      unfold Recording.steps in Ht1.
      destruct (fold_left _ acts _) as [p1 w1]. simpl in Ht1.
      change (Recording.step Recording.Unmount (p1, w1))
        with (Recording.settle p1 (Recording.release p1 w1)).
      destruct (release_tidy p1 w1 _ Ht1) as (p' & es2 & -> & Href & _). exact Href. }
    rewrite Hnone. discriminate.
Qed.

(** A recording can be saved exactly when its thumbnail was made. When the
    recorder stops on a recording that is not empty, the page shows the clip
    under a freshly minted URL with the Save button disabled; when the
    thumbnail promise of that handler resolves, Save is enabled if and only
    if it resolved with a non-empty string. An empty recording changes
    neither the clip shown nor the world, and sets an error message. *)
Theorem recording_savable_iff_thumbnail (mimeType : string) (thumb : option string)
    (p : Recording.Page) (w : World) :
  let blob :=
    Recording.newBlob (Recording.chunksRef p)
      (if truthy mimeType then mimeType else "video/webm") in
  exists p',
    fst (Recording.onstop mimeType p w) = Ok p'
    /\ (Capture.blob_size blob = 0 ->
        snd (Recording.onstop mimeType p w) = w
        /\ Recording.captured p' = Recording.captured p
        /\ Recording.previewUrlRef p' = Recording.previewUrlRef p
        /\ is_Some (Recording.captureError p'))
    /\ (Capture.blob_size blob <> 0 ->
        Recording.captured p'
        = Some (Capture.mkCaptured video ("blob:" +:+ pretty (minted w)) None (Some blob))
        /\ Recording.previewUrlRef p' = Some ("blob:" +:+ pretty (minted w))
        /\ Capture.saveDisabled (Recording.captured p') = true
        /\ Capture.saveDisabled
             (Recording.captured
                (Recording.thumbnailed (length (Recording.thumbing p)) thumb p'))
           = negb (truthy_opt thumb)).
Proof.
  intros blob. unfold Recording.onstop. fold blob.
  destruct (Nat.eqb_spec (Capture.blob_size blob) 0) as [Hzero|Hsome].
  - eexists. split; [reflexivity|]. split; [|congruence].
    intros _. simpl. eauto.
  - unfold bind, createObjectURL. cbn [Recording.previewUrlRef Recording.setChunks].
    assert (Hdisabled : forall t,
              Capture.saveDisabled
                (Some (Capture.mkCaptured video ("blob:" +:+ pretty (minted w)) t (Some blob)))
              = negb (truthy_opt t)).
    { intros t. unfold Capture.saveDisabled. cbn [Capture.cap_blob Capture.cap_mediaType
        Capture.cap_thumbUri].
      apply Nat.eqb_neq in Hsome. rewrite Hsome. rewrite bool_decide_true by reflexivity.
      reflexivity. }
    assert (Hlast : forall (l : list (option (string * Blob))) x,
              (l ++ [x]) !! length l = Some x).
    { intros l x. rewrite lookup_app_r by lia. rewrite Nat.sub_diag. reflexivity. }
    destruct (Recording.previewUrlRef p) as [old|]; [destruct (truthy old)|];
      (eexists; split; [reflexivity|]; split; [congruence|]; intros _;
       cbn [Recording.captured Recording.previewUrlRef Recording.setThumbing
            Recording.setCaptured Recording.setRef];
       split; [reflexivity|]; split; [reflexivity|]; split; [apply (Hdisabled None)|];
       unfold Recording.thumbnailed;
       cbn [Recording.thumbing Recording.setThumbing Recording.setCaptured
            Recording.setRef Recording.setChunks];
       rewrite Hlast;
       cbn [Recording.captured Recording.setIsRecording Recording.setCaptured];
       apply Hdisabled).
Qed.

(** Two clips recorded, the first retaken, then the page left: each URL is
    minted once and revoked once. *)
Example preview_urls_two_recordings :
  trace (snd (Recording.steps
                [Recording.StartRecording true true; Recording.DataAvailable (Some Demo.clip);
                 Recording.Stop "video/webm"; Recording.Thumbnailed 0 None;
                 Recording.Retake;
                 Recording.StartRecording true true; Recording.DataAvailable (Some Demo.clip);
                 Recording.Stop ""; Recording.Unmount]
                (Recording.initial, Demo.emptyWorld)))
  = [CreateObjectURL "blob:0"; RevokeObjectURL "blob:0";
     CreateObjectURL "blob:1"; RevokeObjectURL "blob:1"].
Proof. vm_compute. reflexivity. Qed.
